(** * cloudflare-webhook-proxy: the Expo webhook relay and the PR/Notion linker

    A shallow embedding of the two programs of the repository:

    - [scripts/link_pr_to_notion_task.py], the linker that extracts task
      references from a pull request, resolves them to Notion pages and
      annotates both sides (modules [Linker], [Unicode] and [Main]);
    - the Cloudflare worker that authenticates an Expo build webhook and relays
      it to Slack or GitHub, in its plain form [src/worker.ts] (module
      [Worker]), in its extended, profile-filtering form (module
      [WorkerExt]) and as a Pages function (module [Pages]).

    Module [Text] holds the characters of ASCII, their classes and their
    letters: the patterns of the workers are JavaScript patterns without
    the flag [u], and the patterns of the linker for record ids name their
    characters one by one.  The two patterns of the linker that go by the
    Unicode database of the interpreter, [TASK_REGEX] and
    [NOTION_URL_REGEX], are modelled twice: over code points, the database
    being a parameter (module [Unicode]), and over ASCII text (module
    [Linker]), for running the script on the examples of the repository;
    module [Agreement] proves that the two return the same references on
    ASCII text.  Remote services (Notion, Slack, GitHub), the HMAC primitive and the
    JSON parser are parameters of the sections that use them. *)

From Stdlib Require Import List String Ascii Bool Arith NArith ZArith Lia.
From Stdlib Require Import Sorting.Sorted Sorting.Permutation.
From Stdlib Require Import Structures.OrderedTypeEx.
Import ListNotations.

Local Open Scope string_scope.

(* ================================================================== *)
(** * Text primitives shared by both programs *)
(* ================================================================== *)

Module Text.

Definition code (c : ascii) : N := N_of_ascii c.

Definition in_range (lo hi c : ascii) : bool :=
  ((code lo <=? code c) && (code c <=? code hi))%N.

Definition is_digit (c : ascii) : bool := in_range "0" "9" c.
Definition is_upper (c : ascii) : bool := in_range "A" "Z" c.
Definition is_lower (c : ascii) : bool := in_range "a" "z" c.

(** [[0-9a-fA-F]] *)
Definition is_hex (c : ascii) : bool :=
  is_digit c || in_range "a" "f" c || in_range "A" "F" c.

(** [\w]: letters, digits and the underscore. *)
Definition is_word (c : ascii) : bool :=
  is_digit c || is_upper c || is_lower c || (c =? "_")%char.

(** [\s]: the characters [str.isspace] accepts below 128, that is
    TAB, LF, VT, FF, CR, the separators 28 to 31, and the space. *)
Definition is_space (c : ascii) : bool :=
  ((9 <=? code c) && (code c <=? 13) ||
   (28 <=? code c) && (code c <=? 32))%N.

Definition to_upper (c : ascii) : ascii :=
  if is_lower c then ascii_of_N (code c - 32) else c.

Definition to_lower (c : ascii) : ascii :=
  if is_upper c then ascii_of_N (code c + 32) else c.

Fixpoint map_string (f : ascii -> ascii) (s : string) : string :=
  match s with
  | EmptyString => EmptyString
  | String c s' => String (f c) (map_string f s')
  end.

(** [str.upper()], [str.lower()], [String.prototype.toUpperCase] and
    [toLowerCase]. *)
Definition upper : string -> string := map_string to_upper.
Definition lower : string -> string := map_string to_lower.

Fixpoint forall_chars (p : ascii -> bool) (s : string) : bool :=
  match s with
  | EmptyString => true
  | String c s' => p c && forall_chars p s'
  end.

(** [s.replace(c, "")], [s.replace(/c/g, "")]: every occurrence removed. *)
Fixpoint remove_char (c : ascii) (s : string) : string :=
  match s with
  | EmptyString => EmptyString
  | String d s' =>
      if (d =? c)%char then remove_char c s' else String d (remove_char c s')
  end.

(** [needle in hay], [hay.includes(needle)]. *)
Fixpoint contains (needle hay : string) : bool :=
  prefix needle hay ||
  match hay with
  | EmptyString => false
  | String _ hay' => contains needle hay'
  end.

(** A literal at the head of [s]: the rest of [s] after it. *)
Fixpoint strip_prefix (p s : string) : option string :=
  match p, s with
  | EmptyString, _ => Some s
  | String a p', String b s' =>
      if (a =? b)%char then strip_prefix p' s' else None
  | String _ _, EmptyString => None
  end.

(** The same, letters compared without case ([re.IGNORECASE]); the text
    that was matched is returned with the rest. *)
Fixpoint strip_prefix_ci (p s : string) : option (string * string) :=
  match p, s with
  | EmptyString, _ => Some (EmptyString, s)
  | String a p', String b s' =>
      if (to_lower a =? to_lower b)%char then
        match strip_prefix_ci p' s' with
        | Some (m, r) => Some (String b m, r)
        | None => None
        end
      else None
  | String _ _, EmptyString => None
  end.

Definition head (s : string) : option ascii :=
  match s with
  | EmptyString => None
  | String c _ => Some c
  end.

Fixpoint last_char (d : option ascii) (s : string) : option ascii :=
  match s with
  | EmptyString => d
  | String c s' => last_char (Some c) s'
  end.

Definition is_word_opt (c : option ascii) : bool :=
  match c with
  | Some c => is_word c
  | None => false
  end.

(** [\b] between the character [prev] (none at the start of the text) and
    the text [s] that follows. *)
Definition at_boundary (prev : option ascii) (s : string) : bool :=
  xorb (is_word_opt prev) (is_word_opt (head s)).

Definition nonempty (s : string) : bool :=
  match s with
  | EmptyString => false
  | String _ _ => true
  end.

Definition LF : ascii := "010"%char.

(** [\d+\b]: the digits are taken greedily, and a shorter run is tried when
    the boundary fails after the longer one. *)
Fixpoint digits_then_boundary (s : string) : option string :=
  match s with
  | EmptyString => None
  | String c s' =>
      if is_digit c then
        match digits_then_boundary s' with
        | Some m => Some (String c m)
        | None => if at_boundary (Some c) s' then Some (String c EmptyString)
                  else None
        end
      else None
  end.

(** [<pfx>-\d+\b] at the head of [s], the letters of [pfx] compared without
    case: the text that was matched. *)
Definition short_code_at (pfx : string) (s : string) : option string :=
  match strip_prefix_ci pfx s with
  | Some (m, r) =>
      match r with
      | String c r' =>
          if (c =? "-")%char then
            match digits_then_boundary r' with
            | Some ds => Some (m ++ String "-" ds)
            | None => None
            end
          else None
      | EmptyString => None
      end
  | None => None
  end.

End Text.

(* ================================================================== *)
(** * The linker script, [scripts/link_pr_to_notion_task.py] *)
(* ================================================================== *)

Module Linker.
Import Text.

(** A Python call either returns or raises. *)
Inductive Py (A : Type) : Type :=
| Ok (a : A)
| Raise (exn : string).
Arguments Ok {A} a.
Arguments Raise {A} exn.

Definition bind {A B : Type} (m : Py A) (k : A -> Py B) : Py B :=
  match m with
  | Ok a => k a
  | Raise e => Raise e
  end.

Notation "x <- m ;; k" := (bind m (fun x => k))
  (at level 61, m at next level, right associativity).

(** [TASK_PREFIX = os.getenv("TASK_PREFIX", "TASK")] *)
Definition TASK_PREFIX_default : string := "TASK".

(** ** [TASK_REGEX = \b<prefix>-\d+\b], [re.IGNORECASE] *)

(** The text [TASK_REGEX] matches at the head of [s], [prev] being the
    character before it. *)
Definition task_match_at (pfx : string) (prev : option ascii) (s : string)
  : option string :=
  if at_boundary prev s then short_code_at pfx s else None.

(** [TASK_REGEX.finditer(text)]: the matches from left to right, none
    overlapping another; [skip] counts the characters of the last match
    that are still to be passed. *)
Fixpoint task_scan (pfx : string) (prev : option ascii) (skip : nat)
    (s : string) : list string :=
  match s with
  | EmptyString => []
  | String c s' =>
      match skip with
      | S k => task_scan pfx (Some c) k s'
      | O =>
          match task_match_at pfx prev s with
          | Some m => m :: task_scan pfx (Some c) (length m - 1) s'
          | None => task_scan pfx (Some c) 0 s'
          end
      end
  end.

Definition task_finditer (pfx text : string) : list string :=
  task_scan pfx None 0 text.

(** ** [NOTION_URL_REGEX = https?://(www\.)?notion\.so/[^\s)>\]]+] *)

Definition is_link_char (c : ascii) : bool :=
  negb (is_space c || (c =? ")")%char || (c =? ">")%char || (c =? "]")%char).

Fixpoint take_while (p : ascii -> bool) (s : string) : string :=
  match s with
  | EmptyString => EmptyString
  | String c s' => if p c then String c (take_while p s') else EmptyString
  end.

(** [notion\.so/[^\s)>\]]+] *)
Definition link_tail (s : string) : option string :=
  match strip_prefix "notion.so/" s with
  | Some r =>
      let run := take_while is_link_char r in
      if nonempty run then Some ("notion.so/" ++ run) else None
  | None => None
  end.

(** An optional literal [lit] before [k]: with it first, without it when
    that fails. *)
Definition optional_then (lit : string) (k : string -> option string)
    (s : string) : option string :=
  match
    match strip_prefix lit s with
    | Some r => option_map (append lit) (k r)
    | None => None
    end
  with
  | Some m => Some m
  | None => k s
  end.

Definition literal_then (lit : string) (k : string -> option string)
    (s : string) : option string :=
  match strip_prefix lit s with
  | Some r => option_map (append lit) (k r)
  | None => None
  end.

Definition link_match_at (s : string) : option string :=
  literal_then "http"
    (optional_then "s"
       (literal_then "://"
          (optional_then "www." link_tail))) s.

Fixpoint link_scan (skip : nat) (s : string) : list string :=
  match s with
  | EmptyString => []
  | String c s' =>
      match skip with
      | S k => link_scan k s'
      | O =>
          match link_match_at s with
          | Some m => m :: link_scan (length m - 1) s'
          | None => link_scan 0 s'
          end
      end
  end.

Definition link_finditer (text : string) : list string := link_scan 0 text.

(** ** [sorted(set(...))] *)

Definition py_set (l : list string) : list string := nodup string_dec l.

Fixpoint insert_sorted (x : string) (l : list string) : list string :=
  match l with
  | [] => [x]
  | y :: l' => if (x <=? y)%string then x :: l else y :: insert_sorted x l'
  end.

Definition py_sorted (l : list string) : list string :=
  fold_right insert_sorted [] l.

(** ** [parse_task_refs] *)

Record TaskRefs : Type := mkTaskRefs {
  task_ids : list string;
  notion_links : list string
}.

Definition or_empty (s : option string) : string :=
  match s with
  | Some s => s
  | None => EmptyString
  end.

(** ["\n".join([a, b, c])] *)
Definition join3 (a b c : string) : string :=
  a ++ String LF (b ++ String LF c).

Definition parse_task_refs_with (pfx title body : string)
    (branch : option string) : TaskRefs :=
  let text := join3 title body (or_empty branch) in
  let ids := py_sorted (py_set (map upper (task_finditer pfx text))) in
  let links := py_sorted (py_set (link_finditer text)) in
  {| task_ids := ids; notion_links := links |}.

Definition parse_task_refs : string -> string -> option string -> TaskRefs :=
  parse_task_refs_with TASK_PREFIX_default.

(** ** [ensure_uuid_hyphens] *)

(** [re.fullmatch(r"[0-9a-fA-F]{n}", s)] *)
Fixpoint fullmatch_hex (n : nat) (s : string) : bool :=
  match n, s with
  | O, EmptyString => true
  | S n', String c s' => is_hex c && fullmatch_hex n' s'
  | _, _ => false
  end.

(** The slice [s[i:j]]. *)
Definition slice (i j : nat) (s : string) : string := substring i (j - i) s.

Definition ensure_uuid_hyphens (id32 : string) : string :=
  let s := remove_char "-" id32 in
  if negb (Nat.eqb (length s) 32) || negb (fullmatch_hex 32 s) then id32
  else slice 0 8 s ++ "-" ++ slice 8 12 s ++ "-" ++ slice 12 16 s ++ "-"
       ++ slice 16 20 s ++ "-" ++ slice 20 32 s.

(** ** [page_id_from_notion_url] *)

(** [[0-9a-fA-F]{n}] at the head of [s]: the run and the rest. *)
Fixpoint take_hex (n : nat) (s : string) : option (string * string) :=
  match n with
  | O => Some (EmptyString, s)
  | S n' =>
      match s with
      | String c s' =>
          if is_hex c then
            match take_hex n' s' with
            | Some (m, r) => Some (String c m, r)
            | None => None
            end
          else None
      | EmptyString => None
      end
  end.

(** [$]: the end of the text, or the place before a line feed that ends it. *)
Definition at_end (s : string) : bool :=
  match s with
  | EmptyString => true
  | String c EmptyString => (c =? LF)%char
  | String _ (String _ _) => false
  end.

(** [(?:\?|#|/|$)] *)
Definition id_terminator (s : string) : bool :=
  match s with
  | String c _ =>
      (c =? "?")%char || (c =? "#")%char || (c =? "/")%char || at_end s
  | EmptyString => true
  end.

Definition page_id_match_at (s : string) : option string :=
  match take_hex 32 s with
  | Some (g, r) => if id_terminator r then Some g else None
  | None => None
  end.

(** [re.search]: the leftmost place where the pattern matches. *)
Fixpoint page_id_search (s : string) : option string :=
  match page_id_match_at s with
  | Some g => Some g
  | None =>
      match s with
      | EmptyString => None
      | String _ s' => page_id_search s'
      end
  end.

Definition page_id_from_notion_url (url : string) : option string :=
  match page_id_search url with
  | None => None
  | Some g => Some (ensure_uuid_hyphens (lower g))
  end.

(** ** [notion_search_page] *)

(** The answer of [POST /v1/search]: its status and, when its body decodes,
    the ["id"] of each entry of ["results"] ([None] where the entry has
    none). *)
Record SearchResponse : Type := mkSearchResponse {
  sr_status : Z;
  sr_results : option (list (option string))
}.

(** [resp.raise_for_status()] raises on a 4xx or 5xx status. *)
Definition raise_for_status (status : Z) : Py unit :=
  if ((400 <=? status) && (status <? 600))%Z then Raise "HTTPError"
  else Ok tt.

Definition public_url_of (page_id : string) : string :=
  "https://www.notion.so/" ++ remove_char "-" page_id.

Definition notion_search_page_of (resp : option SearchResponse)
  : Py (option (string * string)) :=
  match resp with
  | None => Raise "RequestException"
  | Some resp =>
      _ <- raise_for_status (sr_status resp) ;;
      match sr_results resp with
      | None => Raise "JSONDecodeError"
      | Some [] => Ok None
      | Some (page :: _) =>
          match page with
          | None => Raise "AttributeError"
          | Some page_id => Ok (Some (page_id, public_url_of page_id))
          end
      end
  end.

(** ** The de-duplication of [main]: [uniq[pid] = url], then [uniq.items()] *)

(** A [dict] keeps its keys in the order of their first insertion; an
    assignment to a key that is present replaces the value in place. *)
Fixpoint dict_set (d : list (string * string)) (k v : string)
  : list (string * string) :=
  match d with
  | [] => [(k, v)]
  | (k', v') :: d' =>
      if (k' =? k)%string then (k', v) :: d' else (k', v') :: dict_set d' k v
  end.

Fixpoint dict_get (d : list (string * string)) (k : string) : option string :=
  match d with
  | [] => None
  | (k', v') :: d' => if (k' =? k)%string then Some v' else dict_get d' k
  end.

Definition dedup_pages (pages : list (string * string))
  : list (string * string) :=
  fold_left (fun uniq p => dict_set uniq (fst p) (snd p)) pages [].

(** ** The annotator: [notion_get_children], [notion_append_pr_bullet] *)

Record RichText : Type := mkRichText {
  rt_content : option string;   (* t["text"]["content"] *)
  rt_link : option string       (* t["text"]["link"]["url"] *)
}.

Record Block : Type := mkBlock {
  b_type : option string;                       (* b["type"] *)
  b_bulleted_list_item : option (list RichText) (* b["bulleted_list_item"]["rich_text"] *)
}.

Inductive Event : Type :=
| EvPatch (page_id : string) (children : list Block)
| EvWarning (msg : string).

(** The block [notion_append_pr_bullet] sends. *)
Definition pr_bullet (pr_url : string) : Block :=
  {| b_type := Some "bulleted_list_item";
     b_bulleted_list_item :=
       Some [ {| rt_content := Some ("PR: " ++ pr_url);
                 rt_link := Some pr_url |} ] |}.

Definition is_some_string (o : option string) (s : string) : bool :=
  match o with
  | Some x => (x =? s)%string
  | None => false
  end.

(** The scan of the children for a bullet that carries [pr_url]:
    [b["bulleted_list_item"]] raises [KeyError] on a bullet without it. *)
Fixpoint already_linked (pr_url : string) (children : list Block) : Py bool :=
  match children with
  | [] => Ok false
  | b :: rest =>
      if is_some_string (b_type b) "bulleted_list_item" then
        match b_bulleted_list_item b with
        | None => Raise "KeyError"
        | Some texts =>
            if existsb (fun t => contains pr_url (or_empty (rt_content t)))
                 texts
            then Ok true
            else already_linked pr_url rest
        end
      else already_linked pr_url rest
  end.

Section Remote.

(** The state of the Notion workspace and its endpoints.  A request that
    raises (time-out, connection error, a body that does not decode)
    answers [None]. *)
Variable W : Type.
Variable http_get_children : W -> string -> option (Z * list Block).
Variable http_patch_children :
  W -> string -> list Block -> W * option (Z * string).
Variable http_search : W -> string -> option SearchResponse.

Definition notion_search_page (w : W) (query : string)
  : Py (option (string * string)) :=
  notion_search_page_of (http_search w query).

Definition notion_get_children (w : W) (page_id : string)
  : Py (list Block) :=
  match http_get_children w page_id with
  | None => Raise "RequestException"
  | Some (status, results) =>
      if (status =? 200)%Z then Ok results else Ok []
  end.

(** The state after the call, what it wrote and logged, and its
    outcome. *)
Definition notion_append_pr_bullet (w : W) (page_id pr_url : string)
  : W * list Event * Py unit :=
  match notion_get_children w page_id with
  | Raise e => (w, [], Raise e)
  | Ok children =>
      match already_linked pr_url children with
      | Raise e => (w, [], Raise e)
      | Ok true => (w, [], Ok tt)
      | Ok false =>
          let payload := [pr_bullet pr_url] in
          match http_patch_children w page_id payload with
          | (w', None) =>
              (w', [EvPatch page_id payload], Raise "RequestException")
          | (w', Some (status, text)) =>
              if (300 <=? status)%Z then
                (w', [EvPatch page_id payload; EvWarning text], Ok tt)
              else (w', [EvPatch page_id payload], Ok tt)
          end
      end
  end.

(** Two calls for the same record and back-reference, one after the
    other: the final state, and what each call wrote and returned. *)
Definition annotate_twice (w : W) (page_id pr_url : string)
  : W * (list Event * Py unit) * (list Event * Py unit) :=
  let '(w1, ev1, out1) := notion_append_pr_bullet w page_id pr_url in
  let '(w2, ev2, out2) := notion_append_pr_bullet w1 page_id pr_url in
  (w2, (ev1, out1), (ev2, out2)).

(** ** The resolution steps of [main] *)

Definition truthy (s : string) : bool := nonempty s.

(** [for link in notion_links: pid = page_id_from_notion_url(link); ...] *)
Definition pages_of_links (links : list string) : list (string * string) :=
  flat_map
    (fun link =>
       match page_id_from_notion_url link with
       | Some pid => if truthy pid then [(pid, link)] else []
       | None => []
       end)
    links.

(** [for tid in task_ids: found = notion_search_page(...); ...] *)
Fixpoint pages_of_task_ids (w : W) (tids : list string)
  : Py (list (string * string)) :=
  match tids with
  | [] => Ok []
  | tid :: rest =>
      found <- notion_search_page w tid ;;
      more <- pages_of_task_ids w rest ;;
      Ok (match found with
          | Some p => p :: more
          | None => more
          end)
  end.

(** The list [main] hands to the annotation and comment steps. *)
Definition resolve_pages (w : W) (refs : TaskRefs)
  : Py (list (string * string)) :=
  found <- pages_of_task_ids w (task_ids refs) ;;
  Ok (dedup_pages (pages_of_links (notion_links refs) ++ found)%list).

End Remote.

Definition written_blocks (evs : list Event) : list Block :=
  flat_map (fun e => match e with
                     | EvPatch _ children => children
                     | EvWarning _ => []
                     end) evs.

(** A workspace that holds one list of children per page, for running the
    annotator: [GET .../children?page_size=100] answers the first hundred
    children, [PATCH .../children] appends at the end. *)
Module Store.

Definition t : Type := list (string * list Block).

Fixpoint children_of (w : t) (page_id : string) : option (list Block) :=
  match w with
  | [] => None
  | (p, bs) :: w' =>
      if (p =? page_id)%string then Some bs else children_of w' page_id
  end.

Fixpoint append_children (w : t) (page_id : string) (new : list Block)
  : option t :=
  match w with
  | [] => None
  | (p, bs) :: w' =>
      if (p =? page_id)%string then Some ((p, (bs ++ new)%list) :: w')
      else option_map (cons (p, bs)) (append_children w' page_id new)
  end.

Definition get_children (w : t) (page_id : string)
  : option (Z * list Block) :=
  match children_of w page_id with
  | Some bs => Some (200%Z, firstn 100 bs)
  | None => Some (404%Z, [])
  end.

Definition patch_children (w : t) (page_id : string) (new : list Block)
  : t * option (Z * string) :=
  match append_children w page_id new with
  | Some w' => (w', Some (200%Z, "ok"))
  | None => (w, Some (404%Z, "not found"))
  end.

End Store.

End Linker.

(* ================================================================== *)
(** * The extraction of the linker over Unicode text *)
(* ================================================================== *)

(** [TASK_REGEX] and [NOTION_URL_REGEX] are patterns over [str]: [\b], [\d]
    and [\s] follow the Unicode database of the interpreter, and so do
    [re.IGNORECASE] and [str.upper].  Here a text is the list of its code
    points and the database is a parameter. *)
Module Unicode.

Local Open Scope list_scope.

Definition text : Type := list N.

(** The code points of a literal of the script. *)
Fixpoint lit (s : string) : text :=
  match s with
  | EmptyString => []
  | String c s' => Text.code c :: lit s'
  end.

Definition LF : N := 10.
Definition hyphen : N := 45.

(** What the interpreter decides for a character: [\w] (for [\b]), [\d],
    [\s], whether a character of the pattern matches a character of the
    text under [re.IGNORECASE]; and [str.upper]. *)
Record Tables : Type := mkTables {
  is_word : N -> bool;
  is_digit : N -> bool;
  is_space : N -> bool;
  matches_ci : N -> N -> bool;
  upper : text -> text
}.

(** The order of [str]: code point by code point. *)
Fixpoint compare (a b : text) : comparison :=
  match a, b with
  | [], [] => Eq
  | [], _ :: _ => Lt
  | _ :: _, [] => Gt
  | x :: a', y :: b' =>
      match (x ?= y)%N with
      | Eq => compare a' b'
      | c => c
      end
  end.

Definition leb (a b : text) : bool :=
  match compare a b with
  | Gt => false
  | _ => true
  end.

Definition ltb (a b : text) : bool :=
  match compare a b with
  | Lt => true
  | _ => false
  end.

Definition text_dec : forall a b : text, {a = b} + {a <> b} :=
  list_eq_dec N.eq_dec.

(** [sorted(set(...))] *)
Definition py_set (l : list text) : list text := nodup text_dec l.

Fixpoint insert_sorted (x : text) (l : list text) : list text :=
  match l with
  | [] => [x]
  | y :: l' => if leb x y then x :: l else y :: insert_sorted x l'
  end.

Definition py_sorted (l : list text) : list text :=
  fold_right insert_sorted [] l.

(** A literal at the head of [s]: the rest of [s] after it. *)
Fixpoint strip_prefix (p s : text) : option text :=
  match p, s with
  | [], _ => Some s
  | a :: p', b :: s' => if (a =? b)%N then strip_prefix p' s' else None
  | _ :: _, [] => None
  end.

Fixpoint take_while (p : N -> bool) (s : text) : text :=
  match s with
  | [] => []
  | c :: s' => if p c then c :: take_while p s' else []
  end.

Definition nonempty (s : text) : bool :=
  match s with
  | [] => false
  | _ :: _ => true
  end.

Definition literal_then (l : text) (k : text -> option text) (s : text)
  : option text :=
  match strip_prefix l s with
  | Some r => option_map (app l) (k r)
  | None => None
  end.

(** An optional literal before [k]: with it first, without it when that
    fails. *)
Definition optional_then (l : text) (k : text -> option text) (s : text)
  : option text :=
  match literal_then l k s with
  | Some m => Some m
  | None => k s
  end.

Record TaskRefs : Type := mkTaskRefs {
  task_ids : list text;
  notion_links : list text
}.

Definition or_empty (s : option text) : text :=
  match s with
  | Some s => s
  | None => []
  end.

(** ["\n".join([a, b, c])] *)
Definition join3 (a b c : text) : text := a ++ LF :: b ++ LF :: c.

Section Patterns.

Variable U : Tables.

Definition is_word_opt (c : option N) : bool :=
  match c with
  | Some c => is_word U c
  | None => false
  end.

(** [\b] between the character [prev] (none at the start of the text) and
    the text [s] that follows. *)
Definition at_boundary (prev : option N) (s : text) : bool :=
  xorb (is_word_opt prev) (is_word_opt (hd_error s)).

(** [\d+\b]: the digits are taken greedily, and a shorter run is tried when
    the boundary fails after the longer one. *)
Fixpoint digits_then_boundary (s : text) : option text :=
  match s with
  | [] => None
  | c :: s' =>
      if is_digit U c then
        match digits_then_boundary s' with
        | Some m => Some (c :: m)
        | None => if at_boundary (Some c) s' then Some [c] else None
        end
      else None
  end.

(** The escaped prefix at the head of [s] under [re.IGNORECASE]: the text
    that was matched, and the rest. *)
Fixpoint strip_prefix_ci (p s : text) : option (text * text) :=
  match p, s with
  | [], _ => Some ([], s)
  | a :: p', b :: s' =>
      if matches_ci U a b then
        match strip_prefix_ci p' s' with
        | Some (m, r) => Some (b :: m, r)
        | None => None
        end
      else None
  | _ :: _, [] => None
  end.

(** [<pfx>-\d+\b] at the head of [s]. *)
Definition short_code_at (pfx s : text) : option text :=
  match strip_prefix_ci pfx s with
  | Some (m, c :: r') =>
      if (c =? hyphen)%N then
        match digits_then_boundary r' with
        | Some ds => Some (m ++ hyphen :: ds)
        | None => None
        end
      else None
  | _ => None
  end.

(** [TASK_REGEX = \b<pfx>-\d+\b] at the head of [s]. *)
Definition task_match_at (pfx : text) (prev : option N) (s : text)
  : option text :=
  if at_boundary prev s then short_code_at pfx s else None.

(** [TASK_REGEX.finditer(text)]: the matches from left to right, none
    overlapping another; [skip] counts the characters of the last match
    that are still to be passed. *)
Fixpoint task_scan (pfx : text) (prev : option N) (skip : nat) (s : text)
  : list text :=
  match s with
  | [] => []
  | c :: s' =>
      match skip with
      | S k => task_scan pfx (Some c) k s'
      | O =>
          match task_match_at pfx prev s with
          | Some m => m :: task_scan pfx (Some c) (List.length m - 1) s'
          | None => task_scan pfx (Some c) 0 s'
          end
      end
  end.

Definition task_finditer (pfx s : text) : list text := task_scan pfx None 0 s.

(** [[^\s)>\]]] *)
Definition is_link_char (c : N) : bool :=
  negb (is_space U c || (c =? 41) || (c =? 62) || (c =? 93))%N.

(** [notion\.so/[^\s)>\]]+] *)
Definition link_tail (s : text) : option text :=
  match strip_prefix (lit "notion.so/") s with
  | Some r =>
      let run := take_while is_link_char r in
      if nonempty run then Some (lit "notion.so/" ++ run) else None
  | None => None
  end.

(** [NOTION_URL_REGEX = https?://(www\.)?notion\.so/[^\s)>\]]+] at the head
    of [s]. *)
Definition link_match_at (s : text) : option text :=
  literal_then (lit "http")
    (optional_then (lit "s")
       (literal_then (lit "://")
          (optional_then (lit "www.") link_tail))) s.

Fixpoint link_scan (skip : nat) (s : text) : list text :=
  match s with
  | [] => []
  | c :: s' =>
      match skip with
      | S k => link_scan k s'
      | O =>
          match link_match_at s with
          | Some m => m :: link_scan (List.length m - 1) s'
          | None => link_scan 0 s'
          end
      end
  end.

Definition link_finditer (s : text) : list text := link_scan 0 s.

(** [parse_task_refs], for the prefix [TASK_PREFIX] holds. *)
Definition parse_task_refs (pfx title body : text) (branch : option text)
  : TaskRefs :=
  let joined := join3 title body (or_empty branch) in
  let ids := py_sorted (py_set (map (upper U) (task_finditer pfx joined))) in
  let links := py_sorted (py_set (link_finditer joined)) in
  {| task_ids := ids; notion_links := links |}.

End Patterns.

(** ** The notions the properties of the extraction are stated with *)

(** The line feed is white space, no word character and no digit, and no
    other character of a pattern matches it. *)
Definition separates_lines (U : Tables) : Prop :=
  is_word U LF = false /\ is_digit U LF = false /\ is_space U LF = true /\
  forall a, matches_ci U a LF = true -> a = LF.

(** A list of texts in strictly increasing order. *)
Definition increasing (l : list text) : Prop :=
  Sorted.StronglySorted (fun a b => ltb a b = true) l.

(** A short code for the prefix [pfx]: a character for each character of
    the prefix, matching it without case, then a hyphen, then one digit or
    more. *)
Definition short_code (U : Tables) (pfx code : text) : Prop :=
  exists letters digits,
    code = (letters ++ hyphen :: digits)%list /\
    Forall2 (fun p c => matches_ci U p c = true) pfx letters /\
    digits <> [] /\ Forall (fun d => is_digit U d = true) digits.

(** A link to the workspace: [http] or [https], the host [notion.so] with
    or without [www.], and a path of one character or more, none of them
    white space or one of [)], [>] and []]. *)
Definition notion_link (U : Tables) (link : text) : Prop :=
  exists scheme host path,
    link = (scheme ++ lit "://" ++ host ++ lit "notion.so/" ++ path)%list /\
    (scheme = lit "http" \/ scheme = lit "https") /\
    (host = [] \/ host = lit "www.") /\
    path <> [] /\
    Forall (fun c => is_space U c = false /\
                     c <> 41%N /\ c <> 62%N /\ c <> 93%N) path.

(** A matcher is [local] when a line feed and what follows it change
    nothing, and [bounded] when it matches no more than the text holds. *)
Definition matcher_local (k : text -> option text) : Prop :=
  forall A B, k (A ++ LF :: B) = k A.

Definition matcher_bounded (k : text -> option text) : Prop :=
  forall s m, k s = Some m -> List.length m <= List.length s.

(** ** The tables below 128 *)

(** The classes and the letters of ASCII, for running the extraction on
    ASCII text. *)
Definition ascii_lower (c : N) : N :=
  if ((65 <=? c) && (c <=? 90))%N then (c + 32)%N else c.

Definition ascii_upper (c : N) : N :=
  if ((97 <=? c) && (c <=? 122))%N then (c - 32)%N else c.

Definition ascii_tables : Tables :=
  {| is_word := fun c =>
       ((48 <=? c) && (c <=? 57) || (65 <=? c) && (c <=? 90) ||
        (97 <=? c) && (c <=? 122) || (c =? 95))%N;
     is_digit := fun c => ((48 <=? c) && (c <=? 57))%N;
     is_space := fun c =>
       ((9 <=? c) && (c <=? 13) || (28 <=? c) && (c <=? 32))%N;
     matches_ci := fun a b => (ascii_lower a =? ascii_lower b)%N;
     upper := map ascii_upper |}.

End Unicode.

(* ================================================================== *)
(** * The webhook relay: digests, requests and the two handlers *)
(* ================================================================== *)

Module Digest.
Import Text.

Definition hex_digit (n : N) : ascii :=
  match get (N.to_nat n) "0123456789abcdef" with
  | Some c => c
  | None => "0"%char
  end.

(** [bytesToHex]: [b.toString(16).padStart(2, '0')] of each byte, joined. *)
Fixpoint bytesToHex (bytes : list Byte.byte) : string :=
  match bytes with
  | [] => EmptyString
  | b :: rest =>
      let n := Byte.to_N b in
      String (hex_digit (n / 16)) (String (hex_digit (n mod 16))
        (bytesToHex rest))
  end.

Definition b64_digit (n : N) : ascii :=
  match get (N.to_nat n)
          "ABCDEFGHIJKLMNOPQRSTUVWXYZabcdefghijklmnopqrstuvwxyz0123456789+/"
  with
  | Some c => c
  | None => "="%char
  end.

(** [bytesToB64] and [btoa(String.fromCharCode(...bytes))]: three bytes
    give four digits, a last group of one or two bytes is padded with
    [=]. *)
Fixpoint bytesToB64 (bytes : list Byte.byte) : string :=
  match bytes with
  | [] => EmptyString
  | [a] =>
      let x := Byte.to_N a in
      String (b64_digit (x / 4)) (String (b64_digit (x mod 4 * 16)) "==")
  | [a; b] =>
      let x := Byte.to_N a in
      let y := Byte.to_N b in
      String (b64_digit (x / 4))
        (String (b64_digit (x mod 4 * 16 + y / 16))
           (String (b64_digit (y mod 16 * 4)) "="))
  | a :: b :: c :: rest =>
      let x := Byte.to_N a in
      let y := Byte.to_N b in
      let z := Byte.to_N c in
      String (b64_digit (x / 4))
        (String (b64_digit (x mod 4 * 16 + y / 16))
           (String (b64_digit (y mod 16 * 4 + z / 64))
              (String (b64_digit (z mod 64)) (bytesToB64 rest))))
  end.

(** The loop of [timingSafeEq]: [r |= a.charCodeAt(i) ^ b.charCodeAt(i)]. *)
Fixpoint xor_acc (a b : string) (r : N) : N :=
  match a, b with
  | String x a', String y b' => xor_acc a' b' (N.lor r (N.lxor (code x) (code y)))
  | _, _ => r
  end.

(** [timingSafeEq] and [timingSafeEqualB64]. *)
Definition timingSafeEq (a b : string) : bool :=
  if negb (Nat.eqb (length a) (length b)) then false
  else (xor_acc a b 0 =? 0)%N.

(** [s.split(sep)] for a separator of one character. *)
Fixpoint split (sep : ascii) (s : string) : list string :=
  match s with
  | EmptyString => [EmptyString]
  | String c s' =>
      if (c =? sep)%char then EmptyString :: split sep s'
      else match split sep s' with
           | piece :: rest => String c piece :: rest
           | [] => [String c EmptyString]
           end
  end.

(** [header.includes('=') ? header.split('=')[1] : header]; the index 1
    exists whenever the header holds an [=]. *)
Definition provided_of (header : string) : string :=
  if contains "=" header then nth 1 (split "=" header) EmptyString
  else header.

Inductive Algorithm : Type := SHA1 | SHA256.
Inductive Encoding : Type := B64 | HEX.

Record Encoded : Type := mkEncoded { b64 : string; hex : string }.
Record Hmacs : Type := mkHmacs { sha1 : Encoded; sha256 : Encoded }.

(** The chain [timingSafeEq(provided, exp.sha1.b64) || ... ] of the extended
    worker, in the order it is written. *)
Definition candidates (exp : Hmacs) : list (Algorithm * Encoding * string) :=
  [ (SHA1, B64, b64 (sha1 exp));
    (SHA1, HEX, hex (sha1 exp));
    (SHA256, B64, b64 (sha256 exp));
    (SHA256, HEX, hex (sha256 exp)) ].

(** The comparisons a chain of [||] makes: it stops at the first that
    holds. *)
Fixpoint attempts (provided : string)
    (cs : list (Algorithm * Encoding * string))
  : list (Algorithm * Encoding) :=
  match cs with
  | [] => []
  | (alg, enc, expected) :: rest =>
      (alg, enc) ::
      (if timingSafeEq provided expected then [] else attempts provided rest)
  end.

Fixpoint any_match (provided : string)
    (cs : list (Algorithm * Encoding * string)) : bool :=
  match cs with
  | [] => false
  | (_, _, expected) :: rest =>
      timingSafeEq provided expected || any_match provided rest
  end.

End Digest.

Module Http.
Import Text.

Record Request : Type := mkRequest {
  method : string;
  pathname : string;                   (* new URL(request.url).pathname *)
  headers : list (string * string);
  body : string
}.

(** [Headers.get]: names compare without case, the values of a repeated
    header are joined with a comma and a space, an absent header is
    [null]. *)
Definition headers_get (h : list (string * string)) (name : string)
  : option string :=
  match filter (fun kv => (lower (fst kv) =? lower name)%string) h with
  | [] => None
  | vs => Some (concat ", " (map snd vs))
  end.

(** A value read from the parsed body, which is typed [any]: a string,
    or a value of another kind ([undefined], [null], a number, a boolean,
    an array, an object).  The handlers test such a value for truth,
    convert it to text and, the profile, call [toLowerCase] on it: of a
    value that is no string the model keeps whether it is truthy and the
    text [String(v)] gives. *)
Inductive Field : Type :=
| FStr (s : string)
| FOther (truthy : bool) (text : string).

Definition undefined : Field := FOther false "undefined".

(** [if (v)], [!v] *)
Definition field_truthy (v : Field) : bool :=
  match v with
  | FStr s => nonempty s
  | FOther t _ => t
  end.

(** The conversion to text of a template literal. *)
Definition field_text (v : Field) : string :=
  match v with
  | FStr s => s
  | FOther _ t => t
  end.

(** [a || b] *)
Definition field_or (a b : Field) : Field :=
  if field_truthy a then a else b.

(** [v.toLowerCase()]: a [TypeError] ([None]) on a value that is no
    string, which has no such method. *)
Definition toLowerCase (v : Field) : option string :=
  match v with
  | FStr s => Some (lower s)
  | FOther _ _ => None
  end.

(** What the handlers read of the parsed body: the value of each access
    path, [undefined] where the path leads nowhere. *)
Record Payload : Type := mkPayload {
  p_status : Field;                     (* body?.status *)
  p_event : Field;
  p_buildDetailsPageUrl : Field;
  p_build_detailsPageUrl : Field;       (* body?.build?.detailsPageUrl *)
  p_gitRef : Field;
  p_metadata_gitRef : Field;
  p_metadata_appVersion : Field;
  p_metadata_commitMessage : Field;
  p_metadata_gitCommitMessage : Field;
  p_metadata_buildProfile : Field;
  p_metadata_appBuildProfile : Field;
  p_metadata_profile : Field
}.

(** The empty object [{}]. *)
Definition empty_payload : Payload :=
  mkPayload undefined undefined undefined undefined undefined undefined
    undefined undefined undefined undefined undefined undefined.

(** [a || b] where [a] is a string or absent (a setting, a header). *)
Definition js_or (a : option string) (b : string) : string :=
  match a with
  | Some s => if nonempty s then s else b
  | None => b
  end.

Definition js_truthy (a : option string) : bool :=
  match a with
  | Some s => nonempty s
  | None => false
  end.

Record Env : Type := mkEnv {
  SLACK_WEBHOOK_URL : option string;
  NOTION_TOKEN : option string;
  EXPO_WEBHOOK_SECRET : option string;
  DISPATCH_TO_GITHUB : option string;
  GH_OWNER : option string;
  GH_REPO : option string;
  GH_REPO_DISPATCH_TOKEN : option string
}.

Inductive JsValue : Type :=
| VStr (s : string)
| VBool (b : bool).

Record Response : Type := mkResponse {
  status : Z;
  content : option (list (string * JsValue));  (* [None]: a null body *)
  content_type : option string
}.

(** [new Response(body, { status })] with a body throws unless the status
    lies between 200 and 599 and is none of the null-body statuses 204, 205
    and 304. *)
Definition constructible (st : Z) : bool :=
  ((200 <=? st) && (st <=? 599) &&
   negb ((st =? 204) || (st =? 205) || (st =? 304)))%Z.

(** What a remote endpoint answers to [fetch]. *)
Record Reply : Type := mkReply {
  reply_status : Z;
  reply_text : string
}.

(** [Response.ok] *)
Definition ok (r : Reply) : bool :=
  ((200 <=? reply_status r) && (reply_status r <=? 299))%Z.

(** What the Notion search answers: its status and
    [(await r.json())?.results?.[0]?.id], [None] when the body does not
    decode. *)
Record NotionReply : Type := mkNotionReply {
  notion_status : Z;
  notion_first_id : option (option string)
}.

Definition notion_ok (r : NotionReply) : bool :=
  ((200 <=? notion_status r) && (notion_status r <=? 299))%Z.

Record ClientPayload : Type := mkClientPayload {
  cp_status : Field;
  cp_buildUrl : Field;
  cp_branch : Field;
  cp_commitMessage : Field;
  cp_taskId : string;
  cp_notionUrl : string;
  cp_profile : option string
}.

(** The calls a handler makes that are visible outside it. *)
Inductive Event : Type :=
| EvParseJson (raw : string)
| EvNotionSearch (token query : string)
| EvGithubDispatch (owner repo token event_type : string)
    (client_payload : ClientPayload)
| EvSlackPost (hook text : string).


(** The platform under a handler: the HMAC of Web Crypto, [JSON.parse]
    ([None] when it throws) and the three remote endpoints ([None] when
    [fetch] rejects). *)
Record Platform : Type := mkPlatform {
  hmac_sha1 : string -> string -> list Byte.byte;
  hmac_sha256 : string -> string -> list Byte.byte;
  JSON_parse : string -> option Payload;
  notion_search : string -> string -> option NotionReply;
  github_dispatch :
    string -> string -> string -> ClientPayload -> option Reply;
  slack_post : string -> string -> option Reply
}.

(** A handler answers, or lets an exception escape. *)
Inductive Outcome : Type :=
| Responded (r : Response)
| Threw.

(** [\b(?:SPR|TASK)-\d+\b] with the flag [i], at the head of [s]. *)
Definition TASK_REGEX_at (prev : option ascii) (s : string) : option string :=
  if at_boundary prev s then
    match short_code_at "SPR" s with
    | Some m => Some m
    | None => short_code_at "TASK" s
    end
  else None.

(** [text.match(TASK_REGEX)]: the leftmost match. *)
Fixpoint TASK_REGEX_search (prev : option ascii) (s : string)
  : option string :=
  match TASK_REGEX_at prev s with
  | Some m => Some m
  | None =>
      match s with
      | EmptyString => None
      | String c s' => TASK_REGEX_search (Some c) s'
      end
  end.

Definition taskId_of (joined : string) : string :=
  match TASK_REGEX_search None joined with
  | Some m => upper m
  | None => EmptyString
  end.

Definition notion_url_of (pageId : string) : string :=
  "https://www.notion.so/" ++ remove_char "-" pageId.

End Http.

(** ** The plain worker, [src/worker.ts] *)

Module Worker.
Import Text Digest Http.

Section Handler.

Variable P : Platform.

Definition json (obj : list (string * JsValue)) (st : Z) : Outcome :=
  if constructible st then
    Responded {| status := st;
                 content := Some obj;
                 content_type := Some "application/json" |}
  else Threw.

Definition timingSafeEqualB64 (a b : string) : bool := timingSafeEq a b.

Definition verifyHmacSha1Base64 (bodyText secret header : string) : bool :=
  let provided := provided_of header in
  let sig := hmac_sha1 P secret bodyText in
  let expected := bytesToB64 sig in
  timingSafeEqualB64 provided expected.

(** [safeJson]: the parsed body, or [{}] when parsing throws. *)
Definition safeJson (request : Request) : Payload :=
  match JSON_parse P (body request) with
  | Some p => p
  | None => empty_payload
  end.

(** Step 4: the Notion lookup, inside its [try]. *)
Definition resolve_notion (taskId : string) (env : Env)
  : list Event * string :=
  if nonempty taskId && js_truthy (NOTION_TOKEN env) then
    let token := js_or (NOTION_TOKEN env) EmptyString in
    ([EvNotionSearch token taskId],
     match notion_search P token taskId with
     | Some r =>
         if notion_ok r then
           match notion_first_id r with
           | Some (Some pageId) =>
               if nonempty pageId then notion_url_of pageId
               else EmptyString
           | _ => EmptyString
           end
         else EmptyString
     | None => EmptyString
     end)
  else ([], EmptyString).

Definition slack_text (st gitRef buildUrl : Field)
    (taskId notionUrl : string) (commitMessage : Field) : string :=
  let text := "🚀 *Preview build* " ++ field_text st in
  let text :=
    if field_truthy gitRef then text ++ " on `" ++ field_text gitRef ++ "`"
    else text in
  let text :=
    if field_truthy buildUrl then
      text ++ String LF ("📱 " ++ field_text buildUrl)
    else text in
  let text :=
    if nonempty taskId then
      text ++ String LF ("🔗 Task: " ++ taskId ++
        (if nonempty notionUrl then " • " ++ notionUrl else EmptyString))
    else text in
  if field_truthy commitMessage then
    text ++ String LF ("📝 " ++ field_text commitMessage)
  else text.

(** Step 5: the GitHub [repository_dispatch] or the Slack message. *)
Definition dispatch (env : Env) (st buildUrl gitRef commitMessage : Field)
    (taskId notionUrl : string) : list Event * Outcome :=
  let useDispatch :=
    (lower (js_or (DISPATCH_TO_GITHUB env) EmptyString) =? "true")%string in
  if useDispatch then
    let owner := js_or (GH_OWNER env) "SuperAppLabsCo" in
    let repo := js_or (GH_REPO env) "axon-ui" in
    if negb (js_truthy (GH_REPO_DISPATCH_TOKEN env)) then
      ([], (json [("error", VStr "GH_REPO_DISPATCH_TOKEN missing")] 500))
    else
      let token := js_or (GH_REPO_DISPATCH_TOKEN env) EmptyString in
      let payload :=
        {| cp_status := st; cp_buildUrl := buildUrl; cp_branch := gitRef;
           cp_commitMessage := commitMessage; cp_taskId := taskId;
           cp_notionUrl := notionUrl; cp_profile := None |} in
      ([EvGithubDispatch owner repo token "expo-build" payload],
       match github_dispatch P owner repo token payload with
       | None => Threw
       | Some gh =>
           if negb (ok gh) then
             (json [("error", VStr "GitHub dispatch failed");
                      ("detail", VStr (reply_text gh))] (reply_status gh))
           else
             (json [("ok", VBool true); ("mode", VStr "github")]
                          200)
       end)
  else
    if negb (js_truthy (SLACK_WEBHOOK_URL env)) then
      ([], (json [("error", VStr "SLACK_WEBHOOK_URL missing")] 500))
    else
      let hook := js_or (SLACK_WEBHOOK_URL env) EmptyString in
      let text :=
        slack_text st gitRef buildUrl taskId notionUrl commitMessage in
      ([EvSlackPost hook text],
       match slack_post P hook text with
       | None => Threw
       | Some slack =>
           if negb (ok slack) then
             (json [("error", VStr "Slack error");
                      ("detail", VStr (reply_text slack))] 500)
           else
             (json [("ok", VBool true); ("mode", VStr "slack")]
                          200)
       end).

(** Steps 2 to 5, once the request is authenticated. *)
Definition relay (request : Request) (env : Env) : list Event * Outcome :=
  let body := safeJson request in
  let st :=
    field_or (p_status body) (field_or (p_event body) (FStr "unknown")) in
  let buildUrl :=
    field_or (p_buildDetailsPageUrl body)
      (field_or (p_build_detailsPageUrl body) (FStr EmptyString)) in
  let gitRef :=
    field_or (p_gitRef body)
      (field_or (p_metadata_gitRef body)
         (field_or (p_metadata_appVersion body) (FStr EmptyString))) in
  let commitMessage :=
    field_or (p_metadata_commitMessage body) (FStr EmptyString) in
  let taskId :=
    taskId_of (field_text gitRef ++ " " ++ field_text commitMessage) in
  let '(ev_notion, notionUrl) := resolve_notion taskId env in
  let '(ev_dispatch, out) :=
    dispatch env st buildUrl gitRef commitMessage taskId notionUrl in
  ((EvParseJson (Http.body request) :: ev_notion) ++ ev_dispatch, out)%list.

(** The handler: what it did outside itself, and its outcome. *)
Definition fetch (request : Request) (env : Env) : list Event * Outcome :=
  if negb (method request =? "POST")%string then
    ([], (json [("error", VStr "Method Not Allowed")] 405))
  else
    let rejected :=
      match EXPO_WEBHOOK_SECRET env with
      | Some secret =>
          if nonempty secret then
            let bodyText := body request in
            let sigHeader :=
              js_or (headers_get (headers request) "expo-signature")
                EmptyString in
            negb (verifyHmacSha1Base64 bodyText secret sigHeader)
          else false
      | None => false
      end in
    if rejected then
      ([], (json [("error", VStr "Invalid signature")] 401))
    else relay request env.

End Handler.

End Worker.

(** ** The extended worker: routes, four digests, the profile filter *)

Module WorkerExt.
Import Text Digest Http.

Definition HANDLED_PATHS : list string := ["/"; "/api/expo-webhook"].

Section Handler.

Variable P : Platform.

Definition json (obj : list (string * JsValue)) (st : Z) : Outcome :=
  if constructible st then
    Responded {| status := st;
                 content := Some obj;
                 content_type := Some "application/json" |}
  else Threw.

Definition computeHmacs (body secret : string) : Hmacs :=
  let sig1 := hmac_sha1 P secret body in
  let sig256 := hmac_sha256 P secret body in
  {| sha1 := {| b64 := bytesToB64 sig1; hex := bytesToHex sig1 |};
     sha256 := {| b64 := bytesToB64 sig256; hex := bytesToHex sig256 |} |}.

Definition safeParseJson (raw : string) : Payload :=
  match JSON_parse P raw with
  | Some p => p
  | None => empty_payload
  end.

(** The header the signature is read from. *)
Definition sigHeader_of (request : Request) : string :=
  js_or (headers_get (headers request) "expo-signature")
    (js_or (headers_get (headers request) "Expo-Signature") EmptyString).

(** Step 1: [true] when the signature is accepted. *)
Definition signature_ok (rawBody secret sigHeader : string) : bool :=
  let provided := provided_of sigHeader in
  let exp := computeHmacs rawBody secret in
  timingSafeEq provided (b64 (sha1 exp)) ||
  timingSafeEq provided (hex (sha1 exp)) ||
  timingSafeEq provided (b64 (sha256 exp)) ||
  timingSafeEq provided (hex (sha256 exp)).

(** Step 5: the Notion lookup; the status of the answer is not looked
    at, a body that does not decode counts as [{}]. *)
Definition resolve_notion (taskId : string) (env : Env)
  : list Event * string :=
  if nonempty taskId && js_truthy (NOTION_TOKEN env) then
    let token := js_or (NOTION_TOKEN env) EmptyString in
    ([EvNotionSearch token taskId],
     match notion_search P token taskId with
     | Some r =>
         match notion_first_id r with
         | Some (Some pageId) =>
             if nonempty pageId then notion_url_of pageId else EmptyString
         | _ => EmptyString
         end
     | None => EmptyString
     end)
  else ([], EmptyString).

Definition slack_text (st gitRef buildUrl : Field)
    (taskId notionUrl : string) (commitMessage : Field) (profile : string)
  : string :=
  let text := "🚀 Preview build " ++ field_text st in
  let text :=
    if field_truthy gitRef then text ++ " on `" ++ field_text gitRef ++ "`"
    else text in
  let text :=
    if field_truthy buildUrl then
      text ++ String LF ("📱 " ++ field_text buildUrl)
    else text in
  let text :=
    if nonempty taskId then
      text ++ String LF ("🔗 Task: " ++ taskId ++
        (if nonempty notionUrl then " • " ++ notionUrl else EmptyString))
    else text in
  let text :=
    if field_truthy commitMessage then
      text ++ String LF ("📝 " ++ field_text commitMessage)
    else text in
  text ++ String LF ("🧪 Profile: " ++ profile).

(** Step 6. *)
Definition dispatch (env : Env) (st buildUrl gitRef commitMessage : Field)
    (taskId notionUrl profile : string) : list Event * Outcome :=
  let useDispatch :=
    (lower (js_or (DISPATCH_TO_GITHUB env) EmptyString) =? "true")%string in
  if useDispatch then
    let owner := js_or (GH_OWNER env) "SuperAppLabsCo" in
    let repo := js_or (GH_REPO env) "axon-ui" in
    if negb (js_truthy (GH_REPO_DISPATCH_TOKEN env)) then
      ([], (json [("error", VStr "GH_REPO_DISPATCH_TOKEN missing")] 500))
    else
      let token := js_or (GH_REPO_DISPATCH_TOKEN env) EmptyString in
      let payload :=
        {| cp_status := st; cp_buildUrl := buildUrl; cp_branch := gitRef;
           cp_commitMessage := commitMessage; cp_taskId := taskId;
           cp_notionUrl := notionUrl; cp_profile := Some profile |} in
      ([EvGithubDispatch owner repo token "expo-build" payload],
       match github_dispatch P owner repo token payload with
       | None => Threw
       | Some gh =>
           if negb (ok gh) then
             (json [("error", VStr "GitHub dispatch failed");
                      ("detail", VStr (reply_text gh))] (reply_status gh))
           else
             (json [("ok", VBool true); ("mode", VStr "github")]
                          200)
       end)
  else
    if negb (js_truthy (SLACK_WEBHOOK_URL env)) then
      ([], (json [("error", VStr "SLACK_WEBHOOK_URL missing")] 500))
    else
      let hook := js_or (SLACK_WEBHOOK_URL env) EmptyString in
      let text :=
        slack_text st gitRef buildUrl taskId notionUrl commitMessage
          profile in
      ([EvSlackPost hook text],
       match slack_post P hook text with
       | None => Threw
       | Some slack =>
           if negb (ok slack) then
             (json [("error", VStr "Slack error");
                      ("detail", VStr (reply_text slack))] 500)
           else
             (json [("ok", VBool true); ("mode", VStr "slack")]
                          200)
       end).

(** [body?.metadata?.buildProfile || ... || 'unknown'] *)
Definition profile_of (body : Payload) : Field :=
  field_or (p_metadata_buildProfile body)
    (field_or (p_metadata_appBuildProfile body)
       (field_or (p_metadata_profile body) (FStr "unknown"))).

(** Steps 2 to 6, once the request is authenticated. *)
Definition relay (rawBody : string) (env : Env) : list Event * Outcome :=
  let body := safeParseJson rawBody in
  let st :=
    field_or (p_status body) (field_or (p_event body) (FStr "unknown")) in
  let buildUrl :=
    field_or (p_buildDetailsPageUrl body)
      (field_or (p_build_detailsPageUrl body) (FStr EmptyString)) in
  let gitRef :=
    field_or (p_gitRef body)
      (field_or (p_metadata_gitRef body)
         (field_or (p_metadata_appVersion body) (FStr EmptyString))) in
  let commitMessage :=
    field_or (p_metadata_commitMessage body)
      (field_or (p_metadata_gitCommitMessage body) (FStr EmptyString)) in
  let profile := profile_of body in
  match toLowerCase profile with
  | None => ([EvParseJson rawBody], Threw)
  | Some lowered =>
      if negb (lowered =? "preview")%string then
        ([EvParseJson rawBody],
         Responded {| status := 204; content := None;
                      content_type := None |})
      else
        let joined := field_text gitRef ++ " " ++ field_text commitMessage in
        let taskId := taskId_of joined in
        let '(ev_notion, notionUrl) := resolve_notion taskId env in
        let '(ev_dispatch, out) :=
          dispatch env st buildUrl gitRef commitMessage taskId notionUrl
            (field_text profile) in
        ((EvParseJson rawBody :: ev_notion) ++ ev_dispatch, out)%list
  end.

(** The handler: what it did outside itself, and its outcome.  Its
    [log] calls write to the console only and are left out. *)
Definition fetch (request : Request) (env : Env) : list Event * Outcome :=
  if negb (existsb (String.eqb (pathname request)) HANDLED_PATHS) then
    ([], (json [("error", VStr "Not Found");
                          ("path", VStr (pathname request))] 404))
  else if (method request =? "GET")%string then
    ([], (json [("ok", VBool true);
                          ("route", VStr (pathname request))] 200))
  else if negb (method request =? "POST")%string then
    ([], (json [("error", VStr "Method Not Allowed")] 405))
  else
    let rawBody := body request in
    let rejected :=
      match EXPO_WEBHOOK_SECRET env with
      | Some secret =>
          if nonempty secret then
            negb (signature_ok rawBody secret (sigHeader_of request))
          else false
      | None => false
      end in
    if rejected then
      ([], (json [("error", VStr "Invalid signature")] 401))
    else relay rawBody env.

End Handler.

End WorkerExt.

(* ================================================================== *)
(** * The notions the properties are stated with *)
(* ================================================================== *)

Module Spec.
Import Text.

(** Consecutive groups of the given sizes. *)
Fixpoint groups (sizes : list nat) (s : string) : list string :=
  match sizes with
  | [] => []
  | n :: rest => substring 0 n s :: groups rest (substring n (length s - n) s)
  end.

(** The 8-4-4-4-12 hyphenation of a 32-character id. *)
Definition hyphenated (s : string) : string :=
  concat "-" (groups [8; 4; 4; 4; 12] s).

(** Exactly 32 hexadecimal characters. *)
Definition hex32 (s : string) : Prop :=
  length s = 32 /\ forall_chars is_hex s = true.

(** The canonical form of a record id: its characters without the
    hyphens, in lower case. *)
Definition canonical (id : string) : string := lower (remove_char "-" id).

(** An id in the canonical notation: 32 hexadecimal digits in lower case,
    hyphenated 8-4-4-4-12. *)
Definition canonical_id (id : string) : Prop :=
  exists g, hex32 g /\ lower g = g /\ id = hyphenated g.

(** Everything after the first [=] of a header. *)
Fixpoint after_first_eq (header : string) : string :=
  match header with
  | EmptyString => EmptyString
  | String c s' => if (c =? "=")%char then s' else after_first_eq s'
  end.

(** A well-formed list of children: every bullet carries its item. *)
Definition well_formed (children : list Linker.Block) : Prop :=
  Forall (fun b => Linker.is_some_string (Linker.b_type b) "bulleted_list_item"
                     = true ->
                   Linker.b_bulleted_list_item b <> None) children.

(** The value the last pair with key [k] gives it. *)
Fixpoint last_value (l : list (string * string)) (k : string) : option string :=
  match l with
  | [] => None
  | (k', v) :: l' =>
      match last_value l' k with
      | Some v' => Some v'
      | None => if (k' =? k)%string then Some v else None
      end
  end.

(** The text before the first [=]. *)
Fixpoint up_to_eq (s : string) : string :=
  match s with
  | EmptyString => EmptyString
  | String c s' => if (c =? "=")%char then EmptyString else String c (up_to_eq s')
  end.

(** The sizes of the digests: 20 bytes for SHA-1, 32 bytes for SHA-256. *)
Definition digest_sizes (P : Http.Platform) : Prop :=
  forall key msg,
    List.length (Http.hmac_sha1 P key msg) = 20 /\
    List.length (Http.hmac_sha256 P key msg) = 32.

(** Strongest first: the first comparison is against a SHA-256 digest. *)
Definition strongest_first
    (order : list (Digest.Algorithm * Digest.Encoding)) : Prop :=
  exists enc rest, order = (Digest.SHA256, enc) :: rest.

(** What a handler answers when the call to its destination did not
    succeed. *)
Definition failure_surfaced (P : Http.Platform) (events : list Http.Event)
    (out : Http.Outcome) : Prop :=
  (forall hook text reply,
      In (Http.EvSlackPost hook text) events ->
      Http.slack_post P hook text = Some reply -> Http.ok reply = false ->
      out = Http.Responded
              {| Http.status := 500;
                 Http.content :=
                   Some [("error", Http.VStr "Slack error");
                         ("detail", Http.VStr (Http.reply_text reply))];
                 Http.content_type := Some "application/json" |}) /\
  (forall owner repo token event_type payload reply,
      In (Http.EvGithubDispatch owner repo token event_type payload) events ->
      Http.github_dispatch P owner repo token payload = Some reply ->
      Http.ok reply = false ->
      out = (if Http.constructible (Http.reply_status reply) then
               Http.Responded
                 {| Http.status := Http.reply_status reply;
                    Http.content :=
                      Some [("error", Http.VStr "GitHub dispatch failed");
                            ("detail", Http.VStr (Http.reply_text reply))];
                    Http.content_type := Some "application/json" |}
             else Http.Threw) /\
      (Http.reply_status reply < 200 \/ 299 < Http.reply_status reply)%Z).

(** The calls of the dispatch step. *)
Definition is_dispatch (e : Http.Event) : bool :=
  match e with
  | Http.EvSlackPost _ _ => true
  | Http.EvGithubDispatch _ _ _ _ _ => true
  | _ => false
  end.






(** A text of ASCII characters, on which the classes and the letters of
    module [Text] are those of the interpreter. *)
Definition ascii_text (s : string) : Prop :=
  forall_chars (fun c => (code c <? 128)%N) s = true.

End Spec.

(* ================================================================== *)
(** * Inputs for running the programs *)
(* ================================================================== *)

Module Examples.

(** A workspace whose search answers every query with the one page [id]. *)
Definition search_finds (id : string) (_ : unit) (_ : string)
  : option Linker.SearchResponse :=
  Some {| Linker.sr_status := 200; Linker.sr_results := Some [Some id] |}.

(** The inputs of the README: a pull request that names [TASK-3374] and
    links the page of that task. *)
Definition example_link : string :=
  "https://www.notion.so/Tasks-ci-cd-25b6cafc5b5c801fba02ea17d3cc4b77".
Definition example_id : string := "25b6cafc-5b5c-801f-ba02-ea17d3cc4b77".
Definition example_refs : Linker.TaskRefs :=
  Linker.parse_task_refs "Release automation TASK-3374" example_link None.

(** A platform for running the handlers: digests of zero bytes, a parser
    and endpoints that answer what they are given. *)
Definition example_platform (parsed : option Http.Payload)
    (gh slack : option Http.Reply) : Http.Platform :=
  {| Http.hmac_sha1 := fun _ _ => repeat Byte.x00 20;
     Http.hmac_sha256 := fun _ _ => repeat Byte.x00 32;
     Http.JSON_parse := fun _ => parsed;
     Http.notion_search := fun _ _ => None;
     Http.github_dispatch := fun _ _ _ _ => gh;
     Http.slack_post := fun _ _ => slack |}.

Definition example_env (secret dispatch : option string) : Http.Env :=
  {| Http.SLACK_WEBHOOK_URL := Some "https://hooks.slack.com/services/T/B/X";
     Http.NOTION_TOKEN := None;
     Http.EXPO_WEBHOOK_SECRET := secret;
     Http.DISPATCH_TO_GITHUB := dispatch;
     Http.GH_OWNER := None;
     Http.GH_REPO := None;
     Http.GH_REPO_DISPATCH_TOKEN := Some "dispatch-token" |}.

Definition example_request (hdrs : list (string * string)) : Http.Request :=
  {| Http.method := "POST";
     Http.pathname := "/api/expo-webhook";
     Http.headers := hdrs;
     Http.body := "{}" |}.


End Examples.

(* ================================================================== *)
(** * Further notions: decoders and shapes *)
(* ================================================================== *)

Module Notions.
Import Text.
(** The value of a hexadecimal digit written in lower case. *)
Definition hex_value (c : ascii) : option N :=
  if is_digit c then Some (code c - 48)%N
  else if in_range "a" "f" c then Some (code c - 87)%N
  else None.

(** The bytes a text of hexadecimal digits stands for, two digits a byte. *)
Fixpoint unhex (s : string) : option (list Byte.byte) :=
  match s with
  | EmptyString => Some []
  | String _ EmptyString => None
  | String h (String l rest) =>
      match hex_value h, hex_value l, unhex rest with
      | Some x, Some y, Some bytes =>
          match Byte.of_N (x * 16 + y) with
          | Some b => Some (b :: bytes)
          | None => None
          end
      | _, _, _ => None
      end
  end.

(** A digit of the Base64 alphabet. *)
Definition is_b64_digit (c : ascii) : bool :=
  is_digit c || is_upper c || is_lower c || (c =? "+")%char || (c =? "/")%char.

(** A digit of the Base64 alphabet, or the padding. *)
Definition is_b64_char (c : ascii) : bool :=
  is_b64_digit c || (c =? "=")%char.



(** At most one Notion search. *)
Definition notion_shape (n : list Http.Event) : Prop :=
  n = [] \/ exists token query, n = [Http.EvNotionSearch token query].

(** At most one call to the destination, Slack or GitHub. *)
Definition dispatch_shape (d : list Http.Event) : Prop :=
  d = [] \/
  (exists hook text, d = [Http.EvSlackPost hook text]) \/
  (exists owner repo token ty payload,
      d = [Http.EvGithubDispatch owner repo token ty payload]).

(** The calls of one handling, in order: the parse of the body, then at
    most one Notion search, then at most one call to the destination. *)
Definition one_of_each (events : list Http.Event) : Prop :=
  events = [] \/
  exists raw notion dispatch,
    events = (Http.EvParseJson raw :: notion ++ dispatch)%list /\
    notion_shape notion /\ dispatch_shape dispatch.

(** A refusal: the answer [Method Not Allowed] (405), [Not Found] (404)
    or [Invalid signature] (401). *)
Definition refusal (out : Http.Outcome) : Prop :=
  exists r msg rest,
    out = Http.Responded r /\
    Http.content r = Some (("error", Http.VStr msg) :: rest) /\
    (msg = "Method Not Allowed" \/ msg = "Not Found" \/
     msg = "Invalid signature").

(** A handling whose calls are in order, and that made none when it
    refused the request. *)
Definition orderly (run : list Http.Event * Http.Outcome) : Prop :=
  one_of_each (fst run) /\ (refusal (snd run) -> fst run = []).



(** A short code: the prefix, a hyphen, and one digit or more. *)
Definition short_code (pfx code : string) : Prop :=
  exists digits,
    code = pfx ++ String "-" digits /\
    nonempty digits = true /\ forall_chars is_digit digits = true.



(** The elements of a list in the order of their first appearance. *)
Fixpoint first_seen (l : list string) : list string :=
  match l with
  | [] => []
  | x :: rest => x :: filter (fun y => negb (y =? x)%string) (first_seen rest)
  end.

(** A bullet one of whose texts holds [url]. *)
Definition carries (url : string) (b : Linker.Block) : Prop :=
  Linker.is_some_string (Linker.b_type b) "bulleted_list_item" = true /\
  exists texts,
    Linker.b_bulleted_list_item b = Some texts /\
    existsb (fun t => contains url (Linker.or_empty (Linker.rt_content t)))
      texts = true.

(** A block that is no bullet. *)
Definition no_bullet (b : Linker.Block) : Prop :=
  Linker.is_some_string (Linker.b_type b) "bulleted_list_item" = false.

(** A paragraph, and a page that holds a hundred of them. *)
Definition paragraph : Linker.Block :=
  {| Linker.b_type := Some "paragraph"; Linker.b_bulleted_list_item := None |}.

(** A page in use: a paragraph and the bullet of another pull request. *)
Definition used_page : Linker.Store.t :=
  [("page",
    [paragraph; Linker.pr_bullet "https://github.com/o/r/pull/7"])].

Definition long_page : Linker.Store.t := [("page", repeat paragraph 100)].

End Notions.

(* ================================================================== *)
(** * The Pages function, [onRequestPost] *)
(* ================================================================== *)

Module Pages.
Import Text Digest Http.
Section Handler.

Variable P : Platform.

Definition json (obj : list (string * JsValue)) (st : Z) : Outcome :=
  if constructible st then
    Responded {| status := st;
                 content := Some obj;
                 content_type := Some "application/json" |}
  else Threw.

Definition timingSafeEqualB64 (a b : string) : bool :=
  if negb (Nat.eqb (length a) (length b)) then false
  else (xor_acc a b 0 =? 0)%N.

Definition verifyHmacSha1Base64 (bodyText secret header : string) : bool :=
  let provided :=
    if contains "=" header then nth 1 (split "=" header) EmptyString
    else header in
  let sig := hmac_sha1 P secret bodyText in
  let expected := bytesToB64 sig in
  timingSafeEqualB64 provided expected.

(** The Notion lookup, outside any [try]: [None] when [fetch] or [r.json()]
    throws. *)
Definition resolve_notion (taskId : string) (env : Env)
  : list Event * option string :=
  if nonempty taskId && js_truthy (NOTION_TOKEN env) then
    let token := js_or (NOTION_TOKEN env) EmptyString in
    ([EvNotionSearch token taskId],
     match notion_search P token taskId with
     | None => None
     | Some r =>
         if notion_ok r then
           match notion_first_id r with
           | None => None
           | Some (Some pageId) =>
               Some (if nonempty pageId then notion_url_of pageId
                     else EmptyString)
           | Some None => Some EmptyString
           end
         else Some EmptyString
     end)
  else ([], Some EmptyString).

Definition slack_text (st gitRef buildUrl : Field)
    (taskId notionUrl : string) (commitMessage : Field) : string :=
  let text := "🚀 *Preview build* " ++ field_text st in
  let text :=
    if field_truthy gitRef then text ++ " on `" ++ field_text gitRef ++ "`"
    else text in
  let text :=
    if field_truthy buildUrl then
      text ++ String LF ("📱 " ++ field_text buildUrl)
    else text in
  let text :=
    if nonempty taskId then
      text ++ String LF ("🔗 Task: " ++ taskId ++
        (if nonempty notionUrl then " • " ++ notionUrl else EmptyString))
    else text in
  if field_truthy commitMessage then
    text ++ String LF ("📝 " ++ field_text commitMessage)
  else text.

(** The handler; the platform routes only [POST] requests to it. *)
Definition onRequestPost (request : Request) (env : Env)
  : list Event * Outcome :=
  let rejected :=
    match EXPO_WEBHOOK_SECRET env with
    | Some secret =>
        if nonempty secret then
          let raw := body request in
          let hdr :=
            js_or (headers_get (headers request) "expo-signature")
              EmptyString in
          negb (verifyHmacSha1Base64 raw secret hdr)
        else false
    | None => false
    end in
  if rejected then ([], json [("error", VStr "Invalid signature")] 401)
  else
    let body :=
      match JSON_parse P (Http.body request) with
      | Some p => p
      | None => empty_payload
      end in
    let st :=
      field_or (p_status body) (field_or (p_event body) (FStr "unknown")) in
    let buildUrl :=
      field_or (p_buildDetailsPageUrl body)
        (field_or (p_build_detailsPageUrl body) (FStr EmptyString)) in
    let gitRef :=
      field_or (p_gitRef body)
        (field_or (p_metadata_gitRef body)
           (field_or (p_metadata_appVersion body) (FStr EmptyString))) in
    let commitMessage :=
      field_or (p_metadata_commitMessage body) (FStr EmptyString) in
    let hit :=
      TASK_REGEX_search None
        (field_text gitRef ++ " " ++ field_text commitMessage) in
    let taskId :=
      upper (match hit with Some m => m | None => EmptyString end) in
    match resolve_notion taskId env with
    | (ev_notion, None) => (EvParseJson (Http.body request) :: ev_notion, Threw)
    | (ev_notion, Some notionUrl) =>
        if negb (js_truthy (SLACK_WEBHOOK_URL env)) then
          (EvParseJson (Http.body request) :: ev_notion,
           json [("error", VStr "SLACK_WEBHOOK_URL missing")] 500)
        else
          let hook := js_or (SLACK_WEBHOOK_URL env) EmptyString in
          let text :=
            slack_text st gitRef buildUrl taskId notionUrl commitMessage in
          ((EvParseJson (Http.body request) :: ev_notion)
             ++ [EvSlackPost hook text],
           match slack_post P hook text with
           | None => Threw
           | Some slack =>
               if negb (ok slack) then
                 json [("error", VStr "Slack error");
                       ("detail", VStr (reply_text slack))] 500
               else json [("ok", VBool true)] 200
           end)%list
    end.

End Handler.

End Pages.

(* ================================================================== *)
(** * ASCII text as Unicode text *)
(* ================================================================== *)

(** What relates the extraction of module [Linker], over ASCII text, to
    the extraction of module [Unicode]. *)
Module AsciiText.

(** Tables that are those of ASCII for the code points below 128, as the
    tables of the interpreter are. *)
Definition ascii_below_128 (U : Unicode.Tables) : Prop :=
  (forall c, (c < 128)%N ->
             Unicode.is_word U c = Unicode.is_word Unicode.ascii_tables c /\
             Unicode.is_digit U c = Unicode.is_digit Unicode.ascii_tables c /\
             Unicode.is_space U c = Unicode.is_space Unicode.ascii_tables c) /\
  (forall a b, (a < 128)%N -> (b < 128)%N ->
               Unicode.matches_ci U a b =
               Unicode.matches_ci Unicode.ascii_tables a b) /\
  (forall t, Forall (fun c => (c < 128)%N) t ->
             Unicode.upper U t = Unicode.upper Unicode.ascii_tables t).

(** A character of ASCII, or none. *)
Definition ascii_opt (c : option ascii) : Prop :=
  match c with
  | Some c => (Text.code c < 128)%N
  | None => True
  end.

(** A matcher over code points and a matcher over characters that agree
    on ASCII text. *)
Definition agree (ku : Unicode.text -> option Unicode.text)
    (ka : string -> option string) : Prop :=
  forall s, Spec.ascii_text s ->
            ku (Unicode.lit s) = option_map Unicode.lit (ka s).

End AsciiText.

(* ================================================================== *)
(** * The rest of [main]: annotation of every page, and the comment *)
(* ================================================================== *)

Module Main.
Import Text Linker.
(** What a run of [main] does that is visible outside it: its requests
    ([POST /v1/search], [GET .../children], what the annotator writes and
    logs, the comment) and the lines it prints. *)
Inductive Call : Type :=
| CallSearch (query : string)
| CallRead (page_id : string)
| CallNotion (e : Event)
| CallComment (repo_full : string) (pr_number : Z) (comment : string)
| CallWarning (msg : string)
| CallError (msg : string)              (* die: "::error:: msg", exit 1 *)
| CallLinked (pages : nat) (pr_number : Z)
| CallNothingToLink.

(** What [extract_pr_info] and [extract_branch] return. *)
Record PrInfo : Type := mkPrInfo {
  repo_full : string;
  pr_number : Z;
  pr_html_url : string;
  pr_title : string;
  pr_body : string;
  branch : option string
}.

(** [not token] is false for a token that is set and not empty. *)
Definition is_set (token : option string) : bool :=
  match token with
  | Some t => nonempty t
  | None => false
  end.

(** [TASK_PREFIX = os.getenv("TASK_PREFIX", "TASK")] *)
Definition TASK_PREFIX (configured : option string) : string :=
  match configured with
  | Some pfx => pfx
  | None => TASK_PREFIX_default
  end.

Definition searches_of (calls : list Call) : list string :=
  flat_map (fun c => match c with
                     | CallSearch query => [query]
                     | _ => []
                     end) calls.

Definition reads_of (calls : list Call) : list string :=
  flat_map (fun c => match c with
                     | CallRead page_id => [page_id]
                     | _ => []
                     end) calls.

Definition blocks_of (calls : list Call) : list Block :=
  flat_map (fun c => match c with
                     | CallNotion (EvPatch _ children) => children
                     | _ => []
                     end) calls.

Definition comments_of (calls : list Call) : list string :=
  flat_map (fun c => match c with
                     | CallComment _ _ comment => [comment]
                     | _ => []
                     end) calls.

(** ["\n".join(["Linked Notion Tasks:"] + [f"- {url}" for _, url in pages])] *)
Definition comment_body (pages : list (string * string)) : string :=
  concat (String LF EmptyString)
    ("Linked Notion Tasks:" :: map (fun p => "- " ++ snd p) pages).

Section Run.

Variable W : Type.
Variable http_get_children : W -> string -> option (Z * list Block).
Variable http_patch_children :
  W -> string -> list Block -> W * option (Z * string).
Variable http_search : W -> string -> option SearchResponse.
Variable http_post_comment :
  W -> string -> Z -> string -> W * option (Z * string).

Definition gh_post_pr_comment (w : W) (repo : string) (number : Z)
    (comment : string) : W * list Call * Py unit :=
  match http_post_comment w repo number comment with
  | (w', None) =>
      (w', [CallComment repo number comment], Raise "RequestException")
  | (w', Some (status, text)) =>
      if (300 <=? status)%Z then
        (w', [CallComment repo number comment; CallWarning text], Ok tt)
      else (w', [CallComment repo number comment], Ok tt)
  end.

(** [for tid in task_ids: found = notion_search_page(notion_token, tid)]:
    the searches made, up to the first that raises, and the pages found. *)
Fixpoint search_all (w : W) (tids : list string)
  : list Call * Py (list (string * string)) :=
  match tids with
  | [] => ([], Ok [])
  | tid :: rest =>
      match notion_search_page W http_search w tid with
      | Raise e => ([CallSearch tid], Raise e)
      | Ok found =>
          let '(calls, more) := search_all w rest in
          (CallSearch tid :: calls,
           match more with
           | Raise e => Raise e
           | Ok more => Ok (match found with
                            | Some p => p :: more
                            | None => more
                            end)
           end)
      end
  end.

(** [for pid, _ in pages: notion_append_pr_bullet(notion_token, pid, url)];
    every call of the annotator starts with its read of the children. *)
Fixpoint annotate_all (w : W) (pages : list (string * string))
    (pr_url : string) : W * list Call * Py unit :=
  match pages with
  | [] => (w, [], Ok tt)
  | (pid, _) :: rest =>
      match notion_append_pr_bullet W http_get_children http_patch_children
              w pid pr_url with
      | (w1, evs, Raise e) =>
          (w1, CallRead pid :: map CallNotion evs, Raise e)
      | (w1, evs, Ok _) =>
          let '(w2, calls, out) := annotate_all w1 rest pr_url in
          (w2, (CallRead pid :: map CallNotion evs ++ calls)%list, out)
      end
  end.

Definition main (task_prefix gh_token notion_token : option string)
    (info : PrInfo) (w : W) : W * list Call * Py unit :=
  if negb (is_set gh_token) then
    (w, [CallError "GITHUB_TOKEN missing. In Actions, expose it via env: GITHUB_TOKEN: ${{ secrets.GITHUB_TOKEN }}"],
     Raise "SystemExit")
  else if negb (is_set notion_token) then
    (w, [CallError "NOTION_TOKEN missing. Add it as a repository secret and expose via env."],
     Raise "SystemExit")
  else
    let refs :=
      parse_task_refs_with (TASK_PREFIX task_prefix)
        (pr_title info) (pr_body info) (branch info) in
    let by_link := pages_of_links (notion_links refs) in
    match search_all w (task_ids refs) with
    | (searches, Raise e) => (w, searches, Raise e)
    | (searches, Ok found) =>
        let pages := dedup_pages (by_link ++ found) in
        match annotate_all w pages (pr_html_url info) with
        | (w1, calls, Raise e) => (w1, (searches ++ calls)%list, Raise e)
        | (w1, calls, Ok _) =>
            match pages with
            | [] =>
                (w1, (searches ++ calls ++ [CallNothingToLink])%list, Ok tt)
            | _ :: _ =>
                match gh_post_pr_comment w1 (repo_full info) (pr_number info)
                        (comment_body pages) with
                | (w2, posted, Raise e) =>
                    (w2, (searches ++ calls ++ posted)%list, Raise e)
                | (w2, posted, Ok _) =>
                    (w2,
                     (searches ++ calls ++ posted
                        ++ [CallLinked (List.length pages) (pr_number info)])%list,
                     Ok tt)
                end
            end
        end
    end.

End Run.

End Main.

(* ================================================================== *)
(** * Example runs of the linker *)
(* ================================================================== *)

Module Runs.

Import Linker Examples Main.
Definition example_pr : PrInfo :=
  {| repo_full := "o/r";
     pr_number := 108;
     pr_html_url := "https://github.com/o/r/pull/108";
     pr_title := "Release automation TASK-3374";
     pr_body := example_link;
     branch := None |}.

(** A run against services that answer: an empty page, a write and a
    comment that succeed, a search that finds the page. *)
Definition example_run (gh_token notion_token : option string)
  : unit * list Call * Py unit :=
  main unit (fun _ _ => Some (200%Z, [])) (fun w _ _ => (w, Some (200%Z, "")))
    (search_finds example_id) (fun w _ _ _ => (w, Some (201%Z, "")))
    None gh_token notion_token example_pr tt.

(** A pull request that names a task no search finds: the searches
    answer with no result. *)
Definition search_finds_nothing (_ : unit) (_ : string)
  : option SearchResponse :=
  Some {| sr_status := 200; sr_results := Some [] |}.

Definition unlinked_pr : PrInfo :=
  {| repo_full := "o/r";
     pr_number := 109;
     pr_html_url := "https://github.com/o/r/pull/109";
     pr_title := "Fix card-12 and CARD-7";
     pr_body := EmptyString;
     branch := Some "feature/card-7" |}.

Definition unlinked_run : unit * list Call * Py unit :=
  main unit (fun _ _ => Some (200%Z, [])) (fun w _ _ => (w, Some (200%Z, "")))
    search_finds_nothing (fun w _ _ _ => (w, Some (201%Z, "")))
    (Some "CARD") (Some "gh") (Some "nt") unlinked_pr tt.

End Runs.

(* ================================================================== *)
(** * Properties of the linker *)
(* ================================================================== *)

Module LinkerFacts.
Import Text Linker Spec Examples.

Lemma fullmatch_hex_spec (n : nat) (s : string) :
  fullmatch_hex n s = true <-> length s = n /\ forall_chars is_hex s = true.
Proof.
  revert s; induction n as [|n IH]; intros [|c s]; simpl.
  - tauto.
  - split; [discriminate | intros [H _]; discriminate].
  - split; [discriminate | intros [H _]; discriminate].
  - rewrite andb_true_iff, IH. split.
    + intros (Hc & Hl & Hs). rewrite Hc, Hs, Hl. auto.
    + intros (Hl & Hcs). apply andb_true_iff in Hcs. intuition lia.
Qed.

Lemma hyphenation_agrees (s : string) :
  length s = 32 ->
  slice 0 8 s ++ "-" ++ slice 8 12 s ++ "-" ++ slice 12 16 s ++ "-"
    ++ slice 16 20 s ++ "-" ++ slice 20 32 s = hyphenated s.
Proof.
  intros H.
  do 32 (destruct s as [|? s]; [discriminate H|]).
  destruct s; [reflexivity | discriminate H].
Qed.


(** ** Characters *)

Ltac ascii_cases c := destruct c as [[|] [|] [|] [|] [|] [|] [|] [|]].

(** C10. [ensure_uuid_hyphens] returns the 8-4-4-4-12 hyphenation of the
    input without its hyphens when that is exactly 32 hexadecimal
    characters, and the input itself, unchanged, otherwise. *)
Theorem ensure_uuid_hyphens_spec (id32 : string) :
  let s := remove_char "-" id32 in
  (hex32 s -> ensure_uuid_hyphens id32 = hyphenated s) /\
  (~ hex32 s -> ensure_uuid_hyphens id32 = id32).
Proof.
  intros s. unfold ensure_uuid_hyphens. fold s.
  destruct (Nat.eqb (length s) 32) eqn:L;
    destruct (fullmatch_hex 32 s) eqn:F; cbn [negb orb].
  - apply Nat.eqb_eq in L.
    split; [intros _; now apply hyphenation_agrees|].
    intros N. exfalso. apply N. now apply fullmatch_hex_spec.
  - split; [|reflexivity].
    intros H. apply fullmatch_hex_spec in H. congruence.
  - apply fullmatch_hex_spec in F as [F _]. apply Nat.eqb_neq in L.
    contradiction.
  - apply Nat.eqb_neq in L. split; [|reflexivity].
    intros [H _]. contradiction.
Qed.

Lemma ensure_uuid_hyphens_spec_witness :
  ensure_uuid_hyphens "25B6cafc-5b5c801fba02ea17d3cc4b77" =
    "25B6cafc-5b5c-801f-ba02-ea17d3cc4b77" /\
  ensure_uuid_hyphens "25b6-cafc-xyz" = "25b6-cafc-xyz".
Proof.
  split.
  - apply (proj1 (ensure_uuid_hyphens_spec
                    "25B6cafc-5b5c801fba02ea17d3cc4b77")).
    split; reflexivity.
  - apply (proj2 (ensure_uuid_hyphens_spec "25b6-cafc-xyz")).
    intros [H _]. discriminate H.
Defined.


(** ** The dictionary of [main] *)

Lemma dict_set_In_key (d : list (string * string)) (k v x : string) :
  In x (map fst (dict_set d k v)) <-> x = k \/ In x (map fst d).
Proof.
  induction d as [|[k' v'] d IH]; simpl.
  - intuition.
  - destruct (String.eqb_spec k' k) as [->|N]; simpl.
    + intuition.
    + rewrite IH. intuition.
Qed.

Lemma dict_set_NoDup (d : list (string * string)) (k v : string) :
  NoDup (map fst d) -> NoDup (map fst (dict_set d k v)).
Proof.
  induction d as [|[k' v'] d IH]; simpl; intros H.
  - constructor; [intros [] | constructor].
  - inversion H as [|? ? Hn Hd]; subst.
    destruct (String.eqb_spec k' k) as [->|N]; simpl.
    + constructor; assumption.
    + constructor; [|now apply IH].
      rewrite dict_set_In_key. intros [E|I]; [now apply N | now apply Hn].
Qed.

Lemma dict_get_set (d : list (string * string)) (k v x : string) :
  dict_get (dict_set d k v) x =
  if (k =? x)%string then Some v else dict_get d x.
Proof.
  induction d as [|[k' v'] d IH]; simpl.
  - reflexivity.
  - destruct (String.eqb_spec k' k) as [->|N]; simpl.
    + destruct (k =? x)%string; reflexivity.
    + rewrite IH.
      destruct (String.eqb_spec k' x) as [->|N'];
        destruct (String.eqb_spec k x) as [->|N'']; congruence.
Qed.

Lemma dict_get_In (d : list (string * string)) (k v : string) :
  NoDup (map fst d) -> (In (k, v) d <-> dict_get d k = Some v).
Proof.
  induction d as [|[k' v'] d IH]; simpl; intros H.
  - split; [intros [] | discriminate].
  - inversion H as [|? ? Hn Hd]; subst.
    destruct (String.eqb_spec k' k) as [->|N].
    + split.
      * intros [E|I]; [congruence|].
        exfalso. apply Hn. apply in_map_iff. now exists (k, v).
      * intros E. left. congruence.
    + rewrite <- (IH Hd). split; [intros [E|I]; [congruence | assumption]|].
      now right.
Qed.

Lemma last_value_app (a b : list (string * string)) (k : string) :
  last_value (a ++ b) k =
  match last_value b k with
  | Some v => Some v
  | None => last_value a k
  end.
Proof.
  induction a as [|[k' v'] a IH]; simpl.
  - destruct (last_value b k); reflexivity.
  - rewrite IH. destruct (last_value b k); reflexivity.
Qed.

Lemma last_value_In (l : list (string * string)) (k v : string) :
  last_value l k = Some v -> In (k, v) l.
Proof.
  induction l as [|[k' v'] l IH]; simpl; [discriminate|].
  destruct (last_value l k) as [v0|].
  - intros H. right. apply IH. assumption.
  - destruct (String.eqb_spec k' k) as [->|N]; [|discriminate].
    intros H. left. congruence.
Qed.

Lemma last_value_None (l : list (string * string)) (k : string) :
  last_value l k = None <-> ~ In k (map fst l).
Proof.
  induction l as [|[k' v'] l IH]; simpl.
  - intuition.
  - destruct (last_value l k) as [v0|] eqn:E.
    + split; [discriminate|]. intros N. exfalso. apply N. right.
      apply last_value_In in E. apply in_map_iff. now exists (k, v0).
    + destruct (String.eqb_spec k' k) as [->|N].
      * split; [discriminate|]. intros H. exfalso. apply H. now left.
      * split; [|reflexivity]. intros _ [H|H]; [now apply N|].
        now apply (proj1 IH).
Qed.

Local Abbreviation store := (fun uniq p => dict_set uniq (fst p) (snd p)).

Lemma fold_store_keys (l d : list (string * string)) (x : string) :
  In x (map fst (fold_left store l d)) <->
  In x (map fst l) \/ In x (map fst d).
Proof.
  revert d; induction l as [|[k v] l IH]; intros d; simpl.
  - intuition.
  - rewrite IH. rewrite dict_set_In_key. intuition.
Qed.

Lemma fold_store_NoDup (l d : list (string * string)) :
  NoDup (map fst d) -> NoDup (map fst (fold_left store l d)).
Proof.
  revert d; induction l as [|[k v] l IH]; intros d H; simpl.
  - assumption.
  - apply IH. now apply dict_set_NoDup.
Qed.

Lemma fold_store_get (l d : list (string * string)) (x : string) :
  dict_get (fold_left store l d) x =
  match last_value l x with
  | Some v => Some v
  | None => dict_get d x
  end.
Proof.
  revert d; induction l as [|[k v] l IH]; intros d; simpl.
  - reflexivity.
  - rewrite IH. rewrite dict_get_set.
    destruct (last_value l x); [reflexivity|].
    destruct (k =? x)%string; reflexivity.
Qed.

Lemma dedup_pages_NoDup (pages : list (string * string)) :
  NoDup (map fst (dedup_pages pages)).
Proof. apply (fold_store_NoDup pages []). constructor. Qed.

Lemma dedup_pages_keys (pages : list (string * string)) (pid : string) :
  In pid (map fst (dedup_pages pages)) <-> In pid (map fst pages).
Proof.
  unfold dedup_pages. rewrite (fold_store_keys pages [] pid). simpl. tauto.
Qed.

Lemma dedup_pages_In (pages : list (string * string)) (pid url : string) :
  In (pid, url) (dedup_pages pages) <-> last_value pages pid = Some url.
Proof.
  rewrite (dict_get_In _ _ _ (dedup_pages_NoDup pages)).
  unfold dedup_pages. rewrite (fold_store_get pages [] pid). simpl.
  destruct (last_value pages pid); split; congruence.
Qed.


(** ** Resolution *)

Lemma length_lower (s : string) : length (lower s) = length s.
Proof.
  unfold lower. induction s as [|c s IH]; simpl; [reflexivity | now rewrite IH].
Qed.

Lemma take_hex_length (n : nat) (s g r : string) :
  take_hex n s = Some (g, r) -> length g = n.
Proof.
  revert s g r; induction n as [|n IH]; intros s g r H; simpl in H.
  - now inversion H.
  - destruct s as [|c s]; [discriminate|].
    destruct (is_hex c); [|discriminate].
    destruct (take_hex n s) as [[m r']|] eqn:E; [|discriminate].
    inversion H; subst. simpl. now rewrite (IH _ _ _ E).
Qed.

Lemma page_id_search_length (s g : string) :
  page_id_search s = Some g -> length g = 32.
Proof.
  induction s as [|c s IH]; simpl; unfold page_id_match_at.
  - simpl. discriminate.
  - destruct (take_hex 32 (String c s)) as [[m r]|] eqn:E.
    + destruct (id_terminator r).
      * intros H; inversion H; subst. now apply take_hex_length in E.
      * assumption.
    + assumption.
Qed.

Lemma nonempty_length (s : string) : 0 < length s -> nonempty s = true.
Proof. destruct s; simpl; [lia | reflexivity]. Qed.

Lemma ensure_uuid_hyphens_nonempty (x : string) :
  nonempty x = true -> nonempty (ensure_uuid_hyphens x) = true.
Proof.
  intros H. unfold ensure_uuid_hyphens.
  destruct (negb _ || negb _); [assumption|].
  destruct (slice 0 8 (remove_char "-" x)); reflexivity.
Qed.

Lemma page_id_truthy (link pid : string) :
  page_id_from_notion_url link = Some pid -> truthy pid = true.
Proof.
  unfold page_id_from_notion_url, truthy.
  destruct (page_id_search link) as [g|] eqn:E; [|discriminate].
  intros H; inversion H; subst.
  apply ensure_uuid_hyphens_nonempty, nonempty_length.
  rewrite length_lower, (page_id_search_length _ _ E). lia.
Qed.

Lemma hex_lower (c : ascii) :
  is_hex c = true ->
  is_hex (to_lower c) = true /\ (to_lower c =? "-")%char = false.
Proof.
  ascii_cases c; vm_compute; intros H;
    first [discriminate H | split; reflexivity].
Qed.

Lemma take_hex_chars (n : nat) (s g r : string) :
  take_hex n s = Some (g, r) -> forall_chars is_hex g = true.
Proof.
  revert s g r; induction n as [|n IH]; intros s g r H; simpl in H.
  - now inversion H.
  - destruct s as [|c s]; [discriminate|].
    destruct (is_hex c) eqn:Hc; [|discriminate].
    destruct (take_hex n s) as [[m r']|] eqn:E; [|discriminate].
    inversion H; subst. simpl. now rewrite Hc, (IH _ _ _ E).
Qed.

Lemma page_id_search_chars (s g : string) :
  page_id_search s = Some g -> forall_chars is_hex g = true.
Proof.
  induction s as [|c s IH]; simpl; unfold page_id_match_at.
  - simpl. discriminate.
  - destruct (take_hex 32 (String c s)) as [[m r]|] eqn:E.
    + destruct (id_terminator r).
      * intros H; inversion H; subst. now apply take_hex_chars in E.
      * assumption.
    + assumption.
Qed.

Lemma lower_hex (g : string) :
  forall_chars is_hex g = true ->
  forall_chars is_hex (lower g) = true /\ remove_char "-" (lower g) = lower g.
Proof.
  unfold lower. induction g as [|c g IH]; simpl; [auto|].
  intros H. apply andb_true_iff in H as [Hc Hg].
  destruct (hex_lower c Hc) as [-> ->]. destruct (IH Hg) as [-> ->]. auto.
Qed.

(** The id decoded from a link is canonical: 32 hexadecimal characters in
    lower case, hyphenated in groups of 8, 4, 4, 4 and 12. *)
Lemma page_id_canonical (url pid : string) :
  page_id_from_notion_url url = Some pid ->
  exists g, hex32 g /\ lower g = g /\ pid = hyphenated g.
Proof.
  unfold page_id_from_notion_url.
  destruct (page_id_search url) as [g|] eqn:E; [|discriminate].
  intros H; inversion H; subst; clear H.
  pose proof (page_id_search_length _ _ E) as L.
  destruct (lower_hex g (page_id_search_chars _ _ E)) as [Hh Hr].
  exists (lower g). split; [|split].
  - split; [now rewrite length_lower | assumption].
  - unfold lower. clear. induction g as [|c g IH]; simpl; [reflexivity|].
    rewrite IH. f_equal. ascii_cases c; reflexivity.
  - unfold ensure_uuid_hyphens. rewrite Hr, length_lower, L.
    assert (F : fullmatch_hex 32 (lower g) = true)
      by (apply fullmatch_hex_spec; split;
          [now rewrite length_lower | assumption]).
    rewrite F. cbn [Nat.eqb negb orb].
    apply hyphenation_agrees. now rewrite length_lower.
Qed.

Lemma hex_not_hyphen (c : ascii) :
  is_hex c = true -> (c =? "-")%char = false.
Proof.
  ascii_cases c; vm_compute; intros H; first [discriminate H | reflexivity].
Qed.

Lemma remove_char_hex (s : string) :
  forall_chars is_hex s = true -> remove_char "-" s = s.
Proof.
  induction s as [|c s IH]; simpl; [reflexivity|].
  intros H. apply andb_true_iff in H as [Hc Hs].
  now rewrite (hex_not_hyphen c Hc), (IH Hs).
Qed.

Lemma remove_char_keep (c : ascii) (s : string) :
  is_hex c = true ->
  remove_char "-" (String c s) = String c (remove_char "-" s).
Proof.
  intros H. cbn [remove_char]. now rewrite (hex_not_hyphen c H).
Qed.

Lemma remove_char_drop (s : string) :
  remove_char "-" (String "-" s) = remove_char "-" s.
Proof. reflexivity. Qed.

Lemma strip_hyphenated (s : string) :
  hex32 s -> remove_char "-" (hyphenated s) = s /\ length (hyphenated s) = 36.
Proof.
  intros [L F].
  do 32 (destruct s as [|? s]; [discriminate L|]).
  destruct s; [|discriminate L]. clear L.
  cbn [forall_chars] in F.
  repeat (apply andb_true_iff in F as [?H F]).
  split; [|reflexivity].
  match goal with
  | |- remove_char _ ?t = _ =>
      let h := eval vm_compute in t in change t with h
  end.
  repeat first [ rewrite remove_char_drop
               | rewrite remove_char_keep by assumption ].
  reflexivity.
Qed.

(** The canonical form of an id in the canonical notation: its digits. *)
Lemma canonical_hyphenated (g : string) :
  hex32 g -> lower g = g -> canonical (hyphenated g) = g.
Proof.
  intros H L. unfold canonical.
  now rewrite (proj1 (strip_hyphenated g H)).
Qed.

Lemma canonical_id_inj (a b : string) :
  canonical_id a -> canonical_id b -> canonical a = canonical b -> a = b.
Proof.
  intros (g & Hg & Lg & ->) (h & Hh & Lh & ->).
  rewrite (canonical_hyphenated g Hg Lg), (canonical_hyphenated h Hh Lh).
  now intros ->.
Qed.

Lemma pages_of_links_In (links : list string) (pid link : string) :
  In (pid, link) (pages_of_links links) <->
  In link links /\ page_id_from_notion_url link = Some pid.
Proof.
  unfold pages_of_links. rewrite in_flat_map. split.
  - intros (l & Hl & H).
    destruct (page_id_from_notion_url l) as [p|] eqn:E; [|destruct H].
    destruct (truthy p); [|destruct H].
    destruct H as [H|[]]. inversion H; subst. auto.
  - intros (Hl & E). exists link. split; [assumption|].
    rewrite E, (page_id_truthy _ _ E). now left.
Qed.

Lemma notion_search_page_of_url (resp : option SearchResponse)
    (pid url : string) :
  notion_search_page_of resp = Ok (Some (pid, url)) -> url = public_url_of pid.
Proof.
  unfold notion_search_page_of.
  destruct resp as [resp|]; [|discriminate].
  destruct (raise_for_status (sr_status resp)); simpl; [|discriminate].
  destruct (sr_results resp) as [[|[id|] rest]|]; try discriminate.
  intros H; inversion H; reflexivity.
Qed.

Section Search.

Variable W : Type.
Variable http_search : W -> string -> option SearchResponse.
Variable w : W.

Let search := notion_search_page W http_search w.
Let by_search := pages_of_task_ids W http_search w.

Lemma pages_of_task_ids_In (tids : list string) (found : list (string * string))
    (p : string * string) :
  by_search tids = Ok found ->
  (In p found <-> exists tid, In tid tids /\ search tid = Ok (Some p)).
Proof.
  subst search by_search. revert found.
  induction tids as [|tid tids IH]; simpl; intros found H.
  - inversion H; subst. split; [intros [] | intros (? & [] & _)].
  - destruct (notion_search_page W http_search w tid) as [r|] eqn:E;
      simpl in H; [|discriminate].
    destruct (pages_of_task_ids W http_search w tids) as [more|] eqn:M;
      simpl in H; [|discriminate].
    inversion H; subst; clear H. specialize (IH more eq_refl).
    destruct r as [q|]; simpl.
    + rewrite IH. split.
      * intros [->|(t & Ht & Hs)]; [exists tid; auto | exists t; auto].
      * intros (t & [->|Ht] & Hs); [left; congruence | right; exists t; auto].
    + rewrite IH. split.
      * intros (t & Ht & Hs). exists t; auto.
      * intros (t & [->|Ht] & Hs); [congruence | exists t; auto].
Qed.

Lemma pages_of_task_ids_total (tids : list string) :
  (forall tid, In tid tids -> exists r, search tid = Ok r) ->
  exists found, by_search tids = Ok found.
Proof.
  subst search by_search.
  induction tids as [|tid tids IH]; simpl; intros H.
  - now exists [].
  - destruct (H tid (or_introl eq_refl)) as [r ->].
    destruct IH as [more ->]; [intros t Ht; apply H; now right|].
    simpl. eauto.
Qed.

Lemma by_search_urls (tids : list string) (found : list (string * string))
    (pid url : string) :
  by_search tids = Ok found -> In (pid, url) found -> url = public_url_of pid.
Proof.
  intros H I. apply (pages_of_task_ids_In tids found (pid, url) H) in I.
  destruct I as (tid & _ & E). subst search.
  now apply notion_search_page_of_url in E.
Qed.

(** C7, as the code has it. Whatever the references and whatever the
    search answers: when no search raises, [main] obtains its list of
    pages; the list it hands to annotation and to the comment holds exactly
    one entry for each id that some reference resolves to, by decoding a
    direct link or by a search, and no other entry.  The id decoded from a
    link is in the canonical notation, the id of a search result is taken
    as the search returns it: when the search returns its ids in the
    canonical notation as well, the list holds exactly one entry per
    canonical id. *)
Theorem resolve_pages_one_per_id (refs : TaskRefs) :
  let resolved pid :=
    (exists link, In link (notion_links refs) /\
                  page_id_from_notion_url link = Some pid) \/
    (exists tid url, In tid (task_ids refs) /\
                     search tid = Ok (Some (pid, url))) in
  ((forall tid, In tid (task_ids refs) -> exists r, search tid = Ok r) ->
   exists pages, resolve_pages W http_search w refs = Ok pages) /\
  (forall link pid,
      In link (notion_links refs) ->
      page_id_from_notion_url link = Some pid -> canonical_id pid) /\
  (forall pages,
      resolve_pages W http_search w refs = Ok pages ->
      NoDup (map fst pages) /\
      (forall pid, resolved pid <-> In pid (map fst pages)) /\
      ((forall tid pid url,
           In tid (task_ids refs) -> search tid = Ok (Some (pid, url)) ->
           canonical_id pid) ->
       NoDup (map canonical (map fst pages)) /\
       (forall pid, resolved pid ->
                    In (canonical pid) (map canonical (map fst pages))))).
Proof.
  intros resolved. unfold resolve_pages. split; [|split].
  - intros H. destruct (pages_of_task_ids_total _ H) as [found E].
    subst by_search. rewrite E. simpl. eauto.
  - intros link pid _ H. exact (page_id_canonical link pid H).
  - intros pages H.
    destruct (pages_of_task_ids W http_search w (task_ids refs))
      as [found|] eqn:E; simpl in H; [|discriminate].
    inversion H; subst; clear H.
    assert (Keys : forall pid,
               resolved pid <->
               In pid (map fst (dedup_pages
                                  (pages_of_links (notion_links refs)
                                     ++ found)))).
    { intros pid. rewrite dedup_pages_keys, map_app, in_app_iff.
      rewrite !in_map_iff. subst resolved. cbv beta. split.
      + intros [(link & Hl & Hp)|(tid & url & Ht & Hs)].
        * left. exists (pid, link). split; [reflexivity|].
          now apply pages_of_links_In.
        * right. exists (pid, url). split; [reflexivity|].
          apply (pages_of_task_ids_In _ _ _ E). eauto.
      + intros [([p l] & <- & I)|([p u] & <- & I)]; simpl.
        * left. exists l. now apply pages_of_links_In.
        * right. apply (pages_of_task_ids_In _ _ _ E) in I.
          destruct I as (tid & Ht & Hs). eauto. }
    split; [apply dedup_pages_NoDup|]. split; [exact Keys|].
    intros Hsearch. split.
    + apply NoDup_map_NoDup_ForallPairs; [|apply dedup_pages_NoDup].
      assert (C : forall pid,
                 In pid (map fst (dedup_pages
                                    (pages_of_links (notion_links refs)
                                       ++ found))) -> canonical_id pid).
      { intros pid I. apply Keys in I.
        destruct I as [(link & _ & Hp)|(tid & url & Ht & Hs)].
        - exact (page_id_canonical link pid Hp).
        - exact (Hsearch tid pid url Ht Hs). }
      intros a b Ia Ib. apply canonical_id_inj; auto.
    + intros pid R. apply in_map, Keys, R.
Qed.

(** C6, as the code has it. The merged entry of an id carries the URL of
    the last reference that resolved to it, and the search results are
    added after the direct links: for an id that a short code resolves to,
    the merged URL is the one synthesized from the id, with or without a
    direct link to the same id; a direct-link URL is kept only for an id
    that no short code resolves to. *)
Theorem merged_url_is_last_writer (refs : TaskRefs)
    (pages : list (string * string)) (pid : string) :
  resolve_pages W http_search w refs = Ok pages ->
  ((exists tid url, In tid (task_ids refs) /\
                    search tid = Ok (Some (pid, url))) ->
   forall u, In (pid, u) pages <-> u = public_url_of pid) /\
  ((forall tid url, In tid (task_ids refs) ->
                    search tid <> Ok (Some (pid, url))) ->
   forall u, In (pid, u) pages ->
             In u (notion_links refs) /\
             page_id_from_notion_url u = Some pid).
Proof.
  unfold resolve_pages. intros H.
  destruct (pages_of_task_ids W http_search w (task_ids refs))
    as [found|] eqn:E; simpl in H; [|discriminate].
  inversion H; subst; clear H. split.
  - intros (tid & url & Ht & Hs) u.
    rewrite dedup_pages_In, last_value_app.
    assert (I : In (pid, url) found)
      by (apply (pages_of_task_ids_In _ _ _ E); eauto).
    destruct (last_value found pid) as [v|] eqn:L.
    + apply last_value_In in L.
      rewrite (by_search_urls _ _ _ _ E L). split; congruence.
    + exfalso. apply last_value_None in L. apply L.
      apply in_map_iff. now exists (pid, url).
  - intros N u. rewrite dedup_pages_In, last_value_app.
    destruct (last_value found pid) as [v|] eqn:L.
    + exfalso. apply last_value_In in L.
      apply (pages_of_task_ids_In _ _ _ E) in L.
      destruct L as (tid & Ht & Hs). exact (N tid v Ht Hs).
    + intros I. apply last_value_In in I. now apply pages_of_links_In.
Qed.

End Search.


(** C7, as the specification states it, fails: the pull request of the
    README names [TASK-3374] and links its page; when the search answers
    with the id of that page without its hyphens, the list holds two
    entries for the one page, their ids of the same canonical form. *)
Lemma same_page_kept_twice :
  exists p q,
    resolve_pages unit (search_finds (remove_char "-" example_id)) tt
      example_refs = Ok [p; q] /\
    canonical (fst p) = canonical (fst q) /\
    canonical (fst p) = "25b6cafc5b5c801fba02ea17d3cc4b77".
Proof.
  exists (example_id, example_link),
    (remove_char "-" example_id,
     public_url_of (remove_char "-" example_id)).
  split; [vm_compute; reflexivity|]. split; vm_compute; reflexivity.
Qed.

Lemma resolve_pages_one_per_id_witness :
  exists pages,
    resolve_pages unit (search_finds example_id) tt example_refs = Ok pages /\
    NoDup (map canonical (map fst pages)) /\
    In (canonical example_id) (map canonical (map fst pages)).
Proof.
  destruct (resolve_pages_one_per_id unit (search_finds example_id) tt
              example_refs) as (Htotal & Hlink & Hone).
  destruct Htotal as [pages Hp].
  { intros tid _. eexists. reflexivity. }
  exists pages. split; [exact Hp|].
  destruct (Hone pages Hp) as (_ & _ & Hcanon).
  destruct Hcanon as [Hnodup Hkeys].
  { intros tid pid url _ E. injection E as <- _.
    exact (Hlink example_link example_id (or_introl eq_refl) eq_refl). }
  split; [exact Hnodup|].
  apply Hkeys. left. exists example_link. split; [now left | reflexivity].
Defined.

(** C6, as the specification states it, fails: the pull request of the
    README names [TASK-3374] and links its page; the link and the search
    resolve to the same id, and the merged entry carries the URL made from
    the id, not the link. *)
Lemma direct_link_not_retained :
  In example_link (notion_links example_refs) /\
  page_id_from_notion_url example_link = Some example_id /\
  In "TASK-3374" (task_ids example_refs) /\
  notion_search_page unit (search_finds example_id) tt "TASK-3374" =
    Ok (Some (example_id, public_url_of example_id)) /\
  resolve_pages unit (search_finds example_id) tt example_refs =
    Ok [(example_id, "https://www.notion.so/25b6cafc5b5c801fba02ea17d3cc4b77")]
  /\
  ~ (forall pages,
        resolve_pages unit (search_finds example_id) tt example_refs = Ok pages ->
        In (example_id, example_link) pages).
Proof.
  split; [now left|]. split; [reflexivity|]. split; [now left|].
  split; [reflexivity|]. split; [reflexivity|].
  intros H. specialize (H _ eq_refl). destruct H as [H|[]]. discriminate H.
Qed.

Lemma merged_url_is_last_writer_witness :
  In (example_id, public_url_of example_id)
     [(example_id, "https://www.notion.so/25b6cafc5b5c801fba02ea17d3cc4b77")] /\
  (In (example_id, example_link)
      [(example_id, "https://www.notion.so/25b6cafc5b5c801fba02ea17d3cc4b77")]
   -> example_link = public_url_of example_id).
Proof.
  assert (H : forall u,
             In (example_id, u)
               [(example_id,
                 "https://www.notion.so/25b6cafc5b5c801fba02ea17d3cc4b77")]
             <-> u = public_url_of example_id).
  { apply (proj1 (merged_url_is_last_writer unit (search_finds example_id) tt
                    example_refs _ example_id eq_refl)).
    exists "TASK-3374", (public_url_of example_id).
    split; [now left | reflexivity]. }
  split; [now apply H | apply H].
Defined.

(** ** The annotator *)

Lemma prefix_refl (s : string) : prefix s s = true.
Proof.
  induction s as [|c s IH]; simpl; [reflexivity|].
  destruct (ascii_dec c c); [assumption | contradiction].
Qed.

Lemma contains_refl (n : string) : contains n n = true.
Proof. destruct n; cbn [contains]; rewrite prefix_refl; reflexivity. Qed.

Lemma contains_append (n p : string) : contains n (p ++ n) = true.
Proof.
  induction p as [|c p IH].
  - apply contains_refl.
  - change (String c p ++ n) with (String c (p ++ n)).
    cbn [contains]. rewrite IH. apply orb_true_r.
Qed.

Lemma already_linked_observed (url : string) (children : list Block) :
  In (pr_bullet url) children ->
  already_linked url children <> Ok false /\
  (well_formed children -> already_linked url children = Ok true).
Proof.
  induction children as [|b rest IH]; intros H; [destruct H|].
  destruct H as [->|H].
  - change (already_linked url (pr_bullet url :: rest))
      with (if contains url ("PR: " ++ url) || false then Ok true
            else already_linked url rest).
    rewrite (contains_append url "PR: ").
    split; [discriminate | reflexivity].
  - specialize (IH H). destruct IH as [IH1 IH2]. cbn [already_linked].
    destruct (is_some_string (b_type b) "bulleted_list_item") eqn:T.
    + destruct (b_bulleted_list_item b) as [texts|] eqn:I.
      * destruct (existsb _ texts).
        -- split; [discriminate | reflexivity].
        -- split; [assumption|]. intros WF. inversion WF; subst. auto.
      * split; [discriminate|]. intros WF. inversion WF as [|? ? Hb ?]; subst.
        exfalso. now apply (Hb T).
    + split; [assumption|]. intros WF. inversion WF; subst. auto.
Qed.

Lemma already_linked_fresh (url : string) (children : list Block) :
  well_formed children ->
  Forall (fun b => ~ Notions.carries url b) children ->
  already_linked url children = Ok false.
Proof.
  intros WF. induction WF as [|b rest Hb _ IH]; intros Hn; [reflexivity|].
  inversion Hn as [|? ? Hnb Hnrest]; subst. cbn [already_linked].
  destruct (is_some_string (b_type b) "bulleted_list_item") eqn:T;
    [|exact (IH Hnrest)].
  destruct (b_bulleted_list_item b) as [texts|] eqn:I;
    [|exfalso; now apply Hb].
  destruct (existsb _ texts) eqn:X; [|exact (IH Hnrest)].
  exfalso. apply Hnb. split; [exact T|]. now exists texts.
Qed.

Lemma pr_bullet_carries (url : string) : Notions.carries url (pr_bullet url).
Proof.
  split; [reflexivity|]. eexists. split; [reflexivity|].
  cbn [existsb rt_content or_empty]. now rewrite (contains_append url "PR: ").
Qed.

(** C5. A record whose children, when the read of the first call is
    answered 200, are well formed and hold no bullet with a text that
    contains the back-reference, whatever else they hold: the first call
    of the annotator appends one block, the bullet [PR: <url>], a bullet
    with a text that contains the back-reference.  When the second call
    observes that child among the children of the record, it finds it,
    writes nothing, leaves the workspace as it is and returns normally:
    two calls append exactly one block in total. *)
Theorem annotate_twice_writes_once (W : Type)
    (http_get_children : W -> string -> option (Z * list Block))
    (http_patch_children :
       W -> string -> list Block -> W * option (Z * string))
    (w : W) (page_id pr_url : string) (st : Z) (before after : list Block) :
  http_get_children w page_id = Some (st, before) ->
  (st = 200%Z ->
   well_formed before /\
   Forall (fun b => ~ Notions.carries pr_url b) before) ->
  let w1 := fst (http_patch_children w page_id [pr_bullet pr_url]) in
  http_get_children w1 page_id = Some (200%Z, after) ->
  well_formed after ->
  In (pr_bullet pr_url) after ->
  Notions.carries pr_url (pr_bullet pr_url) /\
  exists ev1 out1,
    annotate_twice W http_get_children http_patch_children w page_id pr_url =
      (w1, (ev1, out1), ([], Ok tt)) /\
    written_blocks ev1 = [pr_bullet pr_url].
Proof.
  intros Hget Hbefore w1 Hget1 WFa Hin.
  split; [apply pr_bullet_carries|].
  assert (Hscan : already_linked pr_url
                    (if (st =? 200)%Z then before else []) = Ok false).
  { destruct (Z.eqb_spec st 200) as [E|_]; [|reflexivity].
    destruct (Hbefore E) as [WFb Hfresh].
    exact (already_linked_fresh pr_url before WFb Hfresh). }
  destruct (already_linked_observed pr_url after Hin) as [_ Hyes].
  specialize (Hyes WFa).
  unfold annotate_twice.
  assert (First : exists ev1 out1,
             notion_append_pr_bullet W http_get_children http_patch_children
               w page_id pr_url = (w1, ev1, out1) /\
             written_blocks ev1 = [pr_bullet pr_url]).
  { unfold notion_append_pr_bullet, notion_get_children.
    rewrite Hget.
    replace (if (st =? 200)%Z then Ok before else Ok [])
      with (@Ok (list Block) (if (st =? 200)%Z then before else []))
      by (destruct (st =? 200)%Z; reflexivity).
    rewrite Hscan. subst w1.
    destruct (http_patch_children w page_id [pr_bullet pr_url])
      as [w' [[st' text]|]]; cbn [fst].
    - destruct (300 <=? st')%Z; eauto.
    - eauto. }
  destruct First as (ev1 & out1 & -> & Hw).
  assert (Second :
            notion_append_pr_bullet W http_get_children http_patch_children
              w1 page_id pr_url = (w1, [], Ok tt)).
  { unfold notion_append_pr_bullet, notion_get_children. rewrite Hget1.
    cbn [Z.eqb Pos.eqb]. now rewrite Hyes. }
  rewrite Second. exists ev1, out1. auto.
Qed.

Lemma annotate_twice_writes_once_witness :
  exists ev1 out1,
    annotate_twice Store.t Store.get_children Store.patch_children
      Notions.used_page "page" "https://github.com/o/r/pull/108" =
    ([("page",
       [Notions.paragraph; pr_bullet "https://github.com/o/r/pull/7";
        pr_bullet "https://github.com/o/r/pull/108"])],
     (ev1, out1), ([], Ok tt)) /\
    written_blocks ev1 = [pr_bullet "https://github.com/o/r/pull/108"].
Proof.
  destruct (annotate_twice_writes_once Store.t Store.get_children
              Store.patch_children Notions.used_page "page"
              "https://github.com/o/r/pull/108" 200%Z
              [Notions.paragraph; pr_bullet "https://github.com/o/r/pull/7"]
              [Notions.paragraph; pr_bullet "https://github.com/o/r/pull/7";
               pr_bullet "https://github.com/o/r/pull/108"])
    as (_ & ev1 & out1 & E & Hw).
  - reflexivity.
  - intros _. split; [repeat constructor; discriminate|].
    repeat constructor.
    + intros [T _]. discriminate T.
    + intros [_ (texts & I & X)]. injection I as <-. discriminate X.
  - reflexivity.
  - repeat constructor; discriminate.
  - simpl. auto.
  - exists ev1, out1. split; [exact E | exact Hw].
Defined.

End LinkerFacts.

(* ================================================================== *)
(** * Properties of the digests and of the signature header *)
(* ================================================================== *)

Module DigestFacts.
Import Text Digest Spec.

Lemma code_inj (x y : ascii) : code x = code y -> x = y.
Proof.
  unfold code. intros H.
  rewrite <- (ascii_N_embedding x), <- (ascii_N_embedding y). now rewrite H.
Qed.

Lemma xor_acc_zero (a b : string) :
  length a = length b ->
  forall r, xor_acc a b r = 0%N <-> r = 0%N /\ a = b.
Proof.
  revert b; induction a as [|x a IH]; intros [|y b] L r; simpl in *;
    try discriminate.
  - tauto.
  - injection L as L. rewrite (IH b L).
    rewrite N.lor_eq_0_iff, N.lxor_eq_0_iff. split.
    + intros [[Hr Hc] ->]. apply code_inj in Hc. subst. auto.
    + intros [Hr H]. inversion H; subst. auto.
Qed.

(** The comparison in constant time decides equality. *)
Lemma timingSafeEq_eq (a b : string) : timingSafeEq a b = true <-> a = b.
Proof.
  unfold timingSafeEq.
  destruct (Nat.eqb_spec (length a) (length b)) as [L|L]; simpl.
  - rewrite N.eqb_eq, (xor_acc_zero a b L). tauto.
  - split; [discriminate | intros ->; contradiction].
Qed.

Lemma timingSafeEq_neq (a b : string) : a <> b -> timingSafeEq a b = false.
Proof.
  intros N. destruct (timingSafeEq a b) eqn:E; [|reflexivity].
  apply timingSafeEq_eq in E. contradiction.
Qed.

Lemma timingSafeEq_length (a b : string) :
  length a <> length b -> timingSafeEq a b = false.
Proof. intros N. apply timingSafeEq_neq. intros ->. contradiction. Qed.

(** ** [split] and the value that is compared *)

Lemma split_head (s : string) :
  exists rest, split "=" s = up_to_eq s :: rest.
Proof.
  induction s as [|c s [rest IH]]; simpl.
  - now exists [].
  - destruct (c =? "=")%char; [eauto|]. rewrite IH. eauto.
Qed.

Lemma split_second (s : string) :
  nth 1 (split "=" s) EmptyString = up_to_eq (after_first_eq s).
Proof.
  induction s as [|c s IH]; simpl; [reflexivity|].
  destruct (c =? "=")%char.
  - destruct (split_head s) as [rest ->]. reflexivity.
  - destruct (split_head s) as [rest E]. rewrite E in *. exact IH.
Qed.

(** The value the handlers compare: the text between the first [=] of the
    header and the second. *)
Lemma provided_of_spec (header : string) :
  provided_of header =
  if contains "=" header then up_to_eq (after_first_eq header) else header.
Proof. unfold provided_of. now rewrite split_second. Qed.

Lemma prefix_empty (s : string) : prefix EmptyString s = true.
Proof. now destruct s. Qed.

Lemma contains_eq_sign (s : string) :
  contains "=" s = false <-> up_to_eq s = s.
Proof.
  induction s as [|c s IH]; cbn [contains up_to_eq prefix].
  - tauto.
  - destruct (ascii_dec "=" c) as [<-|N].
    + rewrite prefix_empty. simpl. split; discriminate.
    + destruct (Ascii.eqb_spec c "=") as [->|_]; [contradiction|].
      simpl. rewrite IH. split; [now intros -> | now intros [= ->]].
Qed.

Lemma up_to_eq_shorter (s : string) (d : option ascii) :
  s <> EmptyString -> last_char d s = Some "="%char ->
  length (up_to_eq s) < length s.
Proof.
  revert d; induction s as [|c s IH]; intros d N L; [contradiction|].
  simpl in *. destruct (Ascii.eqb_spec c "=") as [->|Nc]; simpl; [lia|].
  destruct s as [|c' s]; [simpl in L; congruence|].
  assert (String c' s <> EmptyString) by discriminate.
  specialize (IH (Some c) H L). lia.
Qed.

(** The Base64 text of a SHA-1 digest has 28 characters, of a SHA-256 digest
    44, and both end in the padding [=]. *)
Lemma b64_of_20_bytes (bytes : list Byte.byte) :
  List.length bytes = 20 ->
  length (bytesToB64 bytes) = 28 /\
  last_char None (bytesToB64 bytes) = Some "="%char.
Proof.
  intros H.
  do 20 (destruct bytes as [|? bytes]; [discriminate H|]).
  destruct bytes; [split; reflexivity | discriminate H].
Qed.

Lemma b64_of_32_bytes (bytes : list Byte.byte) :
  List.length bytes = 32 ->
  length (bytesToB64 bytes) = 44 /\
  last_char None (bytesToB64 bytes) = Some "="%char.
Proof.
  intros H.
  do 32 (destruct bytes as [|? bytes]; [discriminate H|]).
  destruct bytes; [split; reflexivity | discriminate H].
Qed.

Lemma hex_length (bytes : list Byte.byte) :
  length (bytesToHex bytes) = 2 * List.length bytes.
Proof. induction bytes as [|b bytes IH]; simpl; [reflexivity | lia]. Qed.

Lemma after_sha1_prefix (e : string) :
  contains "=" ("sha1=" ++ e) = true /\ after_first_eq ("sha1=" ++ e) = e.
Proof.
  split; [|reflexivity].
  cbn. rewrite prefix_empty. reflexivity.
Qed.

End DigestFacts.

(* ================================================================== *)
(** * Properties of the two handlers *)
(* ================================================================== *)

Module WorkerFacts.
Import Text Digest Http Spec Examples DigestFacts.

Section Handlers.

Variable P : Platform.

(** ** Authentication *)

Lemma verify_length (bodyText secret header : string) :
  length (provided_of header) <>
  length (bytesToB64 (hmac_sha1 P secret bodyText)) ->
  Worker.verifyHmacSha1Base64 P bodyText secret header = false.
Proof.
  intros N. unfold Worker.verifyHmacSha1Base64, Worker.timingSafeEqualB64.
  now apply timingSafeEq_length.
Qed.

Lemma signature_ok_short (rawBody secret header : string) :
  digest_sizes P ->
  length (provided_of header) < 28 ->
  WorkerExt.signature_ok P rawBody secret header = false.
Proof.
  intros D L. unfold WorkerExt.signature_ok, WorkerExt.computeHmacs.
  cbn [b64 hex sha1 sha256].
  destruct (D secret rawBody) as [D1 D256].
  destruct (b64_of_20_bytes _ D1) as [L1 _].
  destruct (b64_of_32_bytes _ D256) as [L256 _].
  rewrite !timingSafeEq_length; [reflexivity | | | |];
    rewrite ?hex_length, ?D1, ?D256, ?L1, ?L256; lia.
Qed.

(** C1, where the code departs from it. A header [sha1=<digest>] whose
    digest is the Base64 text of the HMAC-SHA1 of the body: all that follows
    the first [=] is the expected digest, yet both handlers compare only the
    text before the padding [=] of the digest, and reject the request. *)
Theorem prefixed_base64_signature_rejected (bodyText secret : string) :
  digest_sizes P ->
  let expected := bytesToB64 (hmac_sha1 P secret bodyText) in
  let header := "sha1=" ++ expected in
  after_first_eq header = expected /\
  provided_of header = up_to_eq expected /\
  length (provided_of header) < length expected /\
  Worker.verifyHmacSha1Base64 P bodyText secret header = false /\
  WorkerExt.signature_ok P bodyText secret header = false.
Proof.
  intros D expected header.
  destruct (D secret bodyText) as [D1 _].
  destruct (b64_of_20_bytes _ D1) as [L1 Last]. fold expected in L1, Last.
  destruct (after_sha1_prefix expected) as [C A]. fold header in C, A.
  assert (E : provided_of header = up_to_eq expected)
    by (rewrite provided_of_spec, C, A; reflexivity).
  assert (S : length (provided_of header) < length expected).
  { rewrite E. apply (up_to_eq_shorter expected None); [|assumption].
    intros Z. rewrite Z in L1. discriminate L1. }
  repeat split; try assumption.
  - apply verify_length. fold expected. lia.
  - apply signature_ok_short; [assumption | lia].
Qed.

(** The handlers reject a request whose signature header is absent. *)
Lemma absent_header_rejected (request : Request) (secret : string) :
  digest_sizes P ->
  headers_get (headers request) "expo-signature" = None ->
  Worker.verifyHmacSha1Base64 P (body request) secret
    (js_or (headers_get (headers request) "expo-signature") EmptyString)
  = false /\
  WorkerExt.signature_ok P (body request) secret
    (WorkerExt.sigHeader_of request) = false.
Proof.
  intros D H. unfold WorkerExt.sigHeader_of.
  change (headers_get (headers request) "Expo-Signature")
    with (headers_get (headers request) "expo-signature").
  rewrite H. cbn [js_or]. split.
  - apply verify_length. destruct (D secret (body request)) as [D1 _].
    destruct (b64_of_20_bytes _ D1) as [-> _]. discriminate.
  - apply signature_ok_short; [assumption | simpl; lia].
Qed.

Lemma handled_path (request : Request) :
  In (pathname request) WorkerExt.HANDLED_PATHS ->
  existsb (String.eqb (pathname request)) WorkerExt.HANDLED_PATHS = true.
Proof.
  intros H. apply existsb_exists. exists (pathname request).
  split; [assumption | apply String.eqb_refl].
Qed.

(** C2. A [POST] for which a webhook secret is configured and the
    signature check fails is answered with status 401 by both handlers,
    which by then have neither parsed the body nor called Notion, Slack or
    GitHub; and the check fails when the signature header is absent. *)
Theorem rejected_before_parsing (request : Request) (env : Env)
    (secret : string) :
  method request = "POST" ->
  EXPO_WEBHOOK_SECRET env = Some secret ->
  nonempty secret = true ->
  (Worker.verifyHmacSha1Base64 P (body request) secret
     (js_or (headers_get (headers request) "expo-signature") EmptyString)
   = false ->
   exists r, Worker.fetch P request env = ([], Responded r) /\
             status r = 401%Z) /\
  (In (pathname request) WorkerExt.HANDLED_PATHS ->
   WorkerExt.signature_ok P (body request) secret
     (WorkerExt.sigHeader_of request) = false ->
   exists r, WorkerExt.fetch P request env = ([], Responded r) /\
             status r = 401%Z) /\
  (digest_sizes P ->
   headers_get (headers request) "expo-signature" = None ->
   (exists r, Worker.fetch P request env = ([], Responded r) /\
              status r = 401%Z) /\
   (In (pathname request) WorkerExt.HANDLED_PATHS ->
    exists r, WorkerExt.fetch P request env = ([], Responded r) /\
              status r = 401%Z)).
Proof.
  intros M S N.
  assert (A : Worker.verifyHmacSha1Base64 P (body request) secret
                (js_or (headers_get (headers request) "expo-signature")
                   EmptyString) = false ->
              exists r, Worker.fetch P request env = ([], Responded r) /\
                        status r = 401%Z).
  { intros V. unfold Worker.fetch. rewrite M, S, N, V. cbn.
    eexists. split; reflexivity. }
  assert (B : In (pathname request) WorkerExt.HANDLED_PATHS ->
              WorkerExt.signature_ok P (body request) secret
                (WorkerExt.sigHeader_of request) = false ->
              exists r, WorkerExt.fetch P request env = ([], Responded r) /\
                        status r = 401%Z).
  { intros H V. unfold WorkerExt.fetch.
    rewrite (handled_path request H), M, S, N, V. cbn.
    eexists. split; reflexivity. }
  split; [exact A|]. split; [exact B|].
  intros D H. destruct (absent_header_rejected request secret D H) as [V1 V2].
  split; [now apply A | intros Hp; now apply B].
Qed.

(** ** The order of the comparisons *)

(** C3, as the code has it. The extended handler compares the provided
    value with the SHA-1 digest first, in Base64 and then in hexadecimal;
    it compares with a SHA-256 digest only when both comparisons with SHA-1
    have failed; and it accepts the signature exactly when the provided
    value is one of the four digests. *)
Theorem sha1_compared_before_sha256 (rawBody secret header : string) :
  let exp := WorkerExt.computeHmacs P rawBody secret in
  let provided := provided_of header in
  let order := attempts provided (candidates exp) in
  WorkerExt.signature_ok P rawBody secret header =
    any_match provided (candidates exp) /\
  (exists rest, order = (SHA1, B64) :: rest) /\
  (forall enc, In (SHA256, enc) order ->
               In (SHA1, B64) order /\ In (SHA1, HEX) order /\
               provided <> b64 (sha1 exp) /\ provided <> hex (sha1 exp)) /\
  (WorkerExt.signature_ok P rawBody secret header = true <->
   provided = b64 (sha1 exp) \/ provided = hex (sha1 exp) \/
   provided = b64 (sha256 exp) \/ provided = hex (sha256 exp)).
Proof.
  intros exp provided order. subst order.
  unfold WorkerExt.signature_ok. fold exp provided.
  unfold candidates. cbn [attempts any_match].
  pose proof (timingSafeEq_eq provided (b64 (sha1 exp))) as T1.
  pose proof (timingSafeEq_eq provided (hex (sha1 exp))) as T2.
  pose proof (timingSafeEq_eq provided (b64 (sha256 exp))) as T3.
  pose proof (timingSafeEq_eq provided (hex (sha256 exp))) as T4.
  destruct (timingSafeEq provided (b64 (sha1 exp)));
    destruct (timingSafeEq provided (hex (sha1 exp)));
    destruct (timingSafeEq provided (b64 (sha256 exp)));
    destruct (timingSafeEq provided (hex (sha256 exp)));
    cbn [orb];
    (split; [reflexivity|]); (split; [eexists; reflexivity|]);
    (split; [|intuition congruence]);
    intros enc H; simpl in H;
    repeat (destruct H as [H|H]; [discriminate H|]); try destruct H;
    (split; [simpl; auto|]); (split; [simpl; auto|]);
    split; intros Heq;
    first [apply T1 in Heq | apply T2 in Heq]; discriminate Heq.
Qed.

(** ** The outcome of the dispatch *)

Lemma not_ok_status (reply : Reply) :
  ok reply = false -> (reply_status reply < 200 \/ 299 < reply_status reply)%Z.
Proof. unfold ok. rewrite andb_false_iff, !Z.leb_gt. tauto. Qed.

Lemma worker_dispatch_failure (env : Env)
    (st buildUrl gitRef commitMessage : Field) (taskId notionUrl : string)
    (events : list Event) (out : Outcome) :
  Worker.dispatch P env st buildUrl gitRef commitMessage taskId notionUrl =
    (events, out) ->
  failure_surfaced P events out.
Proof.
  unfold Worker.dispatch, failure_surfaced.
  destruct (lower (js_or (DISPATCH_TO_GITHUB env) "") =? "true")%string;
    [destruct (negb (js_truthy (GH_REPO_DISPATCH_TOKEN env)))
    |destruct (negb (js_truthy (SLACK_WEBHOOK_URL env)))];
    intros H; injection H as <- <-; split; intros *; intros I E N;
    simpl in I; try (destruct I; fail); destruct I as [I|[]];
    first [ discriminate I
          | inversion I; subst; rewrite E, N; cbn [negb];
            first [ reflexivity
                  | split; [reflexivity | now apply not_ok_status] ] ].
Qed.

Lemma ext_dispatch_failure (env : Env)
    (st buildUrl gitRef commitMessage : Field)
    (taskId notionUrl profile : string)
    (events : list Event) (out : Outcome) :
  WorkerExt.dispatch P env st buildUrl gitRef commitMessage taskId notionUrl
    profile = (events, out) ->
  failure_surfaced P events out.
Proof.
  unfold WorkerExt.dispatch, failure_surfaced.
  destruct (lower (js_or (DISPATCH_TO_GITHUB env) "") =? "true")%string;
    [destruct (negb (js_truthy (GH_REPO_DISPATCH_TOKEN env)))
    |destruct (negb (js_truthy (SLACK_WEBHOOK_URL env)))];
    intros H; injection H as <- <-; split; intros *; intros I E N;
    simpl in I; try (destruct I; fail); destruct I as [I|[]];
    first [ discriminate I
          | inversion I; subst; rewrite E, N; cbn [negb];
            first [ reflexivity
                  | split; [reflexivity | now apply not_ok_status] ] ].
Qed.

Lemma failure_surfaced_nil (out : Outcome) : failure_surfaced P [] out.
Proof. split; intros *; intros []. Qed.

Lemma failure_surfaced_app (pre events : list Event) (out : Outcome) :
  Forall (fun e => is_dispatch e = false) pre ->
  failure_surfaced P events out ->
  failure_surfaced P (pre ++ events) out.
Proof.
  intros F [S G]. rewrite Forall_forall in F.
  split; intros *; intros I; apply in_app_iff in I as [I|I];
    try (apply F in I; discriminate I); eauto.
Qed.

Lemma worker_notion_events (taskId : string) (env : Env) :
  Forall (fun e => is_dispatch e = false)
    (fst (Worker.resolve_notion P taskId env)).
Proof.
  unfold Worker.resolve_notion.
  destruct (nonempty taskId && js_truthy (NOTION_TOKEN env)); simpl;
    repeat constructor.
Qed.

Lemma ext_notion_events (taskId : string) (env : Env) :
  Forall (fun e => is_dispatch e = false)
    (fst (WorkerExt.resolve_notion P taskId env)).
Proof.
  unfold WorkerExt.resolve_notion.
  destruct (nonempty taskId && js_truthy (NOTION_TOKEN env)); simpl;
    repeat constructor.
Qed.

Lemma worker_relay_failure (request : Request) (env : Env)
    (events : list Event) (out : Outcome) :
  Worker.relay P request env = (events, out) -> failure_surfaced P events out.
Proof.
  unfold Worker.relay.
  match goal with
  | |- context [Worker.resolve_notion P ?t env] =>
      pose proof (worker_notion_events t env) as F;
      destruct (Worker.resolve_notion P t env) as [ev_notion notionUrl]
  end.
  match goal with
  | |- context [Worker.dispatch P env ?a ?b ?c ?d ?e ?f] =>
      destruct (Worker.dispatch P env a b c d e f) as [ev_dispatch o] eqn:D
  end.
  intros H; injection H as <- <-.
  apply (failure_surfaced_app (EvParseJson (body request) :: ev_notion)
           ev_dispatch).
  - constructor; [reflexivity | exact F].
  - exact (worker_dispatch_failure _ _ _ _ _ _ _ _ _ D).
Qed.

Lemma ext_relay_failure (rawBody : string) (env : Env)
    (events : list Event) (out : Outcome) :
  WorkerExt.relay P rawBody env = (events, out) ->
  failure_surfaced P events out.
Proof.
  unfold WorkerExt.relay.
  destruct (toLowerCase _) as [lowered|];
    [destruct (negb (lowered =? "preview")%string)|].
  - intros H; injection H as <- <-.
    apply (failure_surfaced_app [EvParseJson rawBody] []);
      [repeat constructor | apply failure_surfaced_nil].
  - match goal with
    | |- context [WorkerExt.resolve_notion P ?t env] =>
        pose proof (ext_notion_events t env) as F;
        destruct (WorkerExt.resolve_notion P t env) as [ev_notion notionUrl]
    end.
    match goal with
    | |- context [WorkerExt.dispatch P env ?a ?b ?c ?d ?e ?f ?g] =>
        destruct (WorkerExt.dispatch P env a b c d e f g)
          as [ev_dispatch o] eqn:D
    end.
    intros H; injection H as <- <-.
    apply (failure_surfaced_app (EvParseJson rawBody :: ev_notion)
             ev_dispatch).
    + constructor; [reflexivity | exact F].
    + exact (ext_dispatch_failure _ _ _ _ _ _ _ _ _ _ D).
  - intros H; injection H as <- <-.
    apply (failure_surfaced_app [EvParseJson rawBody] []);
      [repeat constructor | apply failure_surfaced_nil].
Qed.

(** C4, as the code has it. Whatever the request: when the handler has
    called its destination and the call returned without success, the
    handler answers with an error that carries the text of the failure, with
    status 500 when the destination is Slack, and with the status GitHub
    returned, which is no 2xx, when the destination is GitHub (where no
    response can be built with that status, the handler throws). *)
Theorem dispatch_failure_surfaced (request : Request) (env : Env) :
  failure_surfaced P (fst (Worker.fetch P request env))
    (snd (Worker.fetch P request env)) /\
  failure_surfaced P (fst (WorkerExt.fetch P request env))
    (snd (WorkerExt.fetch P request env)).
Proof.
  split.
  - unfold Worker.fetch.
    destruct (negb (method request =? "POST")%string);
      [apply failure_surfaced_nil|].
    match goal with
    | |- context [if ?b then _ else _] => destruct b
    end; [apply failure_surfaced_nil|].
    apply (worker_relay_failure request env), surjective_pairing.
  - unfold WorkerExt.fetch.
    destruct (negb (existsb _ _)); [apply failure_surfaced_nil|].
    destruct (method request =? "GET")%string; [apply failure_surfaced_nil|].
    destruct (negb (method request =? "POST")%string);
      [apply failure_surfaced_nil|].
    match goal with
    | |- context [if ?b then _ else _] => destruct b
    end; [apply failure_surfaced_nil|].
    apply (ext_relay_failure (body request) env), surjective_pairing.
Qed.

(** ** The profile filter *)



End Handlers.

(** ** The handlers at work *)

Lemma example_digest_sizes (parsed : option Payload) (gh slack : option Reply) :
  digest_sizes (example_platform parsed gh slack).
Proof. intros key msg. split; reflexivity. Qed.

Lemma prefixed_base64_signature_rejected_witness :
  after_first_eq "sha1=AAAAAAAAAAAAAAAAAAAAAAAAAAA=" =
    "AAAAAAAAAAAAAAAAAAAAAAAAAAA=" /\
  provided_of "sha1=AAAAAAAAAAAAAAAAAAAAAAAAAAA=" =
    "AAAAAAAAAAAAAAAAAAAAAAAAAAA" /\
  Worker.verifyHmacSha1Base64 (example_platform None None None) "{}" "secret"
    "sha1=AAAAAAAAAAAAAAAAAAAAAAAAAAA=" = false /\
  WorkerExt.signature_ok (example_platform None None None) "{}" "secret"
    "sha1=AAAAAAAAAAAAAAAAAAAAAAAAAAA=" = false.
Proof.
  destruct (prefixed_base64_signature_rejected
              (example_platform None None None) "{}" "secret"
              (example_digest_sizes None None None))
    as (A & E & _ & V & V').
  split; [exact A|]. split; [exact E|]. split; [exact V | exact V'].
Defined.

Lemma rejected_before_parsing_witness :
  (exists r,
      Worker.fetch (example_platform None None None) (example_request [])
        (example_env (Some "secret") None) = ([], Responded r) /\
      status r = 401%Z) /\
  (exists r,
      WorkerExt.fetch (example_platform None None None) (example_request [])
        (example_env (Some "secret") None) = ([], Responded r) /\
      status r = 401%Z).
Proof.
  destruct (rejected_before_parsing (example_platform None None None)
              (example_request []) (example_env (Some "secret") None)
              "secret" eq_refl eq_refl eq_refl) as (_ & _ & H).
  destruct (H (example_digest_sizes None None None) eq_refl) as [H1 H2].
  split; [exact H1|]. apply H2. right. left. reflexivity.
Defined.

(** C3, as the specification states it, fails: for a value that matches no
    digest the four comparisons are made with SHA-1 first, and for a value
    that is the Base64 SHA-1 digest no comparison with SHA-256 is made. *)
Lemma sha1_is_compared_first :
  attempts "x"
    (candidates (WorkerExt.computeHmacs (example_platform None None None)
                   "{}" "secret")) =
    [(SHA1, B64); (SHA1, HEX); (SHA256, B64); (SHA256, HEX)] /\
  attempts "AAAAAAAAAAAAAAAAAAAAAAAAAAA="
    (candidates (WorkerExt.computeHmacs (example_platform None None None)
                   "{}" "secret")) = [(SHA1, B64)] /\
  ~ strongest_first
      (attempts "x"
         (candidates (WorkerExt.computeHmacs (example_platform None None None)
                        "{}" "secret"))).
Proof.
  split; [reflexivity|]. split; [reflexivity|].
  intros (enc & rest & H). discriminate H.
Qed.

(** C4, as the specification states it, fails: GitHub answers the dispatch
    with 404, and the handler answers with 404, not with 500. *)
Lemma github_failure_keeps_status :
  snd (Worker.fetch
         (example_platform (Some empty_payload)
            (Some {| reply_status := 404; reply_text := "Not Found" |}) None)
         (example_request []) (example_env None (Some "true"))) =
    Responded
      {| status := 404;
         content := Some [("error", VStr "GitHub dispatch failed");
                          ("detail", VStr "Not Found")];
         content_type := Some "application/json" |} /\
  (forall r,
      snd (Worker.fetch
             (example_platform (Some empty_payload)
                (Some {| reply_status := 404; reply_text := "Not Found" |})
                None)
             (example_request []) (example_env None (Some "true"))) =
        Responded r ->
      status r <> 500%Z).
Proof.
  split; [reflexivity|].
  intros r H. injection H as <-. discriminate.
Qed.

Lemma dispatch_failure_surfaced_witness :
  snd (Worker.fetch
         (example_platform (Some empty_payload) None
            (Some {| reply_status := 503; reply_text := "unavailable" |}))
         (example_request []) (example_env None None)) =
    Responded
      {| status := 500;
         content := Some [("error", VStr "Slack error");
                          ("detail", VStr "unavailable")];
         content_type := Some "application/json" |}.
Proof.
  destruct (dispatch_failure_surfaced
              (example_platform (Some empty_payload) None
                 (Some {| reply_status := 503; reply_text := "unavailable" |}))
              (example_request []) (example_env None None)) as [[S _] _].
  apply (S "https://hooks.slack.com/services/T/B/X"
           (Worker.slack_text (FStr "unknown") (FStr "") (FStr "") "" ""
             (FStr ""))
           {| reply_status := 503; reply_text := "unavailable" |});
    [|reflexivity|reflexivity].
  right. left. reflexivity.
Defined.



End WorkerFacts.

(* ================================================================== *)
(** * Further properties of the digests *)
(* ================================================================== *)

Module DigestExtras.
Import Text Digest Http Spec Examples Notions DigestFacts.
Ltac byte_cases b := destruct b.

Lemma example_digest_sizes_any (parsed : option Payload)
    (gh slack : option Reply) :
  digest_sizes (example_platform parsed gh slack).
Proof. intros key msg. split; reflexivity. Qed.

(** X1. The comparison in constant time decides equality of texts: it
    answers [true] exactly when the two texts are the same, in the extended
    worker ([timingSafeEq]) and in the plain one ([timingSafeEqualB64]), and
    the order of its arguments does not matter. *)
Theorem timingSafeEq_decides_equality (a b : string) :
  (timingSafeEq a b = true <-> a = b) /\
  (Worker.timingSafeEqualB64 a b = true <-> a = b) /\
  timingSafeEq a b = timingSafeEq b a.
Proof.
  split; [apply timingSafeEq_eq|]. split; [apply timingSafeEq_eq|].
  destruct (timingSafeEq a b) eqn:E.
  - apply timingSafeEq_eq in E. subst. symmetry. now apply timingSafeEq_eq.
  - symmetry. apply timingSafeEq_neq. intros ->.
    rewrite (proj2 (timingSafeEq_eq a a) eq_refl) in E. discriminate E.
Qed.

Lemma hex_byte (b : Byte.byte) :
  let n := Byte.to_N b in
  hex_value (hex_digit (n / 16)) = Some (n / 16)%N /\
  hex_value (hex_digit (n mod 16)) = Some (n mod 16)%N /\
  Byte.of_N (n / 16 * 16 + n mod 16) = Some b /\
  (hex_digit (n / 16) =? "=")%char = false /\
  (hex_digit (n mod 16) =? "=")%char = false.
Proof. byte_cases b; vm_compute; repeat split. Qed.

(** X2. [bytesToHex] writes two digits for each byte, all of them among
    [0-9a-f]; decoding the digits two by two gives the bytes back, so two
    different digests never have the same text. *)
Theorem bytesToHex_round_trip (bytes : list Byte.byte) :
  length (bytesToHex bytes) = 2 * List.length bytes /\
  forall_chars (fun c => is_digit c || in_range "a" "f" c) (bytesToHex bytes)
    = true /\
  unhex (bytesToHex bytes) = Some bytes /\
  (forall other, bytesToHex other = bytesToHex bytes -> other = bytes).
Proof.
  assert (R : forall l, unhex (bytesToHex l) = Some l).
  { induction l as [|b l IH]; [reflexivity|].
    destruct (hex_byte b) as (H1 & H2 & H3 & _).
    cbn [bytesToHex unhex]. cbv zeta. rewrite H1, H2, IH, H3. reflexivity. }
  split; [apply hex_length|]. split; [|split; [apply R|]].
  - induction bytes as [|b bytes IH]; [reflexivity|].
    cbn [bytesToHex forall_chars]. rewrite IH.
    destruct (hex_byte b) as (H1 & H2 & _).
    unfold hex_value in H1, H2.
    destruct (is_digit (hex_digit (Byte.to_N b / 16)));
      destruct (is_digit (hex_digit (Byte.to_N b mod 16)));
      destruct (in_range "a" "f" (hex_digit (Byte.to_N b / 16)));
      destruct (in_range "a" "f" (hex_digit (Byte.to_N b mod 16)));
      try discriminate; reflexivity.
  - intros other E. pose proof (R other) as Ro. rewrite E, R in Ro.
    now inversion Ro.
Qed.

Lemma list_ind3 (A : Type) (Q : list A -> Prop) :
  Q [] -> (forall a, Q [a]) -> (forall a b, Q [a; b]) ->
  (forall a b c rest, Q rest -> Q (a :: b :: c :: rest)) ->
  forall l, Q l.
Proof.
  intros H0 H1 H2 H3.
  assert (G : forall n l, List.length l <= n -> Q l).
  { induction n as [|n IH]; intros [|a [|b [|c rest]]] L; auto;
      simpl in L; try lia.
    apply H3, IH. lia. }
  intros l. now apply (G (List.length l)).
Qed.

Lemma b64_digit_small (v : N) :
  (v < 64)%N ->
  is_b64_digit (b64_digit v) = true /\ (b64_digit v =? "=")%char = false.
Proof.
  intros H. rewrite <- (N2Nat.id v).
  assert (L : N.to_nat v < 64) by lia. revert L.
  generalize (N.to_nat v) as n. intros n L.
  do 64 (destruct n as [|n]; [vm_compute; split; reflexivity|]). lia.
Qed.

Lemma byte_quarters (a b : Byte.byte) :
  let x := Byte.to_N a in
  let y := Byte.to_N b in
  (x / 4 < 64 /\ x mod 4 * 16 < 64 /\ x mod 4 * 16 + y / 16 < 64 /\
   y mod 16 * 4 < 64 /\ y mod 16 * 4 + x / 64 < 64 /\ x mod 64 < 64)%N.
Proof.
  intros x y.
  pose proof (Byte.to_N_bounded a) as Ha. fold x in Ha.
  pose proof (Byte.to_N_bounded b) as Hb. fold y in Hb.
  assert (x / 4 < 64)%N by (apply N.Div0.div_lt_upper_bound; lia).
  assert (y / 16 < 16)%N by (apply N.Div0.div_lt_upper_bound; lia).
  assert (x / 64 < 4)%N by (apply N.Div0.div_lt_upper_bound; lia).
  pose proof (N.mod_lt x 4). pose proof (N.mod_lt y 16).
  pose proof (N.mod_lt x 64). lia.
Qed.

Lemma contains_eq_cons (c : ascii) (s : string) :
  contains "=" (String c s) = (c =? "=")%char || contains "=" s.
Proof.
  cbn [contains prefix].
  destruct (ascii_dec "=" c) as [<-|N].
  - now rewrite prefix_empty.
  - destruct (Ascii.eqb_spec c "=") as [->|_]; [contradiction | reflexivity].
Qed.

(** X3. The Base64 text of [n] bytes has [4 * ceil (n / 3)] characters, all
    of them digits of the Base64 alphabet or the padding [=], and it holds
    a padding [=] exactly when [n] is no multiple of 3. *)
Theorem bytesToB64_shape (bytes : list Byte.byte) :
  length (bytesToB64 bytes) = 4 * ((List.length bytes + 2) / 3) /\
  forall_chars is_b64_char (bytesToB64 bytes) = true /\
  contains "=" (bytesToB64 bytes) =
    negb (Nat.eqb (List.length bytes mod 3) 0).
Proof.
  induction bytes as [|a|a b|a b c rest IH] using list_ind3.
  - repeat split.
  - destruct (byte_quarters a a) as (H1 & H2 & _).
    destruct (b64_digit_small _ H1) as [D1 E1].
    destruct (b64_digit_small _ H2) as [D2 E2].
    cbn [bytesToB64]. cbv zeta.
    split; [reflexivity|]. split.
    + cbn [forall_chars]. unfold is_b64_char at 1 2. now rewrite D1, D2.
    + rewrite !contains_eq_cons, E1, E2. reflexivity.
  - destruct (byte_quarters a b) as (H1 & _ & H2 & _).
    destruct (byte_quarters b b) as (_ & _ & _ & H3 & _).
    destruct (b64_digit_small _ H1) as [D1 E1].
    destruct (b64_digit_small _ H2) as [D2 E2].
    destruct (b64_digit_small _ H3) as [D3 E3].
    cbn [bytesToB64]. cbv zeta.
    split; [reflexivity|]. split.
    + cbn [forall_chars]. unfold is_b64_char at 1 2 3.
      now rewrite D1, D2, D3.
    + rewrite !contains_eq_cons, E1, E2, E3. reflexivity.
  - destruct IH as (L & F & C).
    destruct (byte_quarters a b) as (H1 & _ & H2 & _).
    destruct (byte_quarters c b) as (_ & _ & _ & _ & H3 & H4).
    destruct (b64_digit_small _ H1) as [D1 E1].
    destruct (b64_digit_small _ H2) as [D2 E2].
    destruct (b64_digit_small _ H3) as [D3 E3].
    destruct (b64_digit_small _ H4) as [D4 E4].
    cbn [bytesToB64]. cbv zeta.
    assert (A : List.length (a :: b :: c :: rest) = List.length rest + 1 * 3)
      by (simpl; lia).
    split; [|split].
    + rewrite A. cbn [length]. rewrite L.
      replace (List.length rest + 1 * 3 + 2)
        with (List.length rest + 2 + 1 * 3) by lia.
      rewrite Nat.div_add by lia. lia.
    + cbn [forall_chars]. unfold is_b64_char at 1 2 3 4.
      now rewrite D1, D2, D3, D4, F.
    + rewrite !contains_eq_cons, E1, E2, E3, E4, C, A.
      rewrite Nat.Div0.mod_add. reflexivity.
Qed.

(** ** The value that is compared never holds an [=] *)

Lemma up_to_eq_plain (s : string) : contains "=" (up_to_eq s) = false.
Proof.
  induction s as [|c s IH]; [reflexivity|]. cbn [up_to_eq].
  destruct (c =? "=")%char eqn:E; [reflexivity|].
  now rewrite contains_eq_cons, E, IH.
Qed.

Lemma provided_of_plain_text (header : string) :
  contains "=" (provided_of header) = false.
Proof.
  rewrite provided_of_spec.
  destruct (contains "=" header) eqn:E; [apply up_to_eq_plain | exact E].
Qed.

Lemma last_char_contains (s : string) (d : option ascii) :
  s <> EmptyString -> last_char d s = Some "="%char -> contains "=" s = true.
Proof.
  revert d; induction s as [|c s IH]; intros d N L; [contradiction|].
  rewrite contains_eq_cons. destruct s as [|c' s].
  - simpl in L. injection L as ->. reflexivity.
  - rewrite (IH (Some c)); [apply orb_true_r | discriminate | exact L].
Qed.

Lemma hex_plain_text (bytes : list Byte.byte) :
  contains "=" (bytesToHex bytes) = false.
Proof.
  induction bytes as [|b bytes IH]; [reflexivity|].
  destruct (hex_byte b) as (_ & _ & _ & E1 & E2).
  cbn [bytesToHex]. cbv zeta. now rewrite !contains_eq_cons, E1, E2, IH.
Qed.

Lemma contains_app_eq (p s : string) :
  contains "=" (p ++ String "=" s) = true.
Proof.
  induction p as [|c p IH].
  - change (EmptyString ++ String "=" s) with (String "=" s).
    now rewrite contains_eq_cons.
  - change (String c p ++ String "=" s) with (String c (p ++ String "=" s)).
    rewrite contains_eq_cons, IH. apply orb_true_r.
Qed.

Lemma after_first_eq_app (p s : string) :
  contains "=" p = false -> after_first_eq (p ++ String "=" s) = s.
Proof.
  induction p as [|c p IH]; intros H; [reflexivity|].
  rewrite contains_eq_cons in H. apply orb_false_iff in H as [Hc Hp].
  change (String c p ++ String "=" s) with (String c (p ++ String "=" s)).
  cbn [after_first_eq]. rewrite Hc. now apply IH.
Qed.

Lemma provided_of_prefixed (p digest : string) :
  contains "=" p = false -> contains "=" digest = false ->
  provided_of (p ++ String "=" digest) = digest.
Proof.
  intros Hp Hd.
  rewrite provided_of_spec, contains_app_eq, (after_first_eq_app p digest Hp).
  now apply contains_eq_sign.
Qed.

Lemma b64_digest_padded (P : Platform) (key msg : string) :
  digest_sizes P ->
  contains "=" (bytesToB64 (hmac_sha1 P key msg)) = true /\
  contains "=" (bytesToB64 (hmac_sha256 P key msg)) = true.
Proof.
  intros D. destruct (D key msg) as [D1 D256].
  destruct (b64_of_20_bytes _ D1) as [L1 E1].
  destruct (b64_of_32_bytes _ D256) as [L256 E256].
  split; (eapply last_char_contains; [|eassumption]); intros Z;
    [rewrite Z in L1 | rewrite Z in L256]; discriminate.
Qed.

(** X4. The value the handlers take from the signature header never holds
    an [=]: it is the header itself when the header holds none, and the text
    between the first [=] and the next one otherwise. Taking it twice changes
    nothing. *)
Theorem provided_of_never_holds_eq (header : string) :
  contains "=" (provided_of header) = false /\
  provided_of (provided_of header) = provided_of header /\
  (contains "=" header = false -> provided_of header = header) /\
  (contains "=" header = true ->
   provided_of header = up_to_eq (after_first_eq header)).
Proof.
  pose proof (provided_of_plain_text header) as N.
  split; [exact N|]. split; [|split].
  - rewrite (provided_of_spec (provided_of header)), N. reflexivity.
  - intros H. now rewrite provided_of_spec, H.
  - intros H. now rewrite provided_of_spec, H.
Qed.

(** X5. With a webhook secret configured, the plain worker accepts no
    signature at all: whatever the header, the value it compares holds no
    [=] while the Base64 text of a SHA-1 digest ends in one, so the check
    fails and every [POST] is answered with status 401, nothing parsed and
    nothing called. *)
Theorem plain_worker_rejects_every_signature (P : Platform) :
  digest_sizes P ->
  (forall bodyText secret header,
      Worker.verifyHmacSha1Base64 P bodyText secret header = false) /\
  (forall request env secret,
      method request = "POST" ->
      EXPO_WEBHOOK_SECRET env = Some secret -> nonempty secret = true ->
      exists r, Worker.fetch P request env = ([], Responded r) /\
                status r = 401%Z).
Proof.
  intros D.
  assert (V : forall bodyText secret header,
             Worker.verifyHmacSha1Base64 P bodyText secret header = false).
  { intros bodyText secret header.
    unfold Worker.verifyHmacSha1Base64, Worker.timingSafeEqualB64.
    apply timingSafeEq_neq. intros E.
    pose proof (provided_of_plain_text header) as N. rewrite E in N.
    destruct (b64_digest_padded P secret bodyText D) as [C _]. congruence. }
  split; [exact V|].
  intros request env secret M S N. unfold Worker.fetch.
  rewrite M, S, N, V. cbn. eexists. split; reflexivity.
Qed.

Lemma plain_worker_rejects_every_signature_witness :
  Worker.verifyHmacSha1Base64 (example_platform None None None) "{}" "secret"
    "AAAAAAAAAAAAAAAAAAAAAAAAAAA=" = false /\
  exists r,
    Worker.fetch (example_platform None None None)
      (example_request [("expo-signature", "AAAAAAAAAAAAAAAAAAAAAAAAAAA=")])
      (example_env (Some "secret") None) = ([], Responded r) /\
    status r = 401%Z.
Proof.
  destruct (plain_worker_rejects_every_signature
              (example_platform None None None)
              (example_digest_sizes_any None None None)) as [V F].
  split; [apply V|].
  apply (F _ _ "secret"); reflexivity.
Defined.

(** X6. The extended worker accepts a signature exactly when the value it
    compares is the hexadecimal SHA-1 or SHA-256 digest of the body (the
    Base64 digests end in [=] and can never be matched). So it accepts the
    bare hexadecimal digest, and [<prefix>=<hexadecimal digest>] for any
    prefix without [=]. *)
Theorem ext_worker_accepts_hex_digests (P : Platform)
    (rawBody secret header : string) :
  digest_sizes P ->
  let exp := WorkerExt.computeHmacs P rawBody secret in
  (WorkerExt.signature_ok P rawBody secret header = true <->
   provided_of header = hex (sha1 exp) \/
   provided_of header = hex (sha256 exp)) /\
  WorkerExt.signature_ok P rawBody secret (hex (sha1 exp)) = true /\
  WorkerExt.signature_ok P rawBody secret (hex (sha256 exp)) = true /\
  (forall prefix,
      contains "=" prefix = false ->
      WorkerExt.signature_ok P rawBody secret
        (prefix ++ String "=" (hex (sha1 exp))) = true /\
      WorkerExt.signature_ok P rawBody secret
        (prefix ++ String "=" (hex (sha256 exp))) = true).
Proof.
  intros D exp.
  assert (A : forall h,
             WorkerExt.signature_ok P rawBody secret h = true <->
             provided_of h = hex (sha1 exp) \/
             provided_of h = hex (sha256 exp)).
  { intros h. unfold WorkerExt.signature_ok. fold exp.
    rewrite !orb_true_iff, !timingSafeEq_eq.
    pose proof (provided_of_plain_text h) as N.
    destruct (b64_digest_padded P secret rawBody D) as [C1 C256].
    change (bytesToB64 (hmac_sha1 P secret rawBody))
      with (b64 (sha1 exp)) in C1.
    change (bytesToB64 (hmac_sha256 P secret rawBody))
      with (b64 (sha256 exp)) in C256.
    split.
    - intros [[[E|E]|E]|E]; auto; rewrite E in N; congruence.
    - intros [E|E]; auto. }
  assert (H1 : contains "=" (hex (sha1 exp)) = false)
    by apply hex_plain_text.
  assert (H256 : contains "=" (hex (sha256 exp)) = false)
    by apply hex_plain_text.
  split; [apply A|]. split; [|split].
  - apply A. left. now rewrite provided_of_spec, H1.
  - apply A. right. now rewrite provided_of_spec, H256.
  - intros prefix Hp. split; apply A; [left | right];
      now apply provided_of_prefixed.
Qed.

Lemma ext_worker_accepts_hex_digests_witness :
  WorkerExt.signature_ok (example_platform None None None) "{}" "secret"
    "sha1=0000000000000000000000000000000000000000" = true /\
  WorkerExt.signature_ok (example_platform None None None) "{}" "secret"
    "AAAAAAAAAAAAAAAAAAAAAAAAAAA=" = false.
Proof.
  destruct (ext_worker_accepts_hex_digests (example_platform None None None)
              "{}" "secret" "AAAAAAAAAAAAAAAAAAAAAAAAAAA="
              (example_digest_sizes_any None None None)) as [A [_ [_ Pre]]].
  split.
  - apply (Pre "sha1"). reflexivity.
  - apply not_true_is_false. intros E.
    apply A in E. destruct E as [E|E]; discriminate E.
Defined.

End DigestExtras.

(* ================================================================== *)
(** * Further properties of the handlers *)
(* ================================================================== *)

Module WorkerExtras.
Import Text Digest Http Spec Examples Notions DigestFacts WorkerFacts.
(** ** The shape of a task id *)

Lemma to_upper_lower (c : ascii) : to_upper (to_lower c) = to_upper c.
Proof. LinkerFacts.ascii_cases c; reflexivity. Qed.

Lemma upper_digit (c : ascii) : is_digit c = true -> to_upper c = c.
Proof.
  LinkerFacts.ascii_cases c; vm_compute; intros H;
    first [discriminate H | reflexivity].
Qed.

Lemma upper_append (a b : string) : upper (a ++ b) = upper a ++ upper b.
Proof.
  unfold upper. induction a as [|c a IH]; simpl; [reflexivity|].
  now rewrite IH.
Qed.

Lemma upper_digits (ds : string) :
  forall_chars is_digit ds = true -> upper ds = ds.
Proof.
  unfold upper. induction ds as [|c ds IH]; simpl; [reflexivity|].
  intros H. apply andb_true_iff in H as [Hc Hd].
  now rewrite (upper_digit c Hc), (IH Hd).
Qed.

Lemma strip_prefix_ci_upper (pfx s m r : string) :
  strip_prefix_ci pfx s = Some (m, r) -> upper m = upper pfx.
Proof.
  unfold upper. revert s m r.
  induction pfx as [|a pfx IH]; intros s m r H; simpl in H.
  - now inversion H.
  - destruct s as [|c s]; [discriminate|].
    destruct (Ascii.eqb_spec (to_lower a) (to_lower c)) as [E|_];
      [|discriminate].
    destruct (strip_prefix_ci pfx s) as [[m' r']|] eqn:S; [|discriminate].
    inversion H; subst. simpl. rewrite (IH _ _ _ S).
    now rewrite <- (to_upper_lower c), <- E, to_upper_lower.
Qed.

Lemma digits_then_boundary_digits (s ds : string) :
  digits_then_boundary s = Some ds ->
  nonempty ds = true /\ forall_chars is_digit ds = true.
Proof.
  revert ds; induction s as [|c s IH]; intros ds H; simpl in H;
    [discriminate|].
  destruct (is_digit c) eqn:D; [|discriminate].
  destruct (digits_then_boundary s) as [m|].
  - inversion H; subst. destruct (IH m eq_refl) as [_ F].
    simpl. now rewrite D, F.
  - destruct (at_boundary (Some c) s); inversion H; subst.
    simpl. now rewrite D.
Qed.

Lemma short_code_at_shape (pfx s m : string) :
  short_code_at pfx s = Some m -> short_code (upper pfx) (upper m).
Proof.
  unfold short_code_at.
  destruct (strip_prefix_ci pfx s) as [[m1 r]|] eqn:S; [|discriminate].
  destruct r as [|c r]; [discriminate|].
  destruct (c =? "-")%char; [|discriminate].
  destruct (digits_then_boundary r) as [ds|] eqn:D; [|discriminate].
  intros H; inversion H; subst m.
  destruct (digits_then_boundary_digits _ _ D) as [N F].
  exists ds. split; [|auto].
  rewrite upper_append, (strip_prefix_ci_upper _ _ _ _ S).
  change (upper (String "-" ds)) with (String "-" (upper ds)).
  now rewrite (upper_digits ds F).
Qed.

Lemma TASK_REGEX_search_shape (prev : option ascii) (s m : string) :
  TASK_REGEX_search prev s = Some m ->
  short_code "SPR" (upper m) \/ short_code "TASK" (upper m).
Proof.
  revert prev; induction s as [|c s IH]; intros prev;
    cbn [TASK_REGEX_search]; unfold TASK_REGEX_at.
  - destruct (at_boundary prev ""); cbn; discriminate.
  - destruct (at_boundary prev (String c s)).
    + destruct (short_code_at "SPR" (String c s)) as [m1|] eqn:S1.
      * intros H; inversion H; subst. left.
        exact (short_code_at_shape "SPR" _ _ S1).
      * destruct (short_code_at "TASK" (String c s)) as [m2|] eqn:S2.
        -- intros H; inversion H; subst. right.
           exact (short_code_at_shape "TASK" _ _ S2).
        -- apply IH.
    + apply IH.
Qed.

(** X7. The task id the handlers extract from the git reference and the
    commit message is either empty (no match) or a short code in upper case:
    [SPR-] or [TASK-] followed by one digit or more. *)
Theorem taskId_of_shape (joined : string) :
  taskId_of joined = EmptyString \/
  short_code "SPR" (taskId_of joined) \/
  short_code "TASK" (taskId_of joined).
Proof.
  unfold taskId_of.
  destruct (TASK_REGEX_search None joined) as [m|] eqn:E; [|now left].
  right. exact (TASK_REGEX_search_shape _ _ _ E).
Qed.

(** ** The calls of one handling *)

Section Calls.

Variable P : Platform.

Lemma worker_notion_shape (taskId : string) (env : Env) :
  notion_shape (fst (Worker.resolve_notion P taskId env)).
Proof.
  unfold Worker.resolve_notion, notion_shape.
  destruct (nonempty taskId && js_truthy (NOTION_TOKEN env)); simpl; eauto.
Qed.

Lemma ext_notion_shape (taskId : string) (env : Env) :
  notion_shape (fst (WorkerExt.resolve_notion P taskId env)).
Proof.
  unfold WorkerExt.resolve_notion, notion_shape.
  destruct (nonempty taskId && js_truthy (NOTION_TOKEN env)); simpl; eauto.
Qed.

Lemma pages_notion_shape (taskId : string) (env : Env) :
  notion_shape (fst (Pages.resolve_notion P taskId env)).
Proof.
  unfold Pages.resolve_notion, notion_shape.
  destruct (nonempty taskId && js_truthy (NOTION_TOKEN env)); simpl; eauto.
Qed.

Lemma worker_dispatch_shape (env : Env)
    (st buildUrl gitRef commitMessage : Field) (taskId notionUrl : string) :
  dispatch_shape
    (fst (Worker.dispatch P env st buildUrl gitRef commitMessage taskId
            notionUrl)).
Proof.
  unfold Worker.dispatch, dispatch_shape.
  destruct (lower (js_or (DISPATCH_TO_GITHUB env) "") =? "true")%string;
    [destruct (negb (js_truthy (GH_REPO_DISPATCH_TOKEN env)))
    |destruct (negb (js_truthy (SLACK_WEBHOOK_URL env)))];
    simpl; eauto 10.
Qed.

Lemma ext_dispatch_shape (env : Env)
    (st buildUrl gitRef commitMessage : Field)
    (taskId notionUrl profile : string) :
  dispatch_shape
    (fst (WorkerExt.dispatch P env st buildUrl gitRef commitMessage taskId
            notionUrl profile)).
Proof.
  unfold WorkerExt.dispatch, dispatch_shape.
  destruct (lower (js_or (DISPATCH_TO_GITHUB env) "") =? "true")%string;
    [destruct (negb (js_truthy (GH_REPO_DISPATCH_TOKEN env)))
    |destruct (negb (js_truthy (SLACK_WEBHOOK_URL env)))];
    simpl; eauto 10.
Qed.

Lemma one_of_each_intro (raw : string) (n d : list Event) :
  notion_shape n -> dispatch_shape d ->
  one_of_each (EvParseJson raw :: n ++ d).
Proof. intros Hn Hd. right. exists raw, n, d. auto. Qed.

Lemma worker_relay_calls (request : Request) (env : Env) :
  one_of_each (fst (Worker.relay P request env)).
Proof.
  unfold Worker.relay.
  match goal with
  | |- context [Worker.resolve_notion P ?t env] =>
      pose proof (worker_notion_shape t env) as N;
      destruct (Worker.resolve_notion P t env) as [ev_notion notionUrl]
  end.
  match goal with
  | |- context [Worker.dispatch P env ?a ?b ?c ?d ?e ?f] =>
      pose proof (worker_dispatch_shape env a b c d e f) as D;
      destruct (Worker.dispatch P env a b c d e f) as [ev_dispatch o]
  end.
  now apply one_of_each_intro.
Qed.

Lemma ext_relay_calls (rawBody : string) (env : Env) :
  one_of_each (fst (WorkerExt.relay P rawBody env)).
Proof.
  unfold WorkerExt.relay.
  destruct (toLowerCase _) as [lowered|];
    [destruct (negb (lowered =? "preview")%string)|].
  - apply (one_of_each_intro rawBody [] []); now left.
  - match goal with
    | |- context [WorkerExt.resolve_notion P ?t env] =>
        pose proof (ext_notion_shape t env) as N;
        destruct (WorkerExt.resolve_notion P t env) as [ev_notion notionUrl]
    end.
    match goal with
    | |- context [WorkerExt.dispatch P env ?a ?b ?c ?d ?e ?f ?g] =>
        pose proof (ext_dispatch_shape env a b c d e f g) as D;
        destruct (WorkerExt.dispatch P env a b c d e f g)
          as [ev_dispatch o]
    end.
    now apply one_of_each_intro.
  - apply (one_of_each_intro rawBody [] []); now left.
Qed.

(** An answer of the relay steps is no refusal. *)
Ltac not_refusal :=
  let r := fresh "r" in
  let msg := fresh "msg" in
  let rest := fresh "rest" in
  let E := fresh "E" in
  let C := fresh "C" in
  let M := fresh "M" in
  intros (r & msg & rest & E & C & M);
  first [ discriminate E
        | injection E as <-; cbn [content] in C;
          first [ discriminate C
                | destruct M as [-> | [-> | ->]]; discriminate C ] ].

Lemma worker_dispatch_answers (env : Env)
    (st buildUrl gitRef commitMessage : Field) (taskId notionUrl : string) :
  ~ refusal (snd (Worker.dispatch P env st buildUrl gitRef commitMessage
                    taskId notionUrl)).
Proof.
  unfold Worker.dispatch, Worker.json.
  destruct (lower (js_or (DISPATCH_TO_GITHUB env) "") =? "true")%string;
    [destruct (negb (js_truthy (GH_REPO_DISPATCH_TOKEN env)));
     [|destruct (github_dispatch P _ _ _ _) as [reply|]]
    |destruct (negb (js_truthy (SLACK_WEBHOOK_URL env)));
     [|destruct (slack_post P _ _) as [reply|]]];
    cbn [snd];
    try (destruct (negb (ok reply)); [destruct (constructible _)|]);
    cbn [constructible Z.leb Z.eqb Z.compare Pos.compare Pos.compare_cont
         Pos.eqb andb orb negb];
    not_refusal.
Qed.

Lemma ext_dispatch_answers (env : Env)
    (st buildUrl gitRef commitMessage : Field)
    (taskId notionUrl profile : string) :
  ~ refusal (snd (WorkerExt.dispatch P env st buildUrl gitRef commitMessage
                    taskId notionUrl profile)).
Proof.
  unfold WorkerExt.dispatch, WorkerExt.json.
  destruct (lower (js_or (DISPATCH_TO_GITHUB env) "") =? "true")%string;
    [destruct (negb (js_truthy (GH_REPO_DISPATCH_TOKEN env)));
     [|destruct (github_dispatch P _ _ _ _) as [reply|]]
    |destruct (negb (js_truthy (SLACK_WEBHOOK_URL env)));
     [|destruct (slack_post P _ _) as [reply|]]];
    cbn [snd];
    try (destruct (negb (ok reply)); [destruct (constructible _)|]);
    cbn [constructible Z.leb Z.eqb Z.compare Pos.compare Pos.compare_cont
         Pos.eqb andb orb negb];
    not_refusal.
Qed.

Lemma orderly_nil (out : Outcome) : orderly ([], out).
Proof. split; [now left | reflexivity]. Qed.

Lemma worker_relay_orderly (request : Request) (env : Env) :
  orderly (Worker.relay P request env).
Proof.
  split; [apply worker_relay_calls|]. unfold Worker.relay.
  destruct (Worker.resolve_notion P _ env) as [ev_notion notionUrl].
  match goal with
  | |- context [Worker.dispatch P env ?a ?b ?c ?d ?e ?f] =>
      pose proof (worker_dispatch_answers env a b c d e f) as D;
      destruct (Worker.dispatch P env a b c d e f) as [ev_dispatch o]
  end.
  cbn [fst snd] in *. intros R. contradiction.
Qed.

Lemma ext_relay_orderly (rawBody : string) (env : Env) :
  orderly (WorkerExt.relay P rawBody env).
Proof.
  split; [apply ext_relay_calls|]. unfold WorkerExt.relay.
  destruct (toLowerCase _) as [lowered|];
    [destruct (negb (lowered =? "preview")%string)|];
    [cbn [snd]; not_refusal | | cbn [snd]; not_refusal].
  destruct (WorkerExt.resolve_notion P _ env) as [ev_notion notionUrl].
  match goal with
  | |- context [WorkerExt.dispatch P env ?a ?b ?c ?d ?e ?f ?g] =>
      pose proof (ext_dispatch_answers env a b c d e f g) as D;
      destruct (WorkerExt.dispatch P env a b c d e f g) as [ev_dispatch o]
  end.
  cbn [fst snd] in *. intros R. contradiction.
Qed.

Lemma pages_orderly (request : Request) (env : Env) :
  orderly (Pages.onRequestPost P request env).
Proof.
  unfold Pages.onRequestPost.
  match goal with
  | |- context [if ?b then _ else _] => destruct b
  end; [apply orderly_nil|].
  match goal with
  | |- context [Pages.resolve_notion P ?t env] =>
      pose proof (pages_notion_shape t env) as N;
      destruct (Pages.resolve_notion P t env) as [ev_notion [notionUrl|]]
  end; simpl in N.
  - destruct (negb (js_truthy (SLACK_WEBHOOK_URL env))).
    + split; cbn [fst snd].
      * rewrite <- (app_nil_r ev_notion).
        apply one_of_each_intro; [exact N | now left].
      * unfold Pages.json. cbn. not_refusal.
    + split; cbn [fst snd].
      * apply (one_of_each_intro _ ev_notion [EvSlackPost _ _]);
          [exact N | right; left; eauto].
      * unfold Pages.json. destruct (slack_post P _ _) as [reply|];
          [destruct (negb (ok reply))|]; cbn; not_refusal.
  - split; cbn [fst snd].
    + rewrite <- (app_nil_r ev_notion).
      apply one_of_each_intro; [exact N | now left].
    + not_refusal.
Qed.

(** X8. Whatever the request and the configuration, each of the three
    handlers makes its calls in one order and at most once each: first
    the parse of the body, then at most one Notion search, then at most one
    call to the destination, which is Slack or GitHub and never both.  A
    request that is refused, that is answered [Method Not Allowed],
    [Not Found] or [Invalid signature], makes no call; every request with
    another method than [POST] makes none, and is refused by the plain
    worker; every request for a path that is not handled is refused by
    the extended worker. *)
Theorem handlers_call_once (request : Request) (env : Env) :
  orderly (Worker.fetch P request env) /\
  orderly (WorkerExt.fetch P request env) /\
  orderly (Pages.onRequestPost P request env) /\
  (method request <> "POST" ->
   fst (Worker.fetch P request env) = [] /\
   refusal (snd (Worker.fetch P request env)) /\
   fst (WorkerExt.fetch P request env) = []) /\
  (~ In (pathname request) WorkerExt.HANDLED_PATHS ->
   fst (WorkerExt.fetch P request env) = [] /\
   refusal (snd (WorkerExt.fetch P request env))).
Proof.
  split; [|split; [|split; [|split]]].
  - unfold Worker.fetch.
    destruct (negb (method request =? "POST")%string); [apply orderly_nil|].
    match goal with
    | |- context [if ?b then _ else _] => destruct b
    end; [apply orderly_nil | apply worker_relay_orderly].
  - unfold WorkerExt.fetch.
    destruct (negb (existsb _ _)); [apply orderly_nil|].
    destruct (method request =? "GET")%string; [apply orderly_nil|].
    destruct (negb (method request =? "POST")%string); [apply orderly_nil|].
    match goal with
    | |- context [if ?b then _ else _] => destruct b
    end; [apply orderly_nil | apply ext_relay_orderly].
  - apply pages_orderly.
  - intros M. apply String.eqb_neq in M.
    unfold Worker.fetch, WorkerExt.fetch. rewrite M. cbn [negb fst snd].
    split; [reflexivity|]. split.
    + eexists _, _, _. split; [reflexivity|]. split; [reflexivity|].
      now left.
    + destruct (negb (existsb _ _)); [reflexivity|].
      destruct (method request =? "GET")%string; reflexivity.
  - intros N. unfold WorkerExt.fetch.
    assert (E : existsb (String.eqb (pathname request))
                  WorkerExt.HANDLED_PATHS = false).
    { apply not_true_is_false. intros E. apply existsb_exists in E.
      destruct E as (x & I & E). apply String.eqb_eq in E. now subst x. }
    rewrite E. cbn [negb fst snd]. split; [reflexivity|].
    eexists _, _, _. split; [reflexivity|]. split; [reflexivity|].
    right. now left.
Qed.

End Calls.

(** ** Configuration, leniency, and the Pages function *)

Section Configuration.

Variable P : Platform.

Lemma no_secret_no_check (env : Env) (check : string -> bool) :
  js_truthy (EXPO_WEBHOOK_SECRET env) = false ->
  match EXPO_WEBHOOK_SECRET env with
  | Some secret => if nonempty secret then check secret else false
  | None => false
  end = false.
Proof.
  unfold js_truthy. destruct (EXPO_WEBHOOK_SECRET env) as [secret|];
    [|reflexivity].
  now intros ->.
Qed.





(** X11. A body that is no JSON is handled as the empty object: for a
    [POST] without a configured secret, in Slack mode with a hook, the plain
    worker and the Pages function search nothing in Notion, whatever the
    token, and post the one message whose status is ["unknown"]. *)
Theorem malformed_body_is_empty_object (request : Request) (env : Env)
    (hook : string) :
  JSON_parse P (body request) = None ->
  method request = "POST" ->
  js_truthy (EXPO_WEBHOOK_SECRET env) = false ->
  (lower (js_or (DISPATCH_TO_GITHUB env) "") =? "true")%string = false ->
  SLACK_WEBHOOK_URL env = Some hook -> nonempty hook = true ->
  let calls :=
    [EvParseJson (body request);
     EvSlackPost hook "🚀 *Preview build* unknown"] in
  fst (Worker.fetch P request env) = calls /\
  fst (Pages.onRequestPost P request env) = calls.
Proof.
  intros J M S G H N calls. split.
  - unfold Worker.fetch. rewrite M.
    cbn [negb String.eqb Ascii.eqb Bool.eqb].
    rewrite (no_secret_no_check env _ S).
    unfold Worker.relay, Worker.safeJson. rewrite J. cbn.
    unfold Worker.dispatch. rewrite G, H. cbn. rewrite N. reflexivity.
  - unfold Pages.onRequestPost.
    rewrite (no_secret_no_check env _ S), J. cbn.
    rewrite H. cbn. rewrite N. reflexivity.
Qed.

End Configuration.



Lemma malformed_body_is_empty_object_witness :
  fst (Worker.fetch (example_platform None None None) (example_request [])
         (example_env None None)) =
    [EvParseJson "{}";
     EvSlackPost "https://hooks.slack.com/services/T/B/X"
       "🚀 *Preview build* unknown"] /\
  fst (Pages.onRequestPost (example_platform None None None)
         (example_request []) (example_env None None)) =
    [EvParseJson "{}";
     EvSlackPost "https://hooks.slack.com/services/T/B/X"
       "🚀 *Preview build* unknown"].
Proof.
  apply (malformed_body_is_empty_object (example_platform None None None)
           (example_request []) (example_env None None)
           "https://hooks.slack.com/services/T/B/X"); reflexivity.
Defined.

End WorkerExtras.

(* ================================================================== *)
(** * Further properties of the linker *)
(* ================================================================== *)

Module LinkerExtras.
Import Text Linker Spec Examples Notions LinkerFacts.
(** ** Record ids *)

Lemma ensure_uuid_hyphens_cases (x : string) :
  (hex32 (remove_char "-" x) /\
   ensure_uuid_hyphens x = hyphenated (remove_char "-" x)) \/
  (~ hex32 (remove_char "-" x) /\ ensure_uuid_hyphens x = x).
Proof.
  unfold ensure_uuid_hyphens.
  destruct (Nat.eqb (length (remove_char "-" x)) 32) eqn:L;
    destruct (fullmatch_hex 32 (remove_char "-" x)) eqn:F; cbn [negb orb].
  - left. apply Nat.eqb_eq in L. split.
    + now apply fullmatch_hex_spec.
    + now apply hyphenation_agrees.
  - right. split; [|reflexivity]. intros H.
    apply fullmatch_hex_spec in H. congruence.
  - apply fullmatch_hex_spec in F as [F _]. apply Nat.eqb_neq in L.
    contradiction.
  - right. split; [|reflexivity]. apply Nat.eqb_neq in L.
    intros [H _]. contradiction.
Qed.

(** X12. [ensure_uuid_hyphens] is a normalisation: applying it twice gives
    what applying it once gives, it changes nothing but the hyphens of its
    input, and what it returns is either the input or a text of 36
    characters. *)
Theorem ensure_uuid_hyphens_idempotent (id32 : string) :
  ensure_uuid_hyphens (ensure_uuid_hyphens id32) = ensure_uuid_hyphens id32 /\
  remove_char "-" (ensure_uuid_hyphens id32) = remove_char "-" id32 /\
  (ensure_uuid_hyphens id32 = id32 \/ length (ensure_uuid_hyphens id32) = 36).
Proof.
  destruct (ensure_uuid_hyphens_cases id32) as [[H E]|[H E]].
  - destruct (strip_hyphenated _ H) as [S L]. rewrite E.
    split; [|split; [exact S | now right]].
    destruct (ensure_uuid_hyphens_cases (hyphenated (remove_char "-" id32)))
      as [[_ E']|[N _]].
    + now rewrite E', S.
    + exfalso. apply N. now rewrite S.
  - rewrite E. split; [exact E|]. split; [reflexivity | now left].
Qed.

Lemma page_id_search_skip (c : ascii) (rest : string) :
  is_hex c = false ->
  page_id_search (String c rest) = page_id_search rest.
Proof.
  intros H. cbn [page_id_search]. unfold page_id_match_at at 1.
  cbn [take_hex]. now rewrite H.
Qed.

Lemma take_hex_all (g : string) :
  forall_chars is_hex g = true ->
  take_hex (length g) g = Some (g, EmptyString).
Proof.
  induction g as [|c g IH]; simpl; [reflexivity|].
  intros H. apply andb_true_iff in H as [Hc Hg]. now rewrite Hc, (IH Hg).
Qed.

Lemma page_id_search_hex32 (g : string) :
  hex32 g -> page_id_search g = Some g.
Proof.
  intros [L F]. pose proof (take_hex_all g F) as T. rewrite L in T.
  destruct g as [|c g]; [discriminate L|].
  cbn [page_id_search]. unfold page_id_match_at. now rewrite T.
Qed.

(** X13. The id decoded from a link is canonical: 32 hexadecimal digits in
    lower case, hyphenated 8-4-4-4-12, and a fixed point of
    [ensure_uuid_hyphens]. Conversely the URL that [notion_search_page]
    makes from a canonical id decodes to that id again. *)
Theorem page_id_round_trip :
  (forall url pid,
      page_id_from_notion_url url = Some pid ->
      (exists g, hex32 g /\ lower g = g /\ pid = hyphenated g) /\
      length pid = 36 /\ ensure_uuid_hyphens pid = pid) /\
  (forall g,
      hex32 g -> lower g = g ->
      public_url_of (hyphenated g) = "https://www.notion.so/" ++ g /\
      page_id_from_notion_url (public_url_of (hyphenated g)) =
        Some (hyphenated g)).
Proof.
  split.
  - intros url pid H.
    destruct (page_id_canonical url pid H) as (g & Hg & Hl & ->).
    destruct (strip_hyphenated g Hg) as [S L].
    split; [eauto|]. split; [exact L|].
    destruct (ensure_uuid_hyphens_cases (hyphenated g)) as [[_ E]|[N _]].
    + now rewrite E, S.
    + exfalso. apply N. now rewrite S.
  - intros g Hg Hl. destruct (strip_hyphenated g Hg) as [S _].
    assert (U : public_url_of (hyphenated g) = "https://www.notion.so/" ++ g)
      by (unfold public_url_of; now rewrite S).
    split; [exact U|]. rewrite U. unfold page_id_from_notion_url.
    cbn [append].
    rewrite !page_id_search_skip by reflexivity.
    rewrite (page_id_search_hex32 g Hg), Hl.
    destruct (ensure_uuid_hyphens_cases g) as [[_ E]|[N _]].
    + rewrite E, (remove_char_hex g (proj2 Hg)). reflexivity.
    + exfalso. apply N. now rewrite (remove_char_hex g (proj2 Hg)).
Qed.

Lemma page_id_round_trip_witness :
  length example_id = 36 /\
  page_id_from_notion_url (public_url_of example_id) = Some example_id.
Proof.
  destruct page_id_round_trip as [Decode Encode].
  split.
  - apply (Decode example_link example_id). reflexivity.
  - apply (Encode "25b6cafc5b5c801fba02ea17d3cc4b77");
      [split; reflexivity | reflexivity].
Defined.

(** ** The de-duplication keeps the order of first appearance *)

Local Abbreviation put := (fun uniq p => dict_set uniq (fst p) (snd p)).
Local Abbreviation absent acc :=
  (fun y : string => negb (existsb (String.eqb y) acc)).

Lemma dict_set_keys (d : list (string * string)) (k v : string) :
  map fst (dict_set d k v) =
  if existsb (String.eqb k) (map fst d) then map fst d
  else (map fst d ++ [k])%list.
Proof.
  induction d as [|[k' v'] d IH]; simpl; [reflexivity|].
  rewrite (String.eqb_sym k k').
  destruct (k' =? k)%string; simpl; [reflexivity|].
  rewrite IH. now destruct (existsb (String.eqb k) (map fst d)).
Qed.

Lemma filter_filter (A : Type) (f g : A -> bool) (l : list A) :
  filter f (filter g l) = filter (fun x => g x && f x) l.
Proof.
  induction l as [|x l IH]; simpl; [reflexivity|].
  destruct (g x); simpl; [destruct (f x)|]; now rewrite IH.
Qed.

Lemma fold_put_keys (l acc : list (string * string)) :
  map fst (fold_left put l acc) =
  (map fst acc ++ filter (absent (map fst acc)) (first_seen (map fst l)))%list.
Proof.
  revert acc; induction l as [|[k v] l IH]; intros acc; simpl.
  - now rewrite app_nil_r.
  - rewrite IH, dict_set_keys, filter_filter.
    destruct (existsb (String.eqb k) (map fst acc)) eqn:E; simpl.
    + f_equal. apply filter_ext_in. intros y _.
      destruct (String.eqb_spec y k) as [->|N]; simpl; [now rewrite E|].
      reflexivity.
    + rewrite <- app_assoc. simpl. f_equal. f_equal.
      apply filter_ext_in. intros y _.
      rewrite existsb_app. simpl. rewrite orb_false_r, negb_orb.
      apply andb_comm.
Qed.

Lemma dict_set_fresh (d : list (string * string)) (k v : string) :
  ~ In k (map fst d) -> dict_set d k v = (d ++ [(k, v)])%list.
Proof.
  induction d as [|[k' v'] d IH]; simpl; intros N; [reflexivity|].
  destruct (String.eqb_spec k' k) as [->|_].
  - exfalso. apply N. now left.
  - rewrite IH; [reflexivity|]. intros I. apply N. now right.
Qed.

Lemma fold_put_distinct (l acc : list (string * string)) :
  NoDup (map fst (acc ++ l)) -> fold_left put l acc = (acc ++ l)%list.
Proof.
  revert acc; induction l as [|[k v] l IH]; intros acc H; simpl.
  - now rewrite app_nil_r.
  - rewrite map_app in H. simpl in H.
    pose proof (NoDup_remove_2 _ _ _ H) as N.
    rewrite dict_set_fresh.
    + rewrite IH; rewrite <- app_assoc; [reflexivity|].
      now rewrite map_app.
    + intros I. apply N. apply in_or_app. now left.
Qed.

(** X14. The de-duplication of [main] keeps one entry per id, in the order
    in which the ids first appear, each with the URL of the last pair that
    carries the id; applied to its own result it changes nothing. *)
Theorem dedup_pages_order (pages : list (string * string)) :
  map fst (dedup_pages pages) = first_seen (map fst pages) /\
  (forall pid, dict_get (dedup_pages pages) pid = last_value pages pid) /\
  dedup_pages (dedup_pages pages) = dedup_pages pages.
Proof.
  split; [|split].
  - unfold dedup_pages. rewrite (fold_put_keys pages []). simpl.
    induction (first_seen (map fst pages)) as [|x l IH]; simpl; congruence.
  - intros pid. unfold dedup_pages. rewrite (fold_store_get pages [] pid).
    simpl. now destruct (last_value pages pid).
  - unfold dedup_pages at 1.
    apply (fold_put_distinct (dedup_pages pages) []).
    apply dedup_pages_NoDup.
Qed.

(** ** What extraction returns *)

(** ** One call of the annotator *)

Lemma already_linked_found (url : string) (children : list Block) :
  well_formed children -> Exists (carries url) children ->
  already_linked url children = Ok true.
Proof.
  intros WF E. induction children as [|b rest IH]; [inversion E|].
  inversion WF as [|? ? Hb Hrest]; subst. cbn [already_linked].
  destruct (is_some_string (b_type b) "bulleted_list_item") eqn:T.
  - destruct (b_bulleted_list_item b) as [texts|] eqn:I;
      [|exfalso; apply Hb; reflexivity].
    destruct (existsb _ texts) eqn:X; [reflexivity|].
    inversion E as [? ? [_ (texts' & I' & X')]|? ? E']; subst.
    + rewrite I in I'. injection I' as <-. congruence.
    + now apply IH.
  - inversion E as [? ? [T' _]|? ? E']; subst; [congruence | now apply IH].
Qed.

Lemma already_linked_no_bullet (url : string) (children : list Block) :
  Forall no_bullet children -> already_linked url children = Ok false.
Proof.
  induction 1 as [|b rest Hb _ IH]; [reflexivity|].
  cbn [already_linked]. unfold no_bullet in Hb. now rewrite Hb.
Qed.

Section OneCall.

Variable W : Type.
Variable http_get_children : W -> string -> option (Z * list Block).
Variable http_patch_children :
  W -> string -> list Block -> W * option (Z * string).

Let append := notion_append_pr_bullet W http_get_children http_patch_children.

Lemma append_writes_at_most_once (w : W) (page_id pr_url : string) :
  written_blocks (snd (fst (append w page_id pr_url))) = [] \/
  written_blocks (snd (fst (append w page_id pr_url))) = [pr_bullet pr_url].
Proof.
  subst append. unfold notion_append_pr_bullet.
  destruct (notion_get_children W http_get_children w page_id) as [cs|];
    [|now left].
  destruct (already_linked pr_url cs) as [[|]|]; try (now left).
  destruct (http_patch_children w page_id [pr_bullet pr_url])
    as [w' [[st text]|]]; [destruct (300 <=? st)%Z|]; now right.
Qed.

Lemma append_after_scan (w : W) (page_id pr_url : string)
    (children : list Block) :
  notion_get_children W http_get_children w page_id = Ok children ->
  already_linked pr_url children = Ok false ->
  written_blocks (snd (fst (append w page_id pr_url))) = [pr_bullet pr_url] /\
  fst (fst (append w page_id pr_url)) =
    fst (http_patch_children w page_id [pr_bullet pr_url]) /\
  (forall st text,
      snd (http_patch_children w page_id [pr_bullet pr_url]) = Some (st, text) ->
      snd (append w page_id pr_url) = Ok tt /\
      (In (EvWarning text) (snd (fst (append w page_id pr_url))) <->
       (300 <= st)%Z)).
Proof.
  intros G A. subst append. unfold notion_append_pr_bullet. rewrite G, A.
  destruct (http_patch_children w page_id [pr_bullet pr_url])
    as [w' [[st text]|]]; cbn [fst snd].
  - destruct (Z.leb_spec 300 st) as [L|L]; cbn [fst snd].
    + split; [reflexivity|]. split; [reflexivity|].
      intros st' text' E. injection E as <- <-. split; [reflexivity|].
      split; [intros _; exact L | intros _; right; now left].
    + split; [reflexivity|]. split; [reflexivity|].
      intros st' text' E. injection E as <- <-. split; [reflexivity|].
      split; [intros [I|[]]; discriminate I | lia].
  - split; [reflexivity|]. split; [reflexivity|]. intros st text E.
    discriminate E.
Qed.

(** X17. One call of the annotator sends at most one block, the bullet
    [PR: <url>]. It sends none, and returns normally, when the children it
    reads (status 200, well formed) hold a bullet one of whose texts holds
    the URL. It sends the bullet when the children hold no bullet at all,
    whatever their texts, and when the answer to its read is not 200. An
    answer of 300 or more to the write is logged as a warning and the call
    still returns normally. *)
Theorem annotator_scans_bullets_only (w : W) (page_id pr_url : string) :
  let run := append w page_id pr_url in
  let written := written_blocks (snd (fst run)) in
  (written = [] \/ written = [pr_bullet pr_url]) /\
  (forall children,
      http_get_children w page_id = Some (200%Z, children) ->
      well_formed children -> Exists (carries pr_url) children ->
      run = (w, [], Ok tt)) /\
  (forall children,
      http_get_children w page_id = Some (200%Z, children) ->
      Forall no_bullet children ->
      written = [pr_bullet pr_url]) /\
  (forall st children,
      http_get_children w page_id = Some (st, children) -> st <> 200%Z ->
      written = [pr_bullet pr_url]) /\
  (forall st text,
      written = [pr_bullet pr_url] ->
      snd (http_patch_children w page_id [pr_bullet pr_url]) = Some (st, text) ->
      snd run = Ok tt /\
      (In (EvWarning text) (snd (fst run)) <-> (300 <= st)%Z)).
Proof.
  intros run written. subst run written.
  split; [apply append_writes_at_most_once|]. split; [|split; [|split]].
  - intros children G WF E. subst append.
    unfold notion_append_pr_bullet, notion_get_children. rewrite G.
    cbn. now rewrite (already_linked_found pr_url children WF E).
  - intros children G F.
    apply (append_after_scan w page_id pr_url children).
    + unfold notion_get_children. now rewrite G.
    + now apply already_linked_no_bullet.
  - intros st children G N.
    apply (append_after_scan w page_id pr_url []).
    + unfold notion_get_children. rewrite G.
      destruct (Z.eqb_spec st 200); [contradiction | reflexivity].
    + reflexivity.
  - intros st text Wr E. subst append. revert Wr.
    unfold notion_append_pr_bullet.
    destruct (notion_get_children W http_get_children w page_id) as [cs|];
      [|discriminate].
    destruct (already_linked pr_url cs) as [[|]|]; try discriminate.
    destruct (http_patch_children w page_id [pr_bullet pr_url])
      as [w' [[st' text']|]]; cbn [snd] in E; [|discriminate E].
    injection E as -> ->. intros _.
    destruct (Z.leb_spec 300 st) as [L|L]; cbn [fst snd].
    + split; [reflexivity|].
      split; [intros _; exact L | intros _; right; now left].
    + split; [reflexivity|].
      split; [intros [I|[]]; discriminate I | lia].
Qed.

End OneCall.

(** ** The annotator on a workspace that answers a page of 100 children *)

Lemma already_linked_app (url : string) (a b : list Block) :
  already_linked url a = Ok false ->
  already_linked url (a ++ b) = already_linked url b.
Proof.
  induction a as [|x a IH]; [reflexivity|]. cbn [already_linked app].
  destruct (is_some_string (b_type x) "bulleted_list_item").
  - destruct (b_bulleted_list_item x) as [texts|]; [|discriminate].
    destruct (existsb _ texts); [discriminate | exact IH].
  - exact IH.
Qed.

Lemma already_linked_bullet (url : string) :
  already_linked url [pr_bullet url] = Ok true.
Proof.
  change (already_linked url [pr_bullet url])
    with (if contains url ("PR: " ++ url) || false then Ok true
          else @Ok bool false).
  now rewrite (contains_append url "PR: ").
Qed.

Lemma store_patch (w : Store.t) (page_id : string) (cs new : list Block) :
  Store.children_of w page_id = Some cs ->
  exists w',
    Store.patch_children w page_id new = (w', Some (200%Z, "ok")) /\
    Store.children_of w' page_id = Some (cs ++ new)%list.
Proof.
  unfold Store.patch_children.
  induction w as [|[p bs] w IH]; simpl; [discriminate|].
  destruct (String.eqb_spec p page_id) as [->|N].
  - intros H; injection H as ->. eexists. split; [reflexivity|].
    simpl. now rewrite String.eqb_refl.
  - intros H. destruct (IH H) as (w' & E & C).
    destruct (Store.append_children w page_id new) as [w1|];
      [|discriminate E].
    injection E as <-. simpl. eexists. split; [reflexivity|].
    simpl. destruct (String.eqb_spec p page_id); [contradiction | exact C].
Qed.

Lemma store_append (w : Store.t) (page_id pr_url : string) (cs : list Block) :
  Store.children_of w page_id = Some cs ->
  (already_linked pr_url (firstn 100 cs) = Ok false ->
   exists w',
     notion_append_pr_bullet Store.t Store.get_children Store.patch_children
       w page_id pr_url = (w', [EvPatch page_id [pr_bullet pr_url]], Ok tt) /\
     Store.children_of w' page_id = Some (cs ++ [pr_bullet pr_url])%list) /\
  (already_linked pr_url (firstn 100 cs) = Ok true ->
   notion_append_pr_bullet Store.t Store.get_children Store.patch_children
     w page_id pr_url = (w, [], Ok tt)).
Proof.
  intros C. unfold notion_append_pr_bullet, notion_get_children,
    Store.get_children. rewrite C. cbn [Z.eqb Pos.eqb]. split; intros A.
  - rewrite A. destruct (store_patch w page_id cs [pr_bullet pr_url] C)
      as (w' & -> & C'). exists w'. split; [reflexivity | exact C'].
  - now rewrite A.
Qed.

(** X18. On a workspace whose read answers the first hundred children of
    a page and whose write appends at the end: when none of the first
    hundred children is a bullet holding the URL, two calls of the
    annotator leave one new bullet on a page of fewer than a hundred
    children, and two on a page of a hundred children or more, since the
    second call does not read the bullet the first one wrote. *)
Theorem store_first_page_only (w : Store.t) (page_id pr_url : string)
    (children : list Block) :
  Store.children_of w page_id = Some children ->
  already_linked pr_url (firstn 100 children) = Ok false ->
  let after :=
    Store.children_of
      (fst (fst (annotate_twice Store.t Store.get_children
                   Store.patch_children w page_id pr_url))) page_id in
  (List.length children < 100 ->
   after = Some (children ++ [pr_bullet pr_url])%list) /\
  (100 <= List.length children ->
   after = Some (children ++ [pr_bullet pr_url; pr_bullet pr_url])%list).
Proof.
  intros C A after. subst after. unfold annotate_twice.
  destruct (proj1 (store_append w page_id pr_url children C) A)
    as (w1 & -> & C1).
  split; intros L.
  - assert (A1 : already_linked pr_url
                   (firstn 100 (children ++ [pr_bullet pr_url])) = Ok true).
    { rewrite firstn_all2 by (rewrite length_app; simpl; lia).
      rewrite firstn_all2 in A by lia.
      now rewrite (already_linked_app _ _ _ A), already_linked_bullet. }
    rewrite (proj2 (store_append w1 page_id pr_url _ C1) A1). exact C1.
  - assert (A1 : already_linked pr_url
                   (firstn 100 (children ++ [pr_bullet pr_url])) = Ok false).
    { rewrite firstn_app.
      replace (100 - List.length children) with 0 by lia.
      simpl. now rewrite app_nil_r. }
    destruct (proj1 (store_append w1 page_id pr_url _ C1) A1)
      as (w2 & -> & C2).
    cbn [fst]. rewrite C2, <- app_assoc. reflexivity.
Qed.

Lemma store_first_page_only_witness :
  Store.children_of
    (fst (fst (annotate_twice Store.t Store.get_children Store.patch_children
                 [("page", [])] "page" "https://github.com/o/r/pull/108")))
    "page" = Some [pr_bullet "https://github.com/o/r/pull/108"] /\
  Store.children_of
    (fst (fst (annotate_twice Store.t Store.get_children Store.patch_children
                 long_page "page" "https://github.com/o/r/pull/108")))
    "page" =
    Some (repeat paragraph 100 ++
          [pr_bullet "https://github.com/o/r/pull/108";
           pr_bullet "https://github.com/o/r/pull/108"])%list.
Proof.
  split.
  - apply (store_first_page_only [("page", [])] "page"
             "https://github.com/o/r/pull/108" []); try reflexivity.
    simpl. lia.
  - apply (store_first_page_only long_page "page"
             "https://github.com/o/r/pull/108" (repeat paragraph 100));
      reflexivity.
Defined.

End LinkerExtras.

(* ================================================================== *)
(** * Properties of the extraction over Unicode text *)
(* ================================================================== *)

Module UnicodeFacts.
Import Unicode.
Local Open Scope list_scope.

(** ** The order of texts *)

Lemma compare_eq (a b : text) : compare a b = Eq <-> a = b.
Proof.
  revert b. induction a as [|x a IH]; intros [|y b]; cbn [compare];
    try (split; [discriminate | discriminate]); [tauto|].
  destruct (N.compare_spec x y) as [->|L|L].
  - rewrite IH. split; [now intros -> | now intros [= ->]].
  - split; [discriminate | intros [= -> _]; lia].
  - split; [discriminate | intros [= -> _]; lia].
Qed.

Lemma compare_antisym (a b : text) : compare b a = CompOpp (compare a b).
Proof.
  revert b. induction a as [|x a IH]; intros [|y b]; cbn [compare];
    try reflexivity.
  rewrite (N.compare_antisym x y).
  destruct (x ?= y)%N; cbn [CompOpp]; [apply IH | reflexivity..].
Qed.

Lemma compare_lt_trans (a b c : text) :
  compare a b = Lt -> compare b c = Lt -> compare a c = Lt.
Proof.
  revert b c. induction a as [|x a IH]; intros [|y b] [|z c];
    cbn [compare]; try discriminate; try reflexivity.
  destruct (N.compare_spec x y) as [->|L1|L1]; [| |discriminate].
  - destruct (N.compare_spec y z) as [->|L2|L2]; [apply IH|auto|discriminate].
  - intros _.
    destruct (N.compare_spec y z) as [<-|L2|L2]; [| |discriminate]; intros _.
    + now apply N.compare_lt_iff in L1 as ->.
    + assert (L : (x < z)%N) by lia. now apply N.compare_lt_iff in L as ->.
Qed.

Lemma ltb_trans (a b c : text) :
  ltb a b = true -> ltb b c = true -> ltb a c = true.
Proof.
  unfold ltb. destruct (compare a b) eqn:E1; try discriminate.
  destruct (compare b c) eqn:E2; try discriminate.
  now rewrite (compare_lt_trans a b c E1 E2).
Qed.

Lemma leb_neq_ltb (a b : text) : leb a b = true -> a <> b -> ltb a b = true.
Proof.
  unfold leb, ltb. intros H N.
  destruct (compare a b) eqn:E; try congruence.
  apply compare_eq in E. contradiction.
Qed.

Lemma leb_false_ltb (a b : text) : leb a b = false -> ltb b a = true.
Proof.
  unfold leb, ltb. rewrite (compare_antisym a b).
  destruct (compare a b); cbn [CompOpp]; congruence.
Qed.

(** ** [sorted(set(...))] *)

Lemma insert_sorted_In (x y : text) (l : list text) :
  In x (insert_sorted y l) <-> x = y \/ In x l.
Proof.
  induction l as [|z l IH]; cbn [insert_sorted In].
  - intuition.
  - destruct (leb y z); cbn [In]; [intuition|].
    rewrite IH. intuition.
Qed.

Lemma py_sorted_In (x : text) (l : list text) :
  In x (py_sorted l) <-> In x l.
Proof.
  induction l as [|y l IH]; cbn [py_sorted fold_right In]; [tauto|].
  fold (py_sorted l). rewrite insert_sorted_In, IH. intuition.
Qed.

Lemma py_sorted_set_In (x : text) (l : list text) :
  In x (py_sorted (py_set l)) <-> In x l.
Proof. rewrite py_sorted_In. apply nodup_In. Qed.

Lemma insert_sorted_increasing (x : text) (l : list text) :
  increasing l -> ~ In x l -> increasing (insert_sorted x l).
Proof.
  unfold increasing.
  induction l as [|y l IH]; intros Hs Hn; cbn [insert_sorted].
  - constructor; constructor.
  - inversion Hs as [|? ? Hl Hy]; subst.
    destruct (leb x y) eqn:E.
    + assert (Hxy : ltb x y = true).
      { apply leb_neq_ltb; [assumption|]. intros ->. apply Hn. now left. }
      constructor; [assumption|]. constructor; [assumption|].
      eapply Forall_impl; [|exact Hy].
      intros z Hz. now apply (ltb_trans x y z).
    + constructor.
      * apply IH; [assumption|]. intros Hin. apply Hn. now right.
      * apply Forall_forall. intros z Hz.
        apply insert_sorted_In in Hz as [->|Hz].
        -- now apply leb_false_ltb.
        -- rewrite Forall_forall in Hy. now apply Hy.
Qed.

Lemma py_sorted_set_increasing (l : list text) :
  increasing (py_sorted (py_set l)).
Proof.
  unfold py_set. generalize (NoDup_nodup text_dec l).
  generalize (nodup text_dec l). clear l.
  induction 1 as [|x l Hx Hl IH]; cbn [py_sorted fold_right].
  - constructor.
  - fold (py_sorted l). apply insert_sorted_increasing; [assumption|].
    now rewrite py_sorted_In.
Qed.

(** ** Literals *)

Lemma strip_prefix_inv (l s r : text) :
  strip_prefix l s = Some r -> s = l ++ r.
Proof.
  revert s. induction l as [|a l IH]; intros s H; cbn [strip_prefix] in H.
  - now injection H as ->.
  - destruct s as [|b s]; [discriminate H|].
    destruct (N.eqb_spec a b) as [->|_]; [|discriminate H].
    cbn [app]. now rewrite (IH s H).
Qed.

Lemma strip_prefix_length (l s r : text) :
  strip_prefix l s = Some r ->
  List.length s = List.length l + List.length r.
Proof.
  intros H. rewrite (strip_prefix_inv l s r H). apply length_app.
Qed.

Lemma take_while_length (p : N -> bool) (s : text) :
  List.length (take_while p s) <= List.length s.
Proof.
  induction s as [|c s IH]; cbn [take_while List.length]; [lia|].
  destruct (p c); cbn [List.length]; lia.
Qed.

Lemma take_while_all (p : N -> bool) (s : text) :
  Forall (fun c => p c = true) (take_while p s).
Proof.
  induction s as [|c s IH]; cbn [take_while]; [constructor|].
  destruct (p c) eqn:E; [now constructor | constructor].
Qed.

Lemma literal_then_bounded (l : text) (k : text -> option text) :
  matcher_bounded k -> matcher_bounded (literal_then l k).
Proof.
  intros Hk s m. unfold literal_then.
  destruct (strip_prefix l s) as [r|] eqn:E; [|discriminate].
  destruct (k r) as [m'|] eqn:Ek; cbn [option_map]; [|discriminate].
  intros [= <-]. rewrite length_app, (strip_prefix_length _ _ _ E).
  apply Hk in Ek. lia.
Qed.

Lemma optional_then_bounded (l : text) (k : text -> option text) :
  matcher_bounded k -> matcher_bounded (optional_then l k).
Proof.
  intros Hk s m. unfold optional_then.
  destruct (literal_then l k s) as [m'|] eqn:E.
  - intros [= <-]. now apply (literal_then_bounded l k Hk s).
  - apply Hk.
Qed.

Lemma literal_then_inv (l : text) (k : text -> option text) (s m : text) :
  literal_then l k s = Some m ->
  exists r m', s = l ++ r /\ k r = Some m' /\ m = l ++ m'.
Proof.
  unfold literal_then.
  destruct (strip_prefix l s) as [r|] eqn:E; [|discriminate].
  destruct (k r) as [m'|] eqn:Ek; cbn [option_map]; [|discriminate].
  intros [= <-]. exists r, m'. now rewrite (strip_prefix_inv l s r E).
Qed.

Lemma optional_then_inv (l : text) (k : text -> option text) (s m : text) :
  optional_then l k s = Some m ->
  (exists r m', s = l ++ r /\ k r = Some m' /\ m = l ++ m') \/ k s = Some m.
Proof.
  unfold optional_then.
  destruct (literal_then l k s) as [m'|] eqn:E; [|now right].
  intros [= <-]. left. now apply literal_then_inv.
Qed.

Section Scans.

Variable U : Tables.

(** ** A line feed ends every match *)

Section LineFeed.

Hypothesis lines : separates_lines U.
Variable B : text.

Lemma at_boundary_app (prev : option N) (A : text) :
  at_boundary U prev (A ++ LF :: B) = at_boundary U prev A.
Proof.
  destruct lines as (Hw & _). destruct A; [|reflexivity].
  unfold at_boundary. cbn [app hd_error is_word_opt]. now rewrite Hw.
Qed.

Lemma digits_then_boundary_app (A : text) :
  digits_then_boundary U (A ++ LF :: B) = digits_then_boundary U A.
Proof.
  destruct lines as (_ & Hd & _).
  induction A as [|c A IH]; cbn [app digits_then_boundary].
  - now rewrite Hd.
  - now rewrite IH, at_boundary_app.
Qed.

Lemma strip_prefix_ci_app (pfx A : text) :
  ~ In LF pfx ->
  strip_prefix_ci U pfx (A ++ LF :: B) =
  match strip_prefix_ci U pfx A with
  | Some (m, r) => Some (m, r ++ LF :: B)
  | None => None
  end.
Proof.
  destruct lines as (_ & _ & _ & Hc). revert A.
  induction pfx as [|a pfx IH]; intros A H; [reflexivity|].
  destruct A as [|c A]; cbn [app strip_prefix_ci].
  - destruct (matches_ci U a LF) eqn:E; [|reflexivity].
    exfalso. apply H. left. now apply Hc.
  - destruct (matches_ci U a c); [|reflexivity].
    rewrite IH by (intros I; apply H; now right).
    destruct (strip_prefix_ci U pfx A) as [[m r]|]; reflexivity.
Qed.

Lemma short_code_at_app (pfx A : text) :
  ~ In LF pfx ->
  short_code_at U pfx (A ++ LF :: B) = short_code_at U pfx A.
Proof.
  intros H. unfold short_code_at. rewrite (strip_prefix_ci_app pfx A H).
  destruct (strip_prefix_ci U pfx A) as [[m r]|]; [|reflexivity].
  destruct r as [|c r]; cbn [app]; [reflexivity|].
  now rewrite digits_then_boundary_app.
Qed.

Lemma task_match_at_app (pfx : text) (prev : option N) (A : text) :
  ~ In LF pfx ->
  task_match_at U pfx prev (A ++ LF :: B) = task_match_at U pfx prev A.
Proof.
  intros H. unfold task_match_at.
  now rewrite at_boundary_app, short_code_at_app.
Qed.

Lemma strip_prefix_app (l A : text) :
  ~ In LF l ->
  strip_prefix l (A ++ LF :: B) =
  option_map (fun r => r ++ LF :: B) (strip_prefix l A).
Proof.
  revert A. induction l as [|a l IH]; intros A H; [reflexivity|].
  destruct A as [|c A]; cbn [app strip_prefix option_map].
  - destruct (N.eqb_spec a LF) as [->|_]; [|reflexivity].
    exfalso. apply H. now left.
  - destruct (a =? c)%N; [|reflexivity].
    apply IH. intros I. apply H. now right.
Qed.

Lemma take_while_link_app (A : text) :
  take_while (is_link_char U) (A ++ LF :: B) = take_while (is_link_char U) A.
Proof.
  destruct lines as (_ & _ & Hs & _).
  induction A as [|c A IH]; cbn [app take_while].
  - unfold is_link_char. now rewrite Hs.
  - now rewrite IH.
Qed.

End LineFeed.

Hypothesis lines : separates_lines U.

Lemma literal_then_local (l : text) (k : text -> option text) :
  ~ In LF l -> matcher_local k -> matcher_local (literal_then l k).
Proof.
  intros Hl Hk A B. unfold literal_then.
  rewrite (strip_prefix_app B l A Hl).
  destruct (strip_prefix l A); cbn [option_map]; [now rewrite Hk | reflexivity].
Qed.

Lemma optional_then_local (l : text) (k : text -> option text) :
  ~ In LF l -> matcher_local k -> matcher_local (optional_then l k).
Proof.
  intros Hl Hk A B. unfold optional_then.
  now rewrite (literal_then_local l k Hl Hk), Hk.
Qed.

Lemma lit_no_line_feed (s : string) :
  Text.forall_chars (fun c => negb (Text.code c =? LF)%N) s = true ->
  ~ In LF (lit s).
Proof.
  induction s as [|c s IH]; cbn [Text.forall_chars lit In]; [tauto|].
  intros H. apply andb_true_iff in H as [Hc Hs].
  intros [E|I]; [|now apply IH].
  rewrite E in Hc. discriminate Hc.
Qed.

Lemma link_tail_local : matcher_local (link_tail U).
Proof.
  intros A B. unfold link_tail.
  rewrite (strip_prefix_app B (lit "notion.so/") A
             (lit_no_line_feed "notion.so/" eq_refl)).
  destruct (strip_prefix (lit "notion.so/") A); cbn [option_map];
    [|reflexivity].
  now rewrite (take_while_link_app lines).
Qed.

Lemma link_tail_bounded : matcher_bounded (link_tail U).
Proof.
  intros s m. unfold link_tail.
  destruct (strip_prefix (lit "notion.so/") s) as [r|] eqn:E; [|discriminate].
  destruct (nonempty (take_while (is_link_char U) r)); [|discriminate].
  intros [= <-]. rewrite (strip_prefix_length _ _ _ E).
  pose proof (take_while_length (is_link_char U) r).
  cbn [lit app List.length]. lia.
Qed.

Lemma link_match_at_local : matcher_local (link_match_at U).
Proof.
  unfold link_match_at.
  repeat first [ apply literal_then_local | apply optional_then_local
               | apply link_tail_local
               | apply lit_no_line_feed; reflexivity ].
Qed.

Lemma link_match_at_bounded : matcher_bounded (link_match_at U).
Proof.
  unfold link_match_at.
  repeat first [ apply literal_then_bounded | apply optional_then_bounded
               | apply link_tail_bounded ].
Qed.

Lemma strip_prefix_ci_shape (pfx s m r : text) :
  strip_prefix_ci U pfx s = Some (m, r) ->
  s = m ++ r /\ Forall2 (fun p c => matches_ci U p c = true) pfx m.
Proof.
  revert s m r. induction pfx as [|a pfx IH]; intros s m r H;
    cbn [strip_prefix_ci] in H.
  - injection H as <- <-. split; [reflexivity | constructor].
  - destruct s as [|c s]; [discriminate H|].
    destruct (matches_ci U a c) eqn:E; [|discriminate H].
    destruct (strip_prefix_ci U pfx s) as [[m' r']|] eqn:S; [|discriminate H].
    injection H as <- <-. destruct (IH _ _ _ S) as [-> F].
    split; [reflexivity | now constructor].
Qed.

Lemma digits_then_boundary_run (s ds : text) :
  digits_then_boundary U s = Some ds ->
  ds <> [] /\ Forall (fun d => is_digit U d = true) ds /\
  List.length ds <= List.length s.
Proof.
  revert ds. induction s as [|c s IH]; intros ds H;
    cbn [digits_then_boundary] in H; [discriminate H|].
  destruct (is_digit U c) eqn:D; [|discriminate H].
  destruct (digits_then_boundary U s) as [m|].
  - injection H as <-. destruct (IH m eq_refl) as (_ & F & L).
    split; [discriminate|]. split; [now constructor|].
    cbn [List.length]. lia.
  - destruct (at_boundary U (Some c) s); [|discriminate H].
    injection H as <-. split; [discriminate|].
    split; [now repeat constructor|]. cbn [List.length]. lia.
Qed.

Lemma short_code_at_code (pfx s m : text) :
  short_code_at U pfx s = Some m ->
  short_code U pfx m /\ List.length m <= List.length s /\ m <> [].
Proof.
  unfold short_code_at.
  destruct (strip_prefix_ci U pfx s) as [[m1 r]|] eqn:S; [|discriminate].
  destruct r as [|c r]; [discriminate|].
  destruct (N.eqb_spec c hyphen) as [->|_]; [|discriminate].
  destruct (digits_then_boundary U r) as [ds|] eqn:D; [|discriminate].
  intros [= <-]. destruct (strip_prefix_ci_shape _ _ _ _ S) as [-> F].
  destruct (digits_then_boundary_run _ _ D) as (Ne & Fd & L).
  split; [now exists m1, ds|]. split.
  - rewrite !length_app. cbn [List.length]. lia.
  - destruct m1; discriminate.
Qed.

Lemma task_match_at_bounded (pfx : text) (prev : option N) :
  matcher_bounded (task_match_at U pfx prev).
Proof.
  intros s m. unfold task_match_at.
  destruct (at_boundary U prev s); [|discriminate].
  intros H. now apply short_code_at_code in H.
Qed.

(** ** The scans split at a line feed *)

Lemma task_scan_prev (pfx : text) (p1 p2 : option N) (k : nat) (s : text) :
  is_word_opt U p1 = is_word_opt U p2 ->
  task_scan U pfx p1 k s = task_scan U pfx p2 k s.
Proof.
  intros H. destruct s as [|c s]; [reflexivity|].
  destruct k; cbn [task_scan]; [|reflexivity].
  unfold task_match_at, at_boundary. now rewrite H.
Qed.

Lemma task_scan_app (pfx A B : text) :
  ~ In LF pfx ->
  forall prev skip, skip <= List.length A ->
  task_scan U pfx prev skip (A ++ LF :: B) =
  task_scan U pfx prev skip A ++ task_finditer U pfx B.
Proof.
  intros Hp. induction A as [|c A IH]; intros prev skip Hs.
  - assert (skip = 0) by (cbn in Hs; lia). subst skip.
    cbn [app task_scan].
    pose proof (task_match_at_app lines B pfx prev [] Hp) as E.
    cbn [app] in E. rewrite E.
    assert (N : task_match_at U pfx prev [] = None).
    { destruct (task_match_at U pfx prev []) as [m|] eqn:M; [|reflexivity].
      unfold task_match_at in M.
      destruct (at_boundary U prev []); [|discriminate M].
      apply short_code_at_code in M as (_ & L & Ne).
      destruct m; [contradiction | cbn in L; lia]. }
    rewrite N. apply task_scan_prev.
    destruct lines as (Hw & _). cbn [is_word_opt]. now rewrite Hw.
  - cbn [app]. destruct skip as [|k]; cbn [task_scan].
    + pose proof (task_match_at_app lines B pfx prev (c :: A) Hp) as E.
      cbn [app] in E. rewrite E.
      destruct (task_match_at U pfx prev (c :: A)) as [m|] eqn:M.
      * apply task_match_at_bounded in M. cbn [List.length] in M.
        rewrite IH by lia. reflexivity.
      * apply IH. lia.
    + apply IH. cbn [List.length] in Hs. lia.
Qed.

Lemma link_scan_app (A B : text) :
  forall skip, skip <= List.length A ->
  link_scan U skip (A ++ LF :: B) = link_scan U skip A ++ link_finditer U B.
Proof.
  induction A as [|c A IH]; intros skip Hs.
  - assert (skip = 0) by (cbn in Hs; lia). subst skip.
    cbn [app link_scan].
    pose proof (link_match_at_local [] B) as E. cbn [app] in E. rewrite E.
    assert (N : link_match_at U [] = None) by reflexivity.
    rewrite N. reflexivity.
  - cbn [app]. destruct skip as [|k]; cbn [link_scan].
    + pose proof (link_match_at_local (c :: A) B) as E.
      cbn [app] in E. rewrite E.
      destruct (link_match_at U (c :: A)) as [m|] eqn:M.
      * apply link_match_at_bounded in M. cbn [List.length] in M.
        rewrite IH by lia. reflexivity.
      * apply IH. lia.
    + apply IH. cbn [List.length] in Hs. lia.
Qed.

Lemma task_finditer_join3 (pfx a b c : text) :
  ~ In LF pfx ->
  task_finditer U pfx (join3 a b c) =
  task_finditer U pfx a ++ task_finditer U pfx b ++ task_finditer U pfx c.
Proof.
  intros H. unfold task_finditer, join3.
  rewrite (task_scan_app pfx a _ H) by lia.
  unfold task_finditer. rewrite (task_scan_app pfx b _ H) by lia.
  reflexivity.
Qed.

Lemma link_finditer_join3 (a b c : text) :
  link_finditer U (join3 a b c) =
  link_finditer U a ++ link_finditer U b ++ link_finditer U c.
Proof.
  unfold link_finditer, join3.
  rewrite (link_scan_app a) by lia.
  unfold link_finditer. rewrite (link_scan_app b) by lia.
  reflexivity.
Qed.

Lemma task_ids_In (pfx a b : text) (c : option text) (x : text) :
  ~ In LF pfx ->
  In x (task_ids (parse_task_refs U pfx a b c)) <->
  exists f, In f [a; b; or_empty c] /\
            In x (map (upper U) (task_finditer U pfx f)).
Proof.
  intros H. unfold parse_task_refs. cbn [task_ids].
  rewrite py_sorted_set_In, (task_finditer_join3 pfx a b _ H).
  rewrite !map_app, !in_app_iff. split.
  - intros [I|[I|I]];
      [exists a | exists b | exists (or_empty c)]; cbn [In]; auto.
  - intros (f & [<-|[<-|[<-|[]]]] & I); auto.
Qed.

Lemma notion_links_In (pfx a b : text) (c : option text) (x : text) :
  In x (notion_links (parse_task_refs U pfx a b c)) <->
  exists f, In f [a; b; or_empty c] /\ In x (link_finditer U f).
Proof.
  unfold parse_task_refs. cbn [notion_links].
  rewrite py_sorted_set_In, link_finditer_join3.
  rewrite !in_app_iff. split.
  - intros [I|[I|I]];
      [exists a | exists b | exists (or_empty c)]; cbn [In]; auto.
  - intros (f & [<-|[<-|[<-|[]]]] & I); auto.
Qed.

End Scans.

(** C8, as the code has it. For every table of the interpreter in which
    the line feed separates lines, every task prefix that holds no line
    feed, and all titles, bodies and branches: extraction is a function of
    its three inputs, so running it again on the same inputs returns the
    same two lists; every identifier it returns is still returned when the
    three fields are given in another order; both lists are in strictly
    increasing order (sorted, and without repetition); every short code is
    the upper-casing of a match, and is left as it is by upper-casing
    where upper-casing twice is upper-casing once. *)
Theorem parse_task_refs_stable (U : Tables) (pfx title body : text)
    (branch : option text) :
  separates_lines U ->
  ~ In LF pfx ->
  let refs := parse_task_refs U pfx title body branch in
  (forall title' body' branch',
      title' = title -> body' = body -> branch' = branch ->
      parse_task_refs U pfx title' body' branch' = refs) /\
  (forall title' body' branch',
      Permutation [title'; body'; or_empty branch']
        [title; body; or_empty branch] ->
      let refs' := parse_task_refs U pfx title' body' branch' in
      (forall x, In x (task_ids refs) -> In x (task_ids refs')) /\
      (forall x, In x (notion_links refs) -> In x (notion_links refs'))) /\
  increasing (task_ids refs) /\
  increasing (notion_links refs) /\
  Forall (fun id =>
            exists m,
              In m (task_finditer U pfx (join3 title body (or_empty branch)))
              /\ id = upper U m)
    (task_ids refs) /\
  ((forall s, upper U (upper U s) = upper U s) ->
   Forall (fun id => upper U id = id) (task_ids refs)).
Proof.
  intros Hl Hp refs.
  assert (Ids : forall x,
             In x (task_ids refs) ->
             exists m,
               In m (task_finditer U pfx (join3 title body (or_empty branch)))
               /\ x = upper U m).
  { intros x Hx. subst refs. unfold parse_task_refs in Hx.
    cbn [task_ids] in Hx.
    apply py_sorted_set_In, in_map_iff in Hx as (m & <- & I). now exists m. }
  split; [intros; subst; reflexivity|]. split; [|split; [|split; [|split]]].
  - intros title' body' branch' P refs'. split.
    + intros x Hx. subst refs refs'.
      apply (task_ids_In U Hl pfx _ _ _ x Hp) in Hx as (f & Hf & Hx).
      apply (task_ids_In U Hl pfx _ _ _ x Hp). exists f.
      split; [|assumption].
      eapply Permutation_in; [symmetry; eassumption | assumption].
    + intros x Hx. subst refs refs'.
      apply (notion_links_In U Hl) in Hx as (f & Hf & Hx).
      apply (notion_links_In U Hl). exists f. split; [|assumption].
      eapply Permutation_in; [symmetry; eassumption | assumption].
  - apply py_sorted_set_increasing.
  - apply py_sorted_set_increasing.
  - apply Forall_forall. exact Ids.
  - intros Idem. apply Forall_forall. intros x Hx.
    destruct (Ids x Hx) as (m & _ & ->). apply Idem.
Qed.

Lemma ascii_lines : separates_lines ascii_tables.
Proof.
  repeat split. intros a. cbn [matches_ci ascii_tables].
  unfold ascii_lower, LF.
  destruct ((65 <=? a) && (a <=? 90))%N eqn:E; cbn; rewrite N.eqb_eq;
    [|now intros ->].
  apply andb_true_iff in E as [E _]. apply N.leb_le in E. lia.
Qed.

Lemma parse_task_refs_stable_witness :
  task_ids (parse_task_refs ascii_tables (lit "TASK") (lit "Fix task-12") []
              (Some (lit "feature/TASK-3374"))) =
    [lit "TASK-12"; lit "TASK-3374"] /\
  In (lit "TASK-12")
    (task_ids (parse_task_refs ascii_tables (lit "TASK")
                 (lit "feature/TASK-3374") (lit "Fix task-12") None)).
Proof.
  split; [vm_compute; reflexivity|].
  destruct (parse_task_refs_stable ascii_tables (lit "TASK")
              (lit "Fix task-12") [] (Some (lit "feature/TASK-3374"))
              ascii_lines) as (_ & Hmove & _).
  - apply lit_no_line_feed. reflexivity.
  - destruct (Hmove (lit "feature/TASK-3374") (lit "Fix task-12") None)
      as [Hids _].
    + cbn [or_empty]. apply Permutation_sym.
      apply (perm_trans
               (l' := [lit "Fix task-12"; lit "feature/TASK-3374"; []])).
      * apply perm_skip, perm_swap.
      * apply perm_swap.
    + apply Hids. vm_compute. left. reflexivity.
Defined.

(** C8, as the specification states it, fails: with a task prefix that
    holds a line feed, [A], a line feed, [B], the title [A] and the body
    [B-1] give one short code, which ends in the title and starts in the
    body, and the same two fields in the other order give none. *)
Lemma line_feed_prefix_drops_match :
  Permutation [lit "B-1"; lit "A"; or_empty None]
    [lit "A"; lit "B-1"; or_empty None] /\
  task_ids (parse_task_refs ascii_tables (lit "A" ++ LF :: lit "B")
              (lit "A") (lit "B-1") None) =
    [lit "A" ++ LF :: lit "B-1"] /\
  task_ids (parse_task_refs ascii_tables (lit "A" ++ LF :: lit "B")
              (lit "B-1") (lit "A") None) = [].
Proof.
  split; [apply perm_swap|]. split; vm_compute; reflexivity.
Qed.

(** ** The shape of what is extracted *)

Section Shapes.

Variable U : Tables.

Lemma task_scan_matches (pfx : text) (s : text) :
  forall prev skip m,
    In m (task_scan U pfx prev skip s) -> short_code U pfx m.
Proof.
  induction s as [|c s IH]; intros prev skip m H; [destruct H|].
  destruct skip as [|k]; cbn [task_scan] in H; [|exact (IH _ _ _ H)].
  destruct (task_match_at U pfx prev (c :: s)) as [m'|] eqn:M;
    [|exact (IH _ _ _ H)].
  destruct H as [<-|H]; [|exact (IH _ _ _ H)].
  unfold task_match_at in M.
  destruct (at_boundary U prev (c :: s)); [|discriminate M].
  now apply short_code_at_code in M.
Qed.

Lemma link_tail_shape (s m : text) :
  link_tail U s = Some m ->
  exists path,
    m = lit "notion.so/" ++ path /\ path <> [] /\
    Forall (fun c => is_link_char U c = true) path.
Proof.
  unfold link_tail.
  destruct (strip_prefix (lit "notion.so/") s) as [r|]; [|discriminate].
  destruct (take_while (is_link_char U) r) as [|c run] eqn:T;
    cbn [nonempty]; [discriminate|].
  intros [= <-]. exists (c :: run). split; [reflexivity|].
  split; [discriminate|]. rewrite <- T. apply take_while_all.
Qed.

Lemma is_link_char_spec (c : N) :
  is_link_char U c = true ->
  is_space U c = false /\ c <> 41%N /\ c <> 62%N /\ c <> 93%N.
Proof.
  unfold is_link_char. rewrite negb_true_iff, !orb_false_iff, !N.eqb_neq.
  tauto.
Qed.

Lemma link_match_at_shape (s m : text) :
  link_match_at U s = Some m -> notion_link U m.
Proof.
  unfold link_match_at. intros H.
  apply literal_then_inv in H as (r1 & m1 & _ & H & ->).
  assert (Host : forall r m2,
             optional_then (lit "www.") (link_tail U) r = Some m2 ->
             exists host path,
               m2 = host ++ lit "notion.so/" ++ path /\
               (host = [] \/ host = lit "www.") /\ path <> [] /\
               Forall (fun c => is_space U c = false /\
                                c <> 41%N /\ c <> 62%N /\ c <> 93%N) path).
  { intros r m2 O.
    apply optional_then_inv in O as [(r' & m' & _ & T & ->)|T];
      apply link_tail_shape in T as (path & -> & Ne & F);
      [exists (lit "www."), path | exists [], path];
      (split; [reflexivity|]); (split; [auto|]); (split; [exact Ne|]);
      (eapply Forall_impl; [|exact F]); apply is_link_char_spec. }
  apply optional_then_inv in H as [(r2 & m2 & _ & H & ->)|H];
    apply literal_then_inv in H as (r3 & m3 & _ & H & ->);
    destruct (Host _ _ H) as (host & path & -> & Hh & Ne & F).
  - exists (lit "https"), host, path. split; [reflexivity | auto].
  - exists (lit "http"), host, path. split; [reflexivity | auto].
Qed.

Lemma link_scan_matches (s : text) :
  forall skip m, In m (link_scan U skip s) -> notion_link U m.
Proof.
  induction s as [|c s IH]; intros skip m H; [destruct H|].
  destruct skip as [|k]; cbn [link_scan] in H; [|exact (IH _ _ H)].
  destruct (link_match_at U (c :: s)) as [m'|] eqn:M; [|exact (IH _ _ H)].
  destruct H as [<-|H]; [|exact (IH _ _ H)].
  exact (link_match_at_shape _ _ M).
Qed.

(** X15. Whatever the tables of the interpreter: every short code
    [parse_task_refs] returns is the upper-casing of a text made of one
    character for each character of the prefix, which that character
    matches without case, then a hyphen, then one digit or more. *)
Theorem task_ids_are_short_codes (pfx title body : text)
    (branch : option text) (id : text) :
  In id (task_ids (parse_task_refs U pfx title body branch)) ->
  exists code, short_code U pfx code /\ id = upper U code.
Proof.
  unfold parse_task_refs. cbn [task_ids]. intros H.
  apply py_sorted_set_In, in_map_iff in H as (m & <- & I).
  exists m. split; [|reflexivity].
  exact (task_scan_matches pfx _ _ _ _ I).
Qed.

(** X16. Whatever the tables of the interpreter: every link
    [parse_task_refs] returns is [http://] or [https://], then
    [notion.so/] with or without [www.] before it, then a path of one
    character or more that holds no white space and none of [)], [>] and
    []]. *)
Theorem notion_links_are_links (pfx title body : text)
    (branch : option text) (link : text) :
  In link (notion_links (parse_task_refs U pfx title body branch)) ->
  notion_link U link.
Proof.
  unfold parse_task_refs. cbn [notion_links]. intros H.
  apply (proj1 (py_sorted_set_In _ _)) in H.
  exact (link_scan_matches _ _ _ H).
Qed.

End Shapes.

Lemma task_ids_are_short_codes_witness :
  exists code,
    short_code ascii_tables (lit "TASK") code /\
    lit "TASK-3374" = upper ascii_tables code.
Proof.
  apply (task_ids_are_short_codes ascii_tables (lit "TASK")
           (lit "Release automation task-3374") [] None (lit "TASK-3374")).
  vm_compute. left. reflexivity.
Defined.

Lemma notion_links_are_links_witness :
  notion_link ascii_tables
    (lit "https://www.notion.so/Tasks-ci-cd-25b6cafc5b5c801fba02ea17d3cc4b77").
Proof.
  apply (notion_links_are_links ascii_tables (lit "TASK")
           (lit "Release automation TASK-3374")
           (lit "See (https://www.notion.so/Tasks-ci-cd-25b6cafc5b5c801fba02ea17d3cc4b77) for the task")
           None).
  vm_compute. left. reflexivity.
Defined.

End UnicodeFacts.

(* ================================================================== *)
(** * The two extractions agree on ASCII text *)
(* ================================================================== *)

Module Agreement.
Import Unicode AsciiText UnicodeFacts.
Import LinkerFacts.
Local Open Scope list_scope.

(** ** Characters and their code points *)

Lemma code_injective (a b : ascii) : Text.code a = Text.code b -> a = b.
Proof.
  unfold Text.code. intros E.
  rewrite <- (ascii_N_embedding a), <- (ascii_N_embedding b). now rewrite E.
Qed.

Lemma code_eqb (a b : ascii) : (Text.code a =? Text.code b)%N = (a =? b)%char.
Proof.
  destruct (Ascii.eqb_spec a b) as [->|N]; [apply N.eqb_refl|].
  apply N.eqb_neq. intros E. apply N. now apply code_injective.
Qed.

Lemma code_lower (c : ascii) :
  Text.code (Text.to_lower c) = ascii_lower (Text.code c).
Proof. ascii_cases c; reflexivity. Qed.

Lemma code_upper (c : ascii) :
  Text.code (Text.to_upper c) = ascii_upper (Text.code c).
Proof. ascii_cases c; reflexivity. Qed.

Lemma word_ascii (c : ascii) :
  is_word ascii_tables (Text.code c) = Text.is_word c.
Proof. ascii_cases c; reflexivity. Qed.

Lemma digit_ascii (c : ascii) :
  is_digit ascii_tables (Text.code c) = Text.is_digit c.
Proof. ascii_cases c; reflexivity. Qed.

Lemma space_ascii (c : ascii) :
  is_space ascii_tables (Text.code c) = Text.is_space c.
Proof. ascii_cases c; reflexivity. Qed.

(** ** Texts *)

Lemma lit_app (a b : string) : lit (a ++ b)%string = lit a ++ lit b.
Proof.
  induction a as [|c a IH]; [reflexivity|].
  cbn [append lit app]. now rewrite IH.
Qed.

Lemma lit_length (s : string) : List.length (lit s) = String.length s.
Proof.
  induction s as [|c s IH]; [reflexivity|].
  cbn [lit List.length String.length]. now rewrite IH.
Qed.

Lemma lit_inj (a b : string) : lit a = lit b -> a = b.
Proof.
  revert b. induction a as [|c a IH]; intros [|d b] E; try discriminate E;
    [reflexivity|].
  cbn [lit] in E. injection E as Ec Es.
  now rewrite (code_injective c d Ec), (IH b Es).
Qed.

Lemma ascii_text_cons (c : ascii) (s : string) :
  Spec.ascii_text (String c s) <->
  (Text.code c < 128)%N /\ Spec.ascii_text s.
Proof.
  unfold Spec.ascii_text. cbn [Text.forall_chars].
  now rewrite andb_true_iff, N.ltb_lt.
Qed.

Lemma ascii_text_app (a b : string) :
  Spec.ascii_text (a ++ b)%string <-> Spec.ascii_text a /\ Spec.ascii_text b.
Proof.
  induction a as [|c a IH]; cbn [append].
  - split; [now split | now intros [_ H]].
  - rewrite !ascii_text_cons, IH. tauto.
Qed.

Lemma lit_below_128 (s : string) :
  Spec.ascii_text s -> Forall (fun c => (c < 128)%N) (lit s).
Proof.
  induction s as [|c s IH]; intros H; cbn [lit]; [constructor|].
  apply ascii_text_cons in H as [Hc Hs]. constructor; auto.
Qed.

Lemma head_ascii (s : string) :
  Spec.ascii_text s -> ascii_opt (Text.head s).
Proof.
  destruct s as [|c s]; [exact (fun _ => I)|].
  intros H. now apply ascii_text_cons in H.
Qed.

Lemma hd_lit (s : string) :
  hd_error (lit s) = option_map Text.code (Text.head s).
Proof. now destruct s. Qed.

(** ** The order *)

Lemma compare_lit (a b : string) : compare (lit a) (lit b) = (a ?= b)%string.
Proof.
  revert b. induction a as [|c a IH]; intros [|d b]; try reflexivity.
  cbn [lit compare String.compare]. unfold Ascii.compare, Text.code.
  now rewrite IH.
Qed.

Lemma leb_lit (a b : string) : leb (lit a) (lit b) = (a <=? b)%string.
Proof. unfold leb, String.leb. now rewrite compare_lit. Qed.

Lemma insert_sorted_lit (x : string) (l : list string) :
  insert_sorted (lit x) (map lit l) = map lit (Linker.insert_sorted x l).
Proof.
  induction l as [|y l IH]; [reflexivity|].
  cbn [map insert_sorted Linker.insert_sorted]. rewrite leb_lit.
  destruct (x <=? y)%string; [reflexivity|]. cbn [map]. now rewrite IH.
Qed.

Lemma py_sorted_lit (l : list string) :
  py_sorted (map lit l) = map lit (Linker.py_sorted l).
Proof.
  induction l as [|x l IH]; [reflexivity|].
  cbn [map py_sorted Linker.py_sorted fold_right].
  fold (py_sorted (map lit l)). fold (Linker.py_sorted l).
  now rewrite IH, insert_sorted_lit.
Qed.

Lemma py_set_lit (l : list string) :
  py_set (map lit l) = map lit (Linker.py_set l).
Proof.
  unfold py_set, Linker.py_set.
  induction l as [|x l IH]; [reflexivity|].
  cbn [map nodup].
  destruct (in_dec text_dec (lit x) (map lit l)) as [I|N];
    destruct (in_dec string_dec x l) as [I'|N'].
  - exact IH.
  - exfalso. apply in_map_iff in I as (y & E & Hy).
    apply lit_inj in E. subst y. contradiction.
  - exfalso. apply N. now apply in_map.
  - cbn [map]. now rewrite IH.
Qed.

Section Tables.

Variable U : Tables.
Hypothesis tables : ascii_below_128 U.

Lemma word_agrees (c : ascii) :
  (Text.code c < 128)%N -> is_word U (Text.code c) = Text.is_word c.
Proof.
  intros H. destruct tables as (A & _).
  destruct (A _ H) as (-> & _). apply word_ascii.
Qed.

Lemma digit_agrees (c : ascii) :
  (Text.code c < 128)%N -> is_digit U (Text.code c) = Text.is_digit c.
Proof.
  intros H. destruct tables as (A & _).
  destruct (A _ H) as (_ & -> & _). apply digit_ascii.
Qed.

Lemma space_agrees (c : ascii) :
  (Text.code c < 128)%N -> is_space U (Text.code c) = Text.is_space c.
Proof.
  intros H. destruct tables as (A & _).
  destruct (A _ H) as (_ & _ & ->). apply space_ascii.
Qed.

Lemma ci_agrees (a b : ascii) :
  (Text.code a < 128)%N -> (Text.code b < 128)%N ->
  matches_ci U (Text.code a) (Text.code b) =
  (Text.to_lower a =? Text.to_lower b)%char.
Proof.
  intros Ha Hb. destruct tables as (_ & A & _). rewrite (A _ _ Ha Hb).
  cbn [matches_ci ascii_tables].
  now rewrite <- !code_lower, code_eqb.
Qed.

Lemma upper_agrees (s : string) :
  Spec.ascii_text s -> upper U (lit s) = lit (Text.upper s).
Proof.
  intros H. destruct tables as (_ & _ & A).
  rewrite (A _ (lit_below_128 s H)). cbn [upper ascii_tables]. clear.
  unfold Text.upper.
  induction s as [|c s IH]; [reflexivity|].
  cbn [lit map Text.map_string]. now rewrite IH, code_upper.
Qed.

Lemma is_word_opt_agrees (c : option ascii) :
  ascii_opt c -> is_word_opt U (option_map Text.code c) = Text.is_word_opt c.
Proof. destruct c as [c|]; [apply word_agrees | reflexivity]. Qed.

Lemma at_boundary_agrees (prev : option ascii) (s : string) :
  ascii_opt prev -> Spec.ascii_text s ->
  at_boundary U (option_map Text.code prev) (lit s) = Text.at_boundary prev s.
Proof.
  intros Hp Hs. unfold at_boundary, Text.at_boundary.
  now rewrite hd_lit, !is_word_opt_agrees by (auto using head_ascii).
Qed.

Lemma digits_agree (s : string) :
  Spec.ascii_text s ->
  digits_then_boundary U (lit s) =
  option_map lit (Text.digits_then_boundary s).
Proof.
  induction s as [|c s IH]; intros H; [reflexivity|].
  apply ascii_text_cons in H as [Hc Hs].
  cbn [lit digits_then_boundary Text.digits_then_boundary].
  rewrite (digit_agrees c Hc). destruct (Text.is_digit c); [|reflexivity].
  rewrite (IH Hs).
  destruct (Text.digits_then_boundary s) as [m|]; [reflexivity|].
  cbn [option_map].
  change (Some (Text.code c)) with (option_map Text.code (Some c)).
  rewrite (at_boundary_agrees (Some c) s Hc Hs).
  destruct (Text.at_boundary (Some c) s); reflexivity.
Qed.

Lemma strip_prefix_ci_agrees (p s : string) :
  Spec.ascii_text p -> Spec.ascii_text s ->
  strip_prefix_ci U (lit p) (lit s) =
  option_map (fun mr => (lit (fst mr), lit (snd mr)))
    (Text.strip_prefix_ci p s).
Proof.
  revert s. induction p as [|a p IH]; intros s Hp Hs; [reflexivity|].
  apply ascii_text_cons in Hp as [Ha Hp].
  destruct s as [|b s]; [reflexivity|].
  apply ascii_text_cons in Hs as [Hb Hs].
  cbn [lit strip_prefix_ci Text.strip_prefix_ci].
  rewrite (ci_agrees a b Ha Hb).
  destruct (Text.to_lower a =? Text.to_lower b)%char; [|reflexivity].
  rewrite (IH s Hp Hs).
  destruct (Text.strip_prefix_ci p s) as [[m r]|]; reflexivity.
Qed.

Lemma strip_prefix_ci_rest (p s m r : string) :
  Text.strip_prefix_ci p s = Some (m, r) ->
  Spec.ascii_text s -> Spec.ascii_text r.
Proof.
  revert s m r. induction p as [|a p IH]; intros s m r H Hs;
    cbn [Text.strip_prefix_ci] in H.
  - now injection H as _ <-.
  - destruct s as [|b s]; [discriminate H|].
    destruct (Text.to_lower a =? Text.to_lower b)%char; [|discriminate H].
    destruct (Text.strip_prefix_ci p s) as [[m' r']|] eqn:E; [|discriminate H].
    injection H as _ <-. apply ascii_text_cons in Hs as [_ Hs].
    exact (IH _ _ _ E Hs).
Qed.

Lemma short_code_at_agrees (p s : string) :
  Spec.ascii_text p -> Spec.ascii_text s ->
  short_code_at U (lit p) (lit s) = option_map lit (Text.short_code_at p s).
Proof.
  intros Hp Hs. unfold short_code_at, Text.short_code_at.
  rewrite (strip_prefix_ci_agrees p s Hp Hs).
  destruct (Text.strip_prefix_ci p s) as [[m r]|] eqn:E; [|reflexivity].
  cbn [option_map fst snd].
  pose proof (strip_prefix_ci_rest _ _ _ _ E Hs) as Hr.
  destruct r as [|c r]; [reflexivity|].
  apply ascii_text_cons in Hr as [_ Hr]. cbn [lit].
  change hyphen with (Text.code "-"%char). rewrite code_eqb.
  destruct (c =? "-")%char; [|reflexivity].
  rewrite (digits_agree r Hr).
  destruct (Text.digits_then_boundary r) as [ds|]; [|reflexivity].
  cbn [option_map]. now rewrite lit_app.
Qed.

Lemma task_match_at_agrees (p : string) (prev : option ascii) (s : string) :
  Spec.ascii_text p -> ascii_opt prev -> Spec.ascii_text s ->
  task_match_at U (lit p) (option_map Text.code prev) (lit s) =
  option_map lit (Linker.task_match_at p prev s).
Proof.
  intros Hp Hv Hs. unfold task_match_at, Linker.task_match_at.
  rewrite (at_boundary_agrees prev s Hv Hs).
  destruct (Text.at_boundary prev s); [|reflexivity].
  now apply short_code_at_agrees.
Qed.

Lemma task_scan_agrees (p s : string) :
  Spec.ascii_text p -> Spec.ascii_text s ->
  forall prev k,
    ascii_opt prev ->
    task_scan U (lit p) (option_map Text.code prev) k (lit s) =
    map lit (Linker.task_scan p prev k s).
Proof.
  intros Hp. induction s as [|c s IH]; intros Hs prev k Hv; [reflexivity|].
  pose proof Hs as Hcs. apply ascii_text_cons in Hcs as [Hc Hs'].
  assert (Next : forall k',
             task_scan U (lit p) (Some (Text.code c)) k' (lit s) =
             map lit (Linker.task_scan p (Some c) k' s))
    by (intros k'; exact (IH Hs' (Some c) k' Hc)).
  destruct k as [|k]; cbn [lit task_scan Linker.task_scan]; [|apply Next].
  pose proof (task_match_at_agrees p prev (String c s) Hp Hv Hs) as M.
  cbn [lit] in M. rewrite M.
  destruct (Linker.task_match_at p prev (String c s)) as [m|];
    cbn [option_map map]; [|apply Next].
  now rewrite Next, lit_length.
Qed.

(** ** Links *)

Lemma strip_prefix_agrees (l s : string) :
  strip_prefix (lit l) (lit s) = option_map lit (Text.strip_prefix l s).
Proof.
  revert s. induction l as [|a l IH]; intros s; [reflexivity|].
  destruct s as [|b s]; [reflexivity|].
  cbn [lit strip_prefix Text.strip_prefix]. rewrite code_eqb.
  destruct (a =? b)%char; [apply IH | reflexivity].
Qed.

Lemma strip_prefix_rest (l s r : string) :
  Text.strip_prefix l s = Some r -> Spec.ascii_text s -> Spec.ascii_text r.
Proof.
  revert s. induction l as [|a l IH]; intros s H Hs;
    cbn [Text.strip_prefix] in H.
  - now injection H as <-.
  - destruct s as [|b s]; [discriminate H|].
    destruct (a =? b)%char; [|discriminate H].
    apply ascii_text_cons in Hs as [_ Hs]. exact (IH _ H Hs).
Qed.

Lemma link_char_agrees (c : ascii) :
  (Text.code c < 128)%N ->
  is_link_char U (Text.code c) = Linker.is_link_char c.
Proof.
  intros H. unfold is_link_char, Linker.is_link_char.
  rewrite (space_agrees c H).
  change 41%N with (Text.code ")"%char).
  change 62%N with (Text.code ">"%char).
  change 93%N with (Text.code "]"%char).
  now rewrite !code_eqb.
Qed.

Lemma take_while_agrees (s : string) :
  Spec.ascii_text s ->
  take_while (is_link_char U) (lit s) =
  lit (Linker.take_while Linker.is_link_char s).
Proof.
  induction s as [|c s IH]; intros H; [reflexivity|].
  apply ascii_text_cons in H as [Hc Hs].
  cbn [lit take_while Linker.take_while]. rewrite (link_char_agrees c Hc).
  destruct (Linker.is_link_char c); [|reflexivity].
  cbn [lit]. now rewrite (IH Hs).
Qed.

Lemma link_tail_agrees : agree (link_tail U) Linker.link_tail.
Proof.
  intros s Hs. unfold link_tail, Linker.link_tail.
  rewrite (strip_prefix_agrees "notion.so/" s).
  destruct (Text.strip_prefix "notion.so/" s) as [r|] eqn:E; [|reflexivity].
  cbn [option_map].
  rewrite (take_while_agrees r (strip_prefix_rest _ _ _ E Hs)).
  destruct (Linker.take_while Linker.is_link_char r) as [|c run];
    [reflexivity|].
  cbn [lit nonempty Text.nonempty option_map]. now rewrite lit_app.
Qed.

Lemma literal_then_agrees (l : string) (ku : text -> option text)
    (ka : string -> option string) :
  agree ku ka -> agree (literal_then (lit l) ku) (Linker.literal_then l ka).
Proof.
  intros A s Hs. unfold literal_then, Linker.literal_then.
  rewrite (strip_prefix_agrees l s).
  destruct (Text.strip_prefix l s) as [r|] eqn:E; [|reflexivity].
  cbn [option_map]. rewrite (A r (strip_prefix_rest _ _ _ E Hs)).
  destruct (ka r) as [m|]; [|reflexivity].
  cbn [option_map]. now rewrite lit_app.
Qed.

Lemma optional_then_agrees (l : string) (ku : text -> option text)
    (ka : string -> option string) :
  agree ku ka -> agree (optional_then (lit l) ku) (Linker.optional_then l ka).
Proof.
  intros A s Hs. unfold optional_then.
  rewrite (literal_then_agrees l ku ka A s Hs).
  change (Linker.optional_then l ka s)
    with (match Linker.literal_then l ka s with
          | Some m => Some m
          | None => ka s
          end).
  destruct (Linker.literal_then l ka s) as [m|]; [reflexivity|].
  exact (A s Hs).
Qed.

Lemma link_match_at_agrees : agree (link_match_at U) Linker.link_match_at.
Proof.
  unfold link_match_at, Linker.link_match_at.
  repeat first [ apply literal_then_agrees | apply optional_then_agrees
               | apply link_tail_agrees ].
Qed.

Lemma link_scan_agrees (s : string) :
  Spec.ascii_text s ->
  forall k, link_scan U k (lit s) = map lit (Linker.link_scan k s).
Proof.
  induction s as [|c s IH]; intros Hs k; [reflexivity|].
  pose proof Hs as Hcs. apply ascii_text_cons in Hcs as [_ Hs'].
  destruct k as [|k]; cbn [lit link_scan Linker.link_scan]; [|now apply IH].
  pose proof (link_match_at_agrees (String c s) Hs) as M.
  cbn [lit] in M. rewrite M.
  destruct (Linker.link_match_at (String c s)) as [m|];
    cbn [option_map map]; [|now apply IH].
  now rewrite (IH Hs'), lit_length.
Qed.

(** ** The extraction *)

Lemma join3_lit (a b c : string) :
  join3 (lit a) (lit b) (lit c) = lit (Linker.join3 a b c).
Proof.
  unfold join3, Linker.join3.
  now rewrite !lit_app; cbn [lit]; rewrite !lit_app.
Qed.

Lemma join3_ascii (a b c : string) :
  Spec.ascii_text a -> Spec.ascii_text b -> Spec.ascii_text c ->
  Spec.ascii_text (Linker.join3 a b c).
Proof.
  intros Ha Hb Hc. unfold Linker.join3.
  apply ascii_text_app. split; [exact Ha|].
  apply ascii_text_cons. split; [reflexivity|].
  apply ascii_text_app. split; [exact Hb|].
  apply ascii_text_cons. split; [reflexivity | exact Hc].
Qed.

Lemma task_scan_ascii (p s : string) :
  Spec.ascii_text s ->
  forall prev k, Forall Spec.ascii_text (Linker.task_scan p prev k s).
Proof.
  induction s as [|c s IH]; intros Hs prev k; [constructor|].
  pose proof Hs as Hcs. apply ascii_text_cons in Hcs as [Hc Hs'].
  destruct k as [|k]; cbn [Linker.task_scan]; [|now apply IH].
  destruct (Linker.task_match_at p prev (String c s)) as [m|] eqn:M;
    [|now apply IH].
  constructor; [|now apply IH].
  unfold Linker.task_match_at in M.
  destruct (Text.at_boundary prev (String c s)); [|discriminate M].
  unfold Text.short_code_at in M.
  destruct (Text.strip_prefix_ci p (String c s)) as [[m1 r]|] eqn:E;
    [|discriminate M].
  assert (App : String c s = (m1 ++ r)%string).
  { clear -E. revert E. generalize (String c s). clear. revert m1 r.
    induction p as [|a p IH]; intros m1 r s E; cbn [Text.strip_prefix_ci] in E.
    - now injection E as <- <-.
    - destruct s as [|b s]; [discriminate E|].
      destruct (Text.to_lower a =? Text.to_lower b)%char; [|discriminate E].
      destruct (Text.strip_prefix_ci p s) as [[m' r']|] eqn:E';
        [|discriminate E].
      injection E as <- <-. cbn [append]. now rewrite (IH _ _ _ E'). }
  rewrite App in Hs. apply ascii_text_app in Hs as [Hm Hr].
  destruct r as [|d r]; [discriminate M|].
  destruct (d =? "-")%char; [|discriminate M].
  destruct (Text.digits_then_boundary r) as [ds|] eqn:D; [|discriminate M].
  injection M as <-. apply ascii_text_app. split; [exact Hm|].
  apply ascii_text_cons. split; [reflexivity|].
  apply ascii_text_cons in Hr as [_ Hr].
  clear -D Hr. revert ds D. induction r as [|x r IH]; intros ds D;
    cbn [Text.digits_then_boundary] in D; [discriminate D|].
  apply ascii_text_cons in Hr as [Hx Hr].
  destruct (Text.is_digit x); [|discriminate D].
  destruct (Text.digits_then_boundary r) as [m|].
  - injection D as <-. apply ascii_text_cons. split; [exact Hx|].
    now apply IH.
  - destruct (Text.at_boundary (Some x) r); [|discriminate D].
    injection D as <-. apply ascii_text_cons. split; [exact Hx | reflexivity].
Qed.

(** X21. On ASCII text, the extraction of module [Linker], which [main]
    runs, is the extraction over Unicode text: for every table of the
    interpreter that is the table of ASCII below 128, the short codes and
    the links the two return are the same texts, in the same order. *)
Theorem extraction_on_ascii_text (pfx title body : string)
    (branch : option string) :
  Spec.ascii_text pfx -> Spec.ascii_text title -> Spec.ascii_text body ->
  Spec.ascii_text (Linker.or_empty branch) ->
  let refs := Linker.parse_task_refs_with pfx title body branch in
  let urefs :=
    parse_task_refs U (lit pfx) (lit title) (lit body)
      (option_map lit branch) in
  task_ids urefs = map lit (Linker.task_ids refs) /\
  notion_links urefs = map lit (Linker.notion_links refs).
Proof.
  intros Hp Ht Hb Hr refs urefs. subst refs urefs.
  unfold parse_task_refs, Linker.parse_task_refs_with.
  cbn [task_ids notion_links Linker.task_ids Linker.notion_links].
  assert (E : or_empty (option_map lit branch) = lit (Linker.or_empty branch))
    by (destruct branch; reflexivity).
  rewrite E, join3_lit.
  pose proof (join3_ascii title body (Linker.or_empty branch) Ht Hb Hr) as J.
  split.
  - unfold task_finditer, Linker.task_finditer.
    change (@None N) with (option_map Text.code None).
    rewrite (task_scan_agrees pfx _ Hp J None 0 I).
    pose proof (task_scan_ascii pfx _ J None 0) as A.
    assert (M : forall l, Forall Spec.ascii_text l ->
                          map (upper U) (map lit l) = map lit (map Text.upper l)).
    { induction 1 as [|x l Hx Hl IH]; [reflexivity|].
      cbn [map]. now rewrite IH, (upper_agrees x Hx). }
    now rewrite (M _ A), py_set_lit, py_sorted_lit.
  - unfold link_finditer, Linker.link_finditer.
    now rewrite (link_scan_agrees _ J 0), py_set_lit, py_sorted_lit.
Qed.

End Tables.

Lemma ascii_tables_below_128 : ascii_below_128 ascii_tables.
Proof. repeat split. Qed.

Lemma extraction_on_ascii_text_witness :
  task_ids (parse_task_refs ascii_tables (lit "TASK")
              (lit "Release automation TASK-3374")
              (lit Examples.example_link) None) =
    map lit (Linker.task_ids Examples.example_refs) /\
  notion_links (parse_task_refs ascii_tables (lit "TASK")
                  (lit "Release automation TASK-3374")
                  (lit Examples.example_link) None) =
    map lit (Linker.notion_links Examples.example_refs).
Proof.
  apply (extraction_on_ascii_text ascii_tables ascii_tables_below_128
           "TASK" "Release automation TASK-3374" Examples.example_link None);
    reflexivity.
Defined.

End Agreement.

(* ================================================================== *)
(** * Properties of a whole run of the linker *)
(* ================================================================== *)

Module RunExtras.
Import Text Linker Spec Examples Notions Main Runs LinkerFacts LinkerExtras.
Section WholeRun.

Variable W : Type.
Variable http_get_children : W -> string -> option (Z * list Block).
Variable http_patch_children :
  W -> string -> list Block -> W * option (Z * string).
Variable http_search : W -> string -> option SearchResponse.
Variable http_post_comment :
  W -> string -> Z -> string -> W * option (Z * string).

Local Abbreviation run_main :=
  (main W http_get_children http_patch_children http_search
     http_post_comment).

Lemma blocks_of_app (a b : list Call) :
  blocks_of (a ++ b) = (blocks_of a ++ blocks_of b)%list.
Proof. apply flat_map_app. Qed.

Lemma comments_of_app (a b : list Call) :
  comments_of (a ++ b) = (comments_of a ++ comments_of b)%list.
Proof. apply flat_map_app. Qed.

Lemma searches_of_app (a b : list Call) :
  searches_of (a ++ b) = (searches_of a ++ searches_of b)%list.
Proof. apply flat_map_app. Qed.

Lemma reads_of_app (a b : list Call) :
  reads_of (a ++ b) = (reads_of a ++ reads_of b)%list.
Proof. apply flat_map_app. Qed.

Lemma blocks_of_notion (evs : list Event) :
  blocks_of (map CallNotion evs) = written_blocks evs.
Proof.
  induction evs as [|[p cs|t] evs IH]; [reflexivity| |exact IH].
  change (blocks_of (map CallNotion (EvPatch p cs :: evs)))
    with (cs ++ blocks_of (map CallNotion evs))%list.
  now rewrite IH.
Qed.

Lemma notion_calls (evs : list Event) :
  comments_of (map CallNotion evs) = [] /\
  searches_of (map CallNotion evs) = [] /\
  reads_of (map CallNotion evs) = [].
Proof. induction evs as [|e evs IH]; [now repeat split | exact IH]. Qed.

Lemma search_calls (tids : list string) :
  searches_of (map CallSearch tids) = tids /\
  reads_of (map CallSearch tids) = [] /\
  blocks_of (map CallSearch tids) = [] /\
  comments_of (map CallSearch tids) = [].
Proof.
  induction tids as [|t tids (S & R & B & C)]; [now repeat split|].
  repeat split; [|exact R | exact B | exact C].
  change (searches_of (map CallSearch (t :: tids)))
    with (t :: searches_of (map CallSearch tids)).
  now rewrite S.
Qed.

(** The searches of [main] are those of [resolve_pages], one for each
    short code, in the order of the short codes. *)
Lemma search_all_found (w : W) (tids : list string)
    (found : list (string * string)) :
  pages_of_task_ids W http_search w tids = Ok found ->
  search_all W http_search w tids = (map CallSearch tids, Ok found).
Proof.
  revert found. induction tids as [|tid rest IH]; intros found H.
  - injection H as <-. reflexivity.
  - cbn [pages_of_task_ids] in H. cbn [search_all map].
    destruct (notion_search_page W http_search w tid) as [r|e];
      [|discriminate H].
    cbn [bind] in H.
    destruct (pages_of_task_ids W http_search w rest) as [more|e];
      [|discriminate H].
    cbn [bind] in H. injection H as <-.
    now rewrite (IH more eq_refl).
Qed.

Lemma annotate_all_calls (w : W) (pages : list (string * string))
    (pr_url : string) :
  let run :=
    annotate_all W http_get_children http_patch_children w pages pr_url in
  let calls := snd (fst run) in
  Forall (eq (pr_bullet pr_url)) (blocks_of calls) /\
  List.length (blocks_of calls) <= List.length pages /\
  comments_of calls = [] /\
  searches_of calls = [] /\
  (exists n, reads_of calls = firstn n (map fst pages)) /\
  (snd run = Ok tt -> reads_of calls = map fst pages).
Proof.
  revert w. induction pages as [|[pid u] rest IH]; intros w.
  - cbn. repeat split; auto. now exists 0.
  - cbn [annotate_all].
    pose proof (append_writes_at_most_once W http_get_children
                  http_patch_children w pid pr_url) as A.
    destruct (notion_append_pr_bullet W http_get_children
                http_patch_children w pid pr_url) as [[w1 evs] [[]|e]];
      cbn [fst snd] in A.
    + specialize (IH w1).
      destruct (annotate_all W http_get_children http_patch_children
                  w1 rest pr_url) as [[w2 calls] out].
      cbn [fst snd] in IH |- *.
      destruct IH as (F & L & C & Sr & (n & R) & Rall).
      destruct (notion_calls evs) as (NC & NS & NR).
      change (CallRead pid :: map CallNotion evs ++ calls)%list
        with ([CallRead pid] ++ map CallNotion evs ++ calls)%list.
      rewrite !blocks_of_app, !comments_of_app, !searches_of_app,
        !reads_of_app, blocks_of_notion, NC, NS, NR, C, Sr, R.
      cbn [blocks_of comments_of searches_of reads_of flat_map app map fst].
      rewrite length_app.
      split; [destruct A as [-> | ->]; cbn [app]; auto|].
      split; [destruct A as [-> | ->]; cbn [List.length]; lia|].
      split; [reflexivity|]. split; [reflexivity|].
      split; [now exists (S n)|].
      intros O. specialize (Rall O). rewrite <- R, Rall. reflexivity.
    + cbn [fst snd].
      destruct (notion_calls evs) as (NC & NS & NR).
      change (CallRead pid :: map CallNotion evs)%list
        with ([CallRead pid] ++ map CallNotion evs)%list.
      rewrite !blocks_of_app, !comments_of_app, !searches_of_app,
        !reads_of_app, blocks_of_notion, NC, NS, NR.
      cbn [blocks_of comments_of searches_of reads_of flat_map app map fst].
      split; [destruct A as [-> | ->]; auto|].
      split; [destruct A as [-> | ->]; cbn [List.length]; lia|].
      split; [reflexivity|]. split; [reflexivity|].
      split; [now exists 1 | discriminate].
Qed.

Lemma post_calls (w : W) (repo : string) (number : Z) (comment : string) :
  let calls :=
    snd (fst (gh_post_pr_comment W http_post_comment w repo number comment)) in
  blocks_of calls = [] /\ comments_of calls = [comment] /\
  searches_of calls = [] /\ reads_of calls = [].
Proof.
  unfold gh_post_pr_comment.
  destruct (http_post_comment w repo number comment) as [w' [[st text]|]];
    [destruct (300 <=? st)%Z|]; repeat split.
Qed.

(** X19. A run of [main] with both tokens set, whose references resolve to
    [pages], whatever the services answer.  Its searches are one for each
    short code, in order, and come first; it reads the children of the
    pages in the order of [pages], of all of them when it ends without an
    exception; every block it writes is the bullet of the pull request,
    and it writes no more blocks than there are pages; it posts no
    comment or the one comment that lists the pages, after every read and
    write.  With no page it makes no other request than its searches and
    prints that there is nothing to link.  A run over at least one page
    that ends without an exception has posted the comment and reports the
    number of pages.  The title, the body, the branch and the task prefix
    are ASCII text, for which [parse_task_refs_with] is the extraction of
    the script. *)
Theorem main_links_both_ways (task_prefix gh_token notion_token : option string)
    (info : PrInfo) (w : W) (pages : list (string * string)) :
  ascii_text (TASK_PREFIX task_prefix) ->
  ascii_text (pr_title info) -> ascii_text (pr_body info) ->
  ascii_text (or_empty (branch info)) ->
  is_set gh_token = true ->
  is_set notion_token = true ->
  let refs :=
    parse_task_refs_with (TASK_PREFIX task_prefix)
      (pr_title info) (pr_body info) (branch info) in
  resolve_pages W http_search w refs = Ok pages ->
  let run := run_main task_prefix gh_token notion_token info w in
  let calls := snd (fst run) in
  searches_of calls = task_ids refs /\
  Forall (eq (pr_bullet (pr_html_url info))) (blocks_of calls) /\
  List.length (blocks_of calls) <= List.length pages /\
  (exists n, reads_of calls = firstn n (map fst pages)) /\
  (comments_of calls = [] \/ comments_of calls = [comment_body pages]) /\
  (exists notion posted,
      calls = (map CallSearch (task_ids refs) ++ notion ++ posted)%list /\
      searches_of notion = [] /\ comments_of notion = [] /\
      searches_of posted = [] /\ reads_of posted = [] /\
      blocks_of posted = []) /\
  (pages = [] ->
   run = (w, (map CallSearch (task_ids refs) ++ [CallNothingToLink])%list,
          Ok tt)) /\
  (pages <> [] -> snd run = Ok tt ->
   reads_of calls = map fst pages /\
   comments_of calls = [comment_body pages] /\
   In (CallLinked (List.length pages) (pr_number info)) calls).
Proof.
  intros _ _ _ _ G N refs R run calls. subst calls run. unfold main.
  rewrite G, N. cbn [negb]. fold refs. clearbody refs.
  unfold resolve_pages in R.
  destruct (pages_of_task_ids W http_search w (task_ids refs))
    as [found|e] eqn:E; [|discriminate R].
  cbn [bind] in R. injection R as R.
  rewrite (search_all_found w (task_ids refs) found E), R.
  destruct (search_calls (task_ids refs)) as (SS & SR & SB & SC).
  pose proof (annotate_all_calls w pages (pr_html_url info)) as A.
  cbv zeta in A.
  destruct pages as [|p rest].
  { cbn [annotate_all app fst snd].
    rewrite !searches_of_app, !blocks_of_app, !comments_of_app,
      !reads_of_app, SS, SR, SB, SC.
    cbn [blocks_of comments_of searches_of reads_of flat_map app
         List.length].
    rewrite app_nil_r.
    split; [reflexivity|]. split; [constructor|]. split; [apply le_n|].
    split; [now exists 0|]. split; [now left|].
    split; [exists [], [CallNothingToLink]; now repeat split|].
    split; [reflexivity | congruence]. }
  destruct (annotate_all W http_get_children http_patch_children w
              (p :: rest) (pr_html_url info)) as [[w1 calls] [[]|e]];
    cbn [fst snd] in A |- *;
    destruct A as (F & L & C & S & Rd & Rall).
  - pose proof (post_calls w1 (repo_full info) (pr_number info)
                  (comment_body (p :: rest))) as P. cbv zeta in P.
    destruct (gh_post_pr_comment W http_post_comment w1 (repo_full info)
                (pr_number info) (comment_body (p :: rest)))
      as [[w2 posted] [[]|e]]; cbn [fst snd] in P |- *;
      destruct P as (PB & PC & PS & PR).
    + rewrite !searches_of_app, !blocks_of_app, !comments_of_app,
        !reads_of_app, SS, SR, SB, SC, PB, PC, PS, PR, C, S.
      cbn [blocks_of comments_of searches_of reads_of flat_map app].
      rewrite !app_nil_r.
      split; [reflexivity|]. split; [exact F|]. split; [exact L|].
      split; [exact Rd|]. split; [now right|].
      split.
      { exists calls, (posted ++ [CallLinked (List.length (p :: rest))
                                    (pr_number info)])%list.
        split; [reflexivity|]. split; [exact S|]. split; [exact C|].
        rewrite !searches_of_app, !reads_of_app, !blocks_of_app, PS, PR, PB.
        now repeat split. }
      split; [discriminate|]. intros _ _.
      split; [now apply Rall|]. split; [reflexivity|].
      apply in_or_app. right. apply in_or_app. right.
      apply in_or_app. right. now left.
    + rewrite !searches_of_app, !blocks_of_app, !comments_of_app,
        !reads_of_app, SS, SR, SB, SC, PB, PC, PS, PR, C, S.
      cbn [app]. rewrite !app_nil_r.
      split; [reflexivity|]. split; [exact F|]. split; [exact L|].
      split; [exact Rd|]. split; [now right|].
      split; [exists calls, posted; now repeat split|].
      split; discriminate.
  - rewrite !searches_of_app, !blocks_of_app, !comments_of_app,
      !reads_of_app, SS, SR, SB, SC, C, S.
    cbn [app]. rewrite !app_nil_r.
    split; [reflexivity|]. split; [exact F|]. split; [exact L|].
    split; [exact Rd|]. split; [now left|].
    split; [exists calls, []; rewrite app_nil_r; now repeat split|].
    split; discriminate.
Qed.

(** X20. A run of [main] that lacks one of the two tokens stops with
    [SystemExit] after the error line: it leaves the services as they
    were, makes no request, writes no block and posts no comment,
    whatever the pull request says and whatever the services would
    answer. *)
Theorem main_needs_both_tokens (task_prefix gh_token notion_token : option string)
    (info : PrInfo) (w : W) :
  is_set gh_token = false \/ is_set notion_token = false ->
  let run := run_main task_prefix gh_token notion_token info w in
  fst (fst run) = w /\ snd run = Raise "SystemExit" /\
  blocks_of (snd (fst run)) = [] /\ comments_of (snd (fst run)) = [] /\
  exists msg, snd (fst run) = [CallError msg].
Proof.
  intros H run. subst run. unfold main.
  destruct (is_set gh_token); cbn [negb].
  - destruct H as [H|H]; [discriminate H|]. rewrite H. cbn [negb fst snd].
    repeat split. eexists. reflexivity.
  - cbn [fst snd]. repeat split. eexists. reflexivity.
Qed.

End WholeRun.

Lemma main_links_both_ways_witness :
  snd (fst (example_run (Some "gh") (Some "nt"))) =
    [CallSearch "TASK-3374"; CallRead example_id;
     CallNotion (EvPatch example_id
                   [pr_bullet "https://github.com/o/r/pull/108"]);
     CallComment "o/r" 108 (comment_body [(example_id,
                                          public_url_of example_id)]);
     CallLinked 1 108] /\
  unlinked_run =
    (tt, [CallSearch "CARD-12"; CallSearch "CARD-7"; CallNothingToLink],
     Ok tt).
Proof.
  split; [reflexivity|].
  destruct (main_links_both_ways unit
              (fun _ _ => Some (200%Z, [])) (fun w _ _ => (w, Some (200%Z, "")))
              search_finds_nothing (fun w _ _ _ => (w, Some (201%Z, "")))
              (Some "CARD") (Some "gh") (Some "nt") unlinked_pr tt [])
    as (_ & _ & _ & _ & _ & _ & E & _); [reflexivity ..|].
  exact (E eq_refl).
Defined.

Lemma main_needs_both_tokens_witness :
  snd (example_run None (Some "nt")) = Raise "SystemExit" /\
  snd (example_run (Some "gh") (Some "")) = Raise "SystemExit".
Proof.
  split.
  - apply (main_needs_both_tokens unit
             (fun _ _ => Some (200%Z, [])) (fun w _ _ => (w, Some (200%Z, "")))
             (search_finds example_id) (fun w _ _ _ => (w, Some (201%Z, "")))
             None None (Some "nt") example_pr tt). now left.
  - apply (main_needs_both_tokens unit
             (fun _ _ => Some (200%Z, [])) (fun w _ _ => (w, Some (200%Z, "")))
             (search_finds example_id) (fun w _ _ _ => (w, Some (201%Z, "")))
             None (Some "gh") (Some "") example_pr tt). now right.
Defined.

End RunExtras.
